(** * Song workflow orchestrator: a shallow embedding of
      [backend/api/orchestrator/utils.py]

    The development has three parts.  Part I transcribes the Python functions
    ([execute_song_workflow], [download_both_songs], [review_all_songs],
    [call_review_api], [process_song_verdicts],
    [process_song_verdicts_final_attempt], [handle_failsafe_songs], ...)
    together with the few standard-library routines they call.  Part II
    states and proves the properties of the workflow, routine by routine.
    Part III follows whole batches and whole runs.

    Conventions.
    - A Python function that awaits collaborators is a state transformer
      that may raise: [world -> outcome A * world].
    - Every function is written against the callees it names; the callees
      that live outside this module ([generate_song_handler],
      [download_song_handler], [review_song_endpoint], [asyncio.sleep]) are
      section variables, so every theorem holds for all their behaviours.
    - Of an exception the code reads only [str(e)]; what the model keeps of
      it is that message and whether it is an instance of [Exception], which
      is what [except Exception] asks.
    - The file system can refuse an operation: [shutil.move], [os.remove]
      and [os.makedirs] return or raise an [OSError]. *)

From Stdlib Require Import String Ascii ZArith List Lia Bool.
From stdpp Require Import base option list gmap strings fin_maps pretty.

Local Open Scope string_scope.
Local Open Scope list_scope.

(* ===================================================================== *)
(** * Part I.  The program                                                *)
(* ===================================================================== *)

(** ** Outcomes and the state-and-exception monad *)

(** An exception: an instance of [Exception], which [except Exception]
    intercepts, or one that is not ([asyncio.CancelledError] raised at an
    [await], [KeyboardInterrupt], [SystemExit]), which it lets through. *)
Inductive exn : Type :=
| Exception (message : string)
| BaseException (message : string).

Inductive outcome (A : Type) : Type :=
| Returned (a : A)
| Raised (e : exn).
Arguments Returned {A} a.
Arguments Raised {A} e.

Definition M (S A : Type) : Type := S -> outcome A * S.

#[global] Instance M_ret {S} : MRet (M S) :=
  fun A (a : A) s => (Returned a, s).

#[global] Instance M_bind {S} : MBind (M S) :=
  fun A B (k : A -> M S B) (c : M S A) s =>
    match c s with
    | (Returned a, s') => k a s'
    | (Raised e, s') => (Raised e, s')
    end.

(** [try: body except Exception as e: handler (str e)].  Only instances of
    [Exception] are intercepted; any other exception goes on to the caller.
    The state reached when the exception was raised is kept: Python does not
    roll back. *)
Definition try_except {S A} (body : M S A) (handler : string -> M S A) : M S A :=
  fun s =>
    match body s with
    | (Returned a, s') => (Returned a, s')
    | (Raised (Exception e), s') => handler e s'
    | (Raised (BaseException e), s') => (Raised (BaseException e), s')
    end.

Definition raise {S A} (e : exn) : M S A := fun s => (Raised e, s).
Definition get_state {S} : M S S := fun s => (Returned s, s).
Definition modify_state {S} (f : S -> S) : M S unit := fun s => (Returned tt, f s).

(** ** [os.path] on POSIX paths

    Library code, transcribed from CPython's [posixpath] and [genericpath]:
    [basename], the two-argument [join] and [splitext]. *)

Module OsPath.

Local Open Scope Z_scope.

Definition sep : ascii := "/"%char.
Definition extsep : ascii := "."%char.

(** [p.rfind(c)]: index of the last occurrence of [c], [-1] if none. *)
Fixpoint rfind (c : ascii) (p : string) : Z :=
  match p with
  | EmptyString => -1
  | String a r =>
      let i := rfind c r in
      if 0 <=? i then i + 1
      else if Ascii.eqb a c then 0 else -1
  end.

(** [p[n:]] and [p[:n]]. *)
Fixpoint slice_from (n : nat) (p : string) : string :=
  match n, p with
  | O, _ => p
  | S _, EmptyString => EmptyString
  | S k, String _ r => slice_from k r
  end.

Fixpoint slice_to (n : nat) (p : string) : string :=
  match n, p with
  | O, _ => EmptyString
  | S _, EmptyString => EmptyString
  | S k, String a r => String a (slice_to k r)
  end.

(** [i = p.rfind(sep) + 1; return p[i:]] *)
Definition basename (p : string) : string :=
  let i := rfind sep p + 1 in
  slice_from (Z.to_nat i) p.

Definition startswith_sep (b : string) : bool :=
  match b with
  | String a _ => Ascii.eqb a sep
  | EmptyString => false
  end.

Fixpoint endswith_sep (a : string) : bool :=
  match a with
  | EmptyString => false
  | String c EmptyString => Ascii.eqb c sep
  | String _ r => endswith_sep r
  end.

Definition is_empty (a : string) : bool :=
  match a with EmptyString => true | _ => false end.

(** [join(a, b)]: [b] if it is absolute, otherwise [a] and [b] with one
    separator between them unless [a] is empty or already ends in one. *)
Definition join (a b : string) : string :=
  if startswith_sep b then b
  else if is_empty a || endswith_sep a then a +:+ b
  else a +:+ String sep b.

Fixpoint has_non_dot (s : string) : bool :=
  match s with
  | EmptyString => false
  | String a r => negb (Ascii.eqb a extsep) || has_non_dot r
  end.

(** [splitext(p)]: split at the last dot of the last path component,
    unless that component has only leading dots before it. *)
Definition splitext (p : string) : string * string :=
  let sepIndex := rfind sep p in
  let dotIndex := rfind extsep p in
  if (sepIndex <? dotIndex)
     && has_non_dot
          (slice_to (Z.to_nat (dotIndex - (sepIndex + 1)))
             (slice_from (Z.to_nat (sepIndex + 1)) p))
  then (slice_to (Z.to_nat dotIndex) p, slice_from (Z.to_nat dotIndex) p)
  else (p, EmptyString).

(** A string without a separator: a file name rather than a path. *)
Definition sep_free (p : string) : Prop := rfind sep p = -1.

(** A path names an entry directly inside directory [d]. *)
Definition in_dir (d p : string) : Prop := join d (basename p) = p.

End OsPath.

(** ** The file system

    The regular files, a finite map from path to content, and the paths at
    which the operating system refuses to create or to remove an entry: the
    directory is missing or cannot be written, the device is read-only.
    An operation that is refused raises an [OSError] and changes nothing. *)

Record filesystem : Type := {
  files : gmap string string;
  refused : gset string
}.

(** What a call into [os] or [shutil] does: it returns, or it raises an
    [OSError] (an instance of [Exception]). *)
Inductive os_result : Type :=
| Done
| OSError (message : string).

Definition os_path_exists (p : string) (fs : filesystem) : bool :=
  bool_decide (is_Some (files fs !! p)).

Definition os_refuses (p : string) (fs : filesystem) : bool :=
  bool_decide (p ∈ refused fs).

(** The file system after [src] was renamed to [dst], and after [p] was
    unlinked. *)
Definition renamed (src dst content : string) (fs : filesystem) : filesystem :=
  {| files := <[dst := content]> (delete src (files fs)); refused := refused fs |}.

Definition unlinked (p : string) (fs : filesystem) : filesystem :=
  {| files := delete p (files fs); refused := refused fs |}.

(** [shutil.move(src, dst)] onto a file path is [os.rename]: the destination
    is replaced and the source name disappears.  It raises when the source
    is missing, and when the entry cannot be taken out of its directory or
    put into the directory of [dst]. *)
Definition shutil_move (src dst : string) (fs : filesystem) : os_result * filesystem :=
  match files fs !! src with
  | Some content =>
      if os_refuses src fs || os_refuses dst fs
      then (OSError ("[Errno 13] Permission denied: " +:+ dst), fs)
      else (Done, renamed src dst content fs)
  | None => (OSError ("[Errno 2] No such file or directory: " +:+ src), fs)
  end.

Definition os_remove (p : string) (fs : filesystem) : os_result * filesystem :=
  match files fs !! p with
  | Some _ =>
      if os_refuses p fs
      then (OSError ("[Errno 13] Permission denied: " +:+ p), fs)
      else (Done, unlinked p fs)
  | None => (OSError ("[Errno 2] No such file or directory: " +:+ p), fs)
  end.

(** [os.makedirs(d, exist_ok=True)].  Directories are implicit: the call
    changes nothing when it returns, and it raises when [d] cannot be
    created. *)
Definition os_makedirs (d : string) (fs : filesystem) : os_result * filesystem :=
  if os_refuses d fs
  then (OSError ("[Errno 13] Permission denied: " +:+ d), fs)
  else (Done, fs).

(** ** Data: the dictionaries the module passes around *)

(** [{"file_path", "index", "title"}]: one staged artifact. *)
Module Song.
Record t : Type := mk { file_path : string; index : Z; title : string }.
End Song.

(** Modelled from the spec: the response type of [ai_review.routes] is not
    part of this module; its fields are the six attributes that
    [call_review_api] reads, and the reviewer's verdict is a string.

    The dictionary stored under ["review_details"] has the three shapes
    built at lines 360-367, 374-378 and 335. *)
Inductive review_details : Type :=
| ReviewResponse (success : bool)
    (verdict first_response second_response error audio_file : string)
| ReviewApiFailure (error : string)
| ReviewProcessFailure (error : string).

(** [review_result.get("verdict", default)] *)
Definition get_verdict (review_result : review_details) (default : string) : string :=
  match review_result with
  | ReviewResponse _ verdict _ _ _ _ => verdict
  | ReviewApiFailure _ => "error"
  | ReviewProcessFailure _ => default
  end.

(** [{"file_path", "index", "title", "verdict", "review_details"}] *)
Module Review.
Record t : Type := mk {
  file_path : string;
  index : Z;
  title : string;
  verdict : string;
  details : review_details
}.
End Review.

(** Modelled from the spec: [generate_song_handler] of [song.utils] is not
    part of this module; of its reply only whether it is a dict with a
    truthy ["success"] is inspected. *)
Inductive generation_reply : Type :=
| ReplyDict (success : bool)
| ReplyOther.

(** [{"success": True, "result": ...}] or [{"success": False, "error": ...}]. *)
Inductive generation_result : Type :=
| GenerationSucceeded (result : generation_reply)
| GenerationFailed (error : string).

(** Modelled from the spec: [download_song_handler] of [song.utils] is not
    part of this module; its reply carries ["success"] and then either
    ["file_path"] or an optional ["error"]. *)
Inductive fetch_reply : Type :=
| FetchOk (file_path : string)
| FetchFailed (error : option string).

(** [{"success": False, "error", "downloads": []}] or
    [{"success": True, "downloads", "message"}]. *)
Inductive download_result : Type :=
| DownloadFailed (error : string)
| DownloadSucceeded (downloads : list Song.t) (message : string).

Definition download_success (r : download_result) : bool :=
  match r with DownloadSucceeded _ _ => true | DownloadFailed _ => false end.

Definition download_list (r : download_result) : list Song.t :=
  match r with DownloadSucceeded downloads _ => downloads | DownloadFailed _ => [] end.

(** [{"kept_count", "deleted_count"}], with ["preserved_count"] in
    final-attempt mode. *)
Record verdict_result : Type := {
  kept_count : nat;
  deleted_count : nat;
  preserved_count : option nat
}.

(** [{"moved_count", "error_count"}] *)
Record failsafe_result : Type := { moved_count : nat; error_count : nat }.

Record attempt_record : Type := {
  attempt_number : nat;
  generation_success : bool;
  downloads : list Song.t;
  reviews : list Review.t;
  final_action : option string
}.

Record details : Type := {
  attempts : list attempt_record;
  total_songs_generated : nat;
  total_songs_reviewed : nat;
  songs_kept : nat;
  songs_deleted : nat
}.

(** Values of the dictionary [execute_song_workflow] returns. *)
Inductive value : Type :=
| VBool (b : bool)
| VInt (n : nat)
| VStr (s : string)
| VDetails (d : details).

Abbreviation result := (gmap string value).

(** The world outside the interpreter: the state of the external services
    and the file system. *)
Record world (Ext : Type) : Type := { ext : Ext; fs : filesystem }.
Arguments ext {Ext} w.
Arguments fs {Ext} w.

(** A routine that only touches the file system and cannot raise, seen as a
    step of the workflow. *)
Definition on_fs {Ext A} (f : filesystem -> A * filesystem) : M (world Ext) A :=
  fun w => let '(a, fs') := f (fs w) in (Returned a, {| ext := ext w; fs := fs' |}).

(** A call into [os], seen as a step of the workflow: an [OSError] is an
    [Exception]. *)
Definition os_call {Ext} (op : filesystem -> os_result * filesystem) : M (world Ext) unit :=
  fun w =>
    let '(r, fs') := op (fs w) in
    (match r with
     | Done => Returned tt
     | OSError message => Raised (Exception message)
     end, {| ext := ext w; fs := fs' |}).

(** One progress line of [execute_song_workflow] on the console, for the
    lines that announce an attempt or a step (lines 75, 87, 101, 105, 122,
    129 and 187). *)
Inductive event : Type :=
| EvAttempt (attempt : nat)
| EvGenerate
| EvWait
| EvDownload
| EvReview
| EvRoute
| EvFailsafe.

(** The local variables of a running [execute_song_workflow], the world and
    the console. *)
Record frame (Ext : Type) : Type := {
  world_of : world Ext;
  workflow_details : details;
  final_attempt_songs : list Song.t;
  attempt_details : attempt_record;
  console : list event
}.
Arguments world_of {Ext} f.
Arguments workflow_details {Ext} f.
Arguments final_attempt_songs {Ext} f.
Arguments attempt_details {Ext} f.
Arguments console {Ext} f.

Definition verify_final_destination_folder : string :=
  let final_destination := "backend/songs/final_review" in
  final_destination.

Definition max_attempts : nat := 3.

(** ** [execute_song_workflow] (lines 15-211) *)

Section Orchestrator.

Context {Ext : Type}.

(** The callees, in the order the workflow awaits them. *)
Variable generate_songs :
  string -> Z -> string -> string -> string -> M (world Ext) generation_result.
Variable asyncio_sleep : Z -> M (world Ext) unit.
Variable download_both_songs : string -> string -> M (world Ext) download_result.
Variable review_all_songs :
  list Song.t -> option Z -> M (world Ext) (list Review.t).
Variable process_song_verdicts :
  list Review.t -> string -> M (world Ext) verdict_result.
Variable process_song_verdicts_final_attempt :
  list Review.t -> string -> M (world Ext) verdict_result.
Variable handle_failsafe_songs :
  list Song.t -> string -> M (world Ext) failsafe_result.

(** The arguments of the call. *)
Variables (book_name : string) (chapter : Z) (verse_range style title : string).
Variable song_structure_id : option Z.

(** [await callee(...)] *)
Definition await {A} (callee : M (world Ext) A) : M (frame Ext) A :=
  fun f =>
    let '(r, w) := callee (world_of f) in
    (r, {| world_of := w;
           workflow_details := workflow_details f;
           final_attempt_songs := final_attempt_songs f;
           attempt_details := attempt_details f;
           console := console f |}).

Definition print (line : event) : M (frame Ext) unit :=
  modify_state (fun f =>
    {| world_of := world_of f;
       workflow_details := workflow_details f;
       final_attempt_songs := final_attempt_songs f;
       attempt_details := attempt_details f;
       console := console f ++ [line] |}).

(** Assignments to the three locals. *)
Definition update_attempt (upd : attempt_record -> attempt_record) : M (frame Ext) unit :=
  modify_state (fun f =>
    {| world_of := world_of f;
       workflow_details := workflow_details f;
       final_attempt_songs := final_attempt_songs f;
       attempt_details := upd (attempt_details f);
       console := console f |}).

Definition update_details (upd : details -> details) : M (frame Ext) unit :=
  modify_state (fun f =>
    {| world_of := world_of f;
       workflow_details := upd (workflow_details f);
       final_attempt_songs := final_attempt_songs f;
       attempt_details := attempt_details f;
       console := console f |}).

Definition set_final_attempt_songs (songs : list Song.t) : M (frame Ext) unit :=
  modify_state (fun f =>
    {| world_of := world_of f;
       workflow_details := workflow_details f;
       final_attempt_songs := songs;
       attempt_details := attempt_details f;
       console := console f |}).

Definition set_generation_success (b : bool) (a : attempt_record) : attempt_record :=
  {| attempt_number := attempt_number a; generation_success := b;
     downloads := downloads a; reviews := reviews a;
     final_action := final_action a |}.

Definition set_downloads (l : list Song.t) (a : attempt_record) : attempt_record :=
  {| attempt_number := attempt_number a;
     generation_success := generation_success a;
     downloads := l; reviews := reviews a; final_action := final_action a |}.

Definition set_reviews (l : list Review.t) (a : attempt_record) : attempt_record :=
  {| attempt_number := attempt_number a;
     generation_success := generation_success a;
     downloads := downloads a; reviews := l; final_action := final_action a |}.

Definition set_final_action (s : string) (a : attempt_record) : attempt_record :=
  {| attempt_number := attempt_number a;
     generation_success := generation_success a;
     downloads := downloads a; reviews := reviews a; final_action := Some s |}.

Definition add_generated (n : nat) (d : details) : details :=
  {| attempts := attempts d;
     total_songs_generated := total_songs_generated d + n;
     total_songs_reviewed := total_songs_reviewed d;
     songs_kept := songs_kept d; songs_deleted := songs_deleted d |}.

Definition add_reviewed (n : nat) (d : details) : details :=
  {| attempts := attempts d;
     total_songs_generated := total_songs_generated d;
     total_songs_reviewed := total_songs_reviewed d + n;
     songs_kept := songs_kept d; songs_deleted := songs_deleted d |}.

Definition add_kept (n : nat) (d : details) : details :=
  {| attempts := attempts d;
     total_songs_generated := total_songs_generated d;
     total_songs_reviewed := total_songs_reviewed d;
     songs_kept := songs_kept d + n; songs_deleted := songs_deleted d |}.

Definition add_deleted (n : nat) (d : details) : details :=
  {| attempts := attempts d;
     total_songs_generated := total_songs_generated d;
     total_songs_reviewed := total_songs_reviewed d;
     songs_kept := songs_kept d; songs_deleted := songs_deleted d + n |}.

Definition append_attempt (a : attempt_record) (d : details) : details :=
  {| attempts := attempts d ++ [a];
     total_songs_generated := total_songs_generated d;
     total_songs_reviewed := total_songs_reviewed d;
     songs_kept := songs_kept d; songs_deleted := songs_deleted d |}.

(** [workflow_details["attempts"].append(attempt_details)] *)
Definition record_attempt : M (frame Ext) unit :=
  modify_state (fun f =>
    {| world_of := world_of f;
       workflow_details := append_attempt (attempt_details f) (workflow_details f);
       final_attempt_songs := final_attempt_songs f;
       attempt_details := attempt_details f;
       console := console f |}).

Definition temp_dir : string := "backend/songs/temp".
Definition final_dir : string := verify_final_destination_folder.

(** The four dictionaries the function returns (lines 146-154, 171-178,
    193-201 and 203-211). *)
Definition success_result (attempt : nat) (v : verdict_result) (d : details) : result :=
  list_to_map
    [ ("success", VBool true);
      ("message",
       VStr ("🎼 Workflow completed successfully on attempt "
             +:+ pretty attempt +:+ "!"));
      ("total_attempts", VInt attempt);
      ("final_songs_count", VInt (kept_count v));
      ("good_songs", VInt (kept_count v));
      ("re_rolled_songs", VInt (deleted_count v));
      ("workflow_details", VDetails d) ].

Definition fatal_result (attempt : nat) (error_msg : string) (d : details) : result :=
  list_to_map
    [ ("success", VBool false);
      ("message",
       VStr ("🎼 Workflow failed after " +:+ pretty max_attempts +:+ " attempts"));
      ("total_attempts", VInt attempt);
      ("final_songs_count", VInt 0);
      ("error", VStr error_msg);
      ("workflow_details", VDetails d) ].

Definition failsafe_success_result (failsafe_songs_moved : nat) (d : details) : result :=
  list_to_map
    [ ("success", VBool true);
      ("message",
       VStr ("🎼 Max attempts (" +:+ pretty max_attempts
             +:+ ") reached. AI rejected all songs, but fail-safe activated: "
             +:+ pretty failsafe_songs_moved
             +:+ " song(s) from final attempt moved to final_review as backup."));
      ("total_attempts", VInt max_attempts);
      ("final_songs_count", VInt failsafe_songs_moved);
      ("good_songs", VInt 0);
      ("re_rolled_songs", VInt (songs_deleted d));
      ("workflow_details", VDetails d) ].

Definition exhausted_result (d : details) : result :=
  list_to_map
    [ ("success", VBool true);
      ("message",
       VStr ("🎼 Max attempts (" +:+ pretty max_attempts
             +:+ ") reached. All generated songs were rejected by AI review. "
             +:+ "No songs were successfully downloaded in final attempt."));
      ("total_attempts", VInt max_attempts);
      ("final_songs_count", VInt 0);
      ("good_songs", VInt 0);
      ("re_rolled_songs", VInt (songs_deleted d));
      ("workflow_details", VDetails d) ].

(** The [try] block of one iteration (lines 86-159).  [Some r] is
    [return r]; [None] leaves the iteration, by [continue] or by reaching
    the end of the block. *)
Definition attempt_body (attempt : nat) : M (frame Ext) (option result) :=
  print EvGenerate;;
  generation_result ← await (generate_songs book_name chapter verse_range style title);
  match generation_result with
  | GenerationFailed error =>
      update_attempt (set_final_action ("generation_failed: " +:+ error));;
      record_attempt;;
      mret None
  | GenerationSucceeded _ =>
      update_attempt (set_generation_success true);;
      update_details (add_generated 2);;
      print EvWait;;
      await (asyncio_sleep (3 * 60)%Z);;
      print EvDownload;;
      download_results ← await (download_both_songs title temp_dir);
      match download_results with
      | DownloadFailed error =>
          update_attempt (set_final_action ("download_failed: " +:+ error));;
          record_attempt;;
          mret None
      | DownloadSucceeded downloaded_songs _ =>
          update_attempt (set_downloads downloaded_songs);;
          (if Nat.eqb attempt max_attempts
           then set_final_attempt_songs downloaded_songs
           else mret tt);;
          print EvReview;;
          review_results ← await (review_all_songs downloaded_songs song_structure_id);
          update_attempt (set_reviews review_results);;
          update_details (add_reviewed (length review_results));;
          print EvRoute;;
          verdict_result ←
            (if Nat.eqb attempt max_attempts
             then await (process_song_verdicts_final_attempt review_results final_dir)
             else await (process_song_verdicts review_results final_dir));
          update_details (add_kept (kept_count verdict_result));;
          update_details (add_deleted (deleted_count verdict_result));;
          if Nat.ltb 0 (kept_count verdict_result) then
            update_attempt
              (set_final_action
                 ("success: " +:+ pretty (kept_count verdict_result) +:+ " songs kept"));;
            record_attempt;;
            f ← get_state;
            mret (Some (success_result attempt verdict_result (workflow_details f)))
          else
            update_attempt
              (set_final_action
                 ("all_songs_rejected: retrying_attempt_" +:+ pretty (attempt + 1)));;
            record_attempt;;
            mret None
      end
  end.

Definition new_attempt (attempt : nat) : attempt_record :=
  {| attempt_number := attempt; generation_success := false;
     downloads := []; reviews := []; final_action := None |}.

Definition critical_error (attempt : nat) (e : string) : string :=
  "Critical error on attempt " +:+ pretty attempt +:+ ": " +:+ e.

(** The [except Exception as e] block (lines 161-178). *)
Definition attempt_handler (attempt : nat) (e : string) : M (frame Ext) (option result) :=
  let error_msg := critical_error attempt e in
  update_attempt (set_final_action ("exception: " +:+ error_msg));;
  record_attempt;;
  if Nat.eqb attempt max_attempts then
    f ← get_state;
    mret (Some (fatal_result attempt error_msg (workflow_details f)))
  else mret None.

(** One iteration of the loop (lines 75-178). *)
Definition attempt_iteration (attempt : nat) : M (frame Ext) (option result) :=
  print (EvAttempt attempt);;
  update_attempt (fun _ => new_attempt attempt);;
  try_except (attempt_body attempt) (attempt_handler attempt).

(** [for attempt in range(1, max_attempts + 1)], left by [return]. *)
Fixpoint attempt_loop (attempts : list nat) : M (frame Ext) (option result) :=
  match attempts with
  | [] => mret None
  | attempt :: rest =>
      returned ← attempt_iteration attempt;
      match returned with
      | Some r => mret (Some r)
      | None => attempt_loop rest
      end
  end.

(** Lines 184-211: the fail-safe, after the loop ran out. *)
Definition failsafe_stage : M (frame Ext) result :=
  f ← get_state;
  match final_attempt_songs f with
  | _ :: _ =>
      print EvFailsafe;;
      failsafe_result ← await (handle_failsafe_songs (final_attempt_songs f) final_dir);
      let failsafe_songs_moved := moved_count failsafe_result in
      update_details (add_kept failsafe_songs_moved);;
      f' ← get_state;
      if Nat.ltb 0 failsafe_songs_moved
      then mret (failsafe_success_result failsafe_songs_moved (workflow_details f'))
      else mret (exhausted_result (workflow_details f'))
  | [] =>
      mret (exhausted_result (workflow_details f))
  end.

(** The frame on entry to the loop (lines 53-72).  [attempt_details] is
    assigned at the start of every iteration; until then the frame holds a
    blank record in its place. *)
Definition entry_frame (w : world Ext) : frame Ext :=
  {| world_of := w;
     workflow_details :=
       {| attempts := []; total_songs_generated := 0; total_songs_reviewed := 0;
          songs_kept := 0; songs_deleted := 0 |};
     final_attempt_songs := [];
     attempt_details := new_attempt 0;
     console := [] |}.

Definition execute_song_workflow (w : world Ext) : outcome result * frame Ext :=
  (await (os_call (os_makedirs temp_dir));;
   await (os_call (os_makedirs final_dir));;
   returned ← attempt_loop (seq 1 max_attempts);
   match returned with
   | Some r => mret r
   | None => failsafe_stage
   end) (entry_frame w).

(** *** Vocabulary for the properties of Part II *)

(** Both calls of [os.makedirs] (lines 57-58) return. *)
Definition directories_ready (w : world Ext) : Prop :=
  os_refuses temp_dir (fs w) = false /\ os_refuses final_dir (fs w) = false.

(** The router an attempt uses (lines 132-135). *)
Definition router_of (attempt : nat) : list Review.t -> string -> M (world Ext) verdict_result :=
  if Nat.eqb attempt max_attempts
  then process_song_verdicts_final_attempt
  else process_song_verdicts.

(** One of the five steps awaited in the [try] block of attempt [attempt],
    entered in world [w], raises [e] and leaves world [w']; the steps before
    it returned normally and did not end the attempt. *)
Definition step_raised (attempt : nat) (w : world Ext) (e : exn) (w' : world Ext) : Prop :=
  let generate := generate_songs book_name chapter verse_range style title in
  generate w = (Raised e, w')
  \/ (exists g w1,
        generate w = (Returned (GenerationSucceeded g), w1)
        /\ asyncio_sleep (3 * 60)%Z w1 = (Raised e, w'))
  \/ (exists g w1 w2,
        generate w = (Returned (GenerationSucceeded g), w1)
        /\ asyncio_sleep (3 * 60)%Z w1 = (Returned tt, w2)
        /\ download_both_songs title temp_dir w2 = (Raised e, w'))
  \/ (exists g w1 w2 songs msg w3,
        generate w = (Returned (GenerationSucceeded g), w1)
        /\ asyncio_sleep (3 * 60)%Z w1 = (Returned tt, w2)
        /\ download_both_songs title temp_dir w2
           = (Returned (DownloadSucceeded songs msg), w3)
        /\ review_all_songs songs song_structure_id w3 = (Raised e, w'))
  \/ (exists g w1 w2 songs msg w3 review_results w4,
        generate w = (Returned (GenerationSucceeded g), w1)
        /\ asyncio_sleep (3 * 60)%Z w1 = (Returned tt, w2)
        /\ download_both_songs title temp_dir w2
           = (Returned (DownloadSucceeded songs msg), w3)
        /\ review_all_songs songs song_structure_id w3 = (Returned review_results, w4)
        /\ router_of attempt review_results final_dir w4 = (Raised e, w')).

End Orchestrator.

(** ** [generate_songs] (lines 214-233) *)

Section Generation.

Context {Ext : Type}.

(** [song.utils.generate_song_handler] *)
Variable generate_song_handler :
  string -> Z -> string -> string -> string -> M (world Ext) generation_reply.

Definition generate_songs (book_name : string) (chapter : Z)
    (verse_range style title : string) : M (world Ext) generation_result :=
  try_except
    (result ← generate_song_handler book_name chapter verse_range style title;
     match result with
     | ReplyDict true => mret (GenerationSucceeded result)
     | _ => mret (GenerationFailed "Song generation returned invalid result")
     end)
    (fun e => mret (GenerationFailed ("Song generation failed: " +:+ e))).

End Generation.

(** ** [download_both_songs] (lines 236-299) *)

Section Retrieval.

Context {Ext : Type}.

(** [song.utils.download_song_handler(strTitle, intIndex, download_path)].
    A reply without the keys read below makes the subscript raise inside
    the [try]; that is the [Raised] outcome. *)
Variable download_song_handler : string -> Z -> string -> M (world Ext) fetch_reply.

Definition append_if_fetched (reply : fetch_reply) (index : Z) (title : string)
    (downloaded_songs : list Song.t) : list Song.t :=
  match reply with
  | FetchOk file_path =>
      downloaded_songs
        ++ [ {| Song.file_path := file_path; Song.index := index; Song.title := title |} ]
  | FetchFailed _ => downloaded_songs
  end.

Definition download_both_songs (title temp_dir : string) : M (world Ext) download_result :=
  try_except
    (let downloaded_songs := [] in
     download_1 ← download_song_handler title (-1)%Z temp_dir;
     let downloaded_songs := append_if_fetched download_1 (-1)%Z title downloaded_songs in
     download_2 ← download_song_handler title (-2)%Z temp_dir;
     let downloaded_songs := append_if_fetched download_2 (-2)%Z title downloaded_songs in
     if Nat.eqb (length downloaded_songs) 0 then
       mret (DownloadFailed "Failed to download any songs")
     else
       mret (DownloadSucceeded downloaded_songs
               ("Downloaded " +:+ pretty (length downloaded_songs) +:+ " of 2 songs")))
    (fun e => mret (DownloadFailed ("Download process failed: " +:+ e))).

End Retrieval.

(** ** [review_all_songs] (lines 302-336) *)

Section ReviewAll.

Context {Ext : Type}.

Variable call_review_api : string -> option Z -> M (world Ext) review_details.

Definition reviewed (song : Song.t) (review_result : review_details) : Review.t :=
  {| Review.file_path := Song.file_path song;
     Review.index := Song.index song;
     Review.title := Song.title song;
     Review.verdict := get_verdict review_result "error";
     Review.details := review_result |}.

Definition review_failed (e : string) (song : Song.t) : Review.t :=
  {| Review.file_path := Song.file_path song;
     Review.index := Song.index song;
     Review.title := Song.title song;
     Review.verdict := "error";
     Review.details := ReviewProcessFailure e |}.

(** The [for] loop of lines 310-323, appending to [review_results]. *)
Fixpoint review_loop (song_structure_id : option Z) (songs : list Song.t)
    (review_results : list Review.t) : M (world Ext) (list Review.t) :=
  match songs with
  | [] => mret review_results
  | song :: rest =>
      review_result ← call_review_api (Song.file_path song) song_structure_id;
      review_loop song_structure_id rest (review_results ++ [reviewed song review_result])
  end.

Definition review_all_songs (downloaded_songs : list Song.t)
    (song_structure_id : option Z) : M (world Ext) (list Review.t) :=
  try_except
    (review_loop song_structure_id downloaded_songs [])
    (fun e => mret (map (review_failed e) downloaded_songs)).

End ReviewAll.

(** The record that [review_all_songs] makes for [song]: built from what the
    review call returned, or the error record of the [except] branch. *)
Definition record_of (song : Song.t) (r : Review.t) : Prop :=
  (exists review_result, r = reviewed song review_result)
  \/ (exists e, r = review_failed e song).

(** ** [call_review_api] (lines 339-378) *)

(** Modelled from the spec: [SongReviewRequest] and the response of
    [review_song_endpoint] are declared in [ai_review.routes], which is not
    part of this module. *)
Record SongReviewRequest : Type := {
  audio_file_path : string;
  request_structure_id : Z
}.

Record SongReviewResponse : Type := {
  response_success : bool;
  response_verdict : string;
  response_first : string;
  response_second : string;
  response_error : string;
  response_audio_file : string
}.

Section ReviewApi.

Context {Ext : Type}.

(** [ai_review.routes.review_song_endpoint] *)
Variable review_song_endpoint : SongReviewRequest -> M (world Ext) SongReviewResponse.

(** [song_structure_id or 0] *)
Definition or_zero (song_structure_id : option Z) : Z :=
  match song_structure_id with
  | Some z => if Z.eqb z 0 then 0%Z else z
  | None => 0%Z
  end.

Definition call_review_api (file_path : string) (song_structure_id : option Z)
    : M (world Ext) review_details :=
  try_except
    (let review_request :=
       {| audio_file_path := file_path;
          request_structure_id := or_zero song_structure_id |} in
     review_response ← review_song_endpoint review_request;
     mret (ReviewResponse
             (response_success review_response)
             (response_verdict review_response)
             (response_first review_response)
             (response_second review_response)
             (response_error review_response)
             (response_audio_file review_response)))
    (fun e => mret (ReviewApiFailure ("AI review API call failed: " +:+ e))).

End ReviewApi.

(** ** The verdict router (lines 381-486) *)

(** The counters of a routing loop. *)
Record counters : Type := { kept : nat; deleted : nat; preserved : nat }.

Definition incr_kept (c : counters) : counters :=
  {| kept := kept c + 1; deleted := deleted c; preserved := preserved c |}.
Definition incr_deleted (c : counters) : counters :=
  {| kept := kept c; deleted := deleted c + 1; preserved := preserved c |}.
Definition incr_preserved (c : counters) : counters :=
  {| kept := kept c; deleted := deleted c; preserved := preserved c + 1 |}.

Definition no_counts : counters := {| kept := 0; deleted := 0; preserved := 0 |}.

(** Where a kept artifact goes (lines 393-394). *)
Definition final_path_of (final_dir file_path : string) : string :=
  let filename := OsPath.basename file_path in
  OsPath.join final_dir filename.

(** The body of the loop of [process_song_verdicts] (lines 387-418): the
    [try] statement, whose [except] branch only prints. *)
Definition process_verdict (final_dir : string) (st : counters * filesystem)
    (result : Review.t) : counters * filesystem :=
  let '(c, fs) := st in
  let file_path := Review.file_path result in
  let verdict := Review.verdict result in
  if String.eqb verdict "continue" then
    let final_path := final_path_of final_dir file_path in
    if os_path_exists file_path fs then
      match shutil_move file_path final_path fs with
      | (Done, fs') => (incr_kept c, fs')
      | (OSError _, fs') => (c, fs')
      end
    else (c, fs)
  else if String.eqb verdict "re-roll" then
    if os_path_exists file_path fs then
      match os_remove file_path fs with
      | (Done, fs') => (incr_deleted c, fs')
      | (OSError _, fs') => (c, fs')
      end
    else (c, fs)
  else (c, fs).

Definition process_song_verdicts (review_results : list Review.t) (final_dir : string)
    (fs : filesystem) : verdict_result * filesystem :=
  let '(c, fs') := fold_left (process_verdict final_dir) review_results (no_counts, fs) in
  ({| kept_count := kept c; deleted_count := deleted c; preserved_count := None |}, fs').

(** The body of the loop of [process_song_verdicts_final_attempt]
    (lines 447-478). *)
Definition process_verdict_final_attempt (final_dir : string)
    (st : counters * filesystem) (result : Review.t) : counters * filesystem :=
  let '(c, fs) := st in
  let file_path := Review.file_path result in
  let verdict := Review.verdict result in
  if String.eqb verdict "continue" then
    let final_path := final_path_of final_dir file_path in
    if os_path_exists file_path fs then
      match shutil_move file_path final_path fs with
      | (Done, fs') => (incr_kept c, fs')
      | (OSError _, fs') => (c, fs')
      end
    else (c, fs)
  else if String.eqb verdict "re-roll" then
    if os_path_exists file_path fs then (incr_preserved c, fs)
    else (c, fs)
  else (incr_preserved c, fs).

Definition process_song_verdicts_final_attempt (review_results : list Review.t)
    (final_dir : string) (fs : filesystem) : verdict_result * filesystem :=
  let '(c, fs') :=
    fold_left (process_verdict_final_attempt final_dir) review_results (no_counts, fs) in
  ({| kept_count := kept c; deleted_count := deleted c;
      preserved_count := Some (preserved c) |}, fs').

(** ** [handle_failsafe_songs] (lines 509-558) *)

Definition failsafe_marker : string := "_FAILSAFE".

(** Lines 535-538. *)
Definition failsafe_path_of (final_dir file_path : string) : string :=
  let original_filename := OsPath.basename file_path in
  let '(name_part, ext) := OsPath.splitext original_filename in
  let failsafe_filename := name_part +:+ failsafe_marker +:+ ext in
  OsPath.join final_dir failsafe_filename.

Definition incr_moved (r : failsafe_result) : failsafe_result :=
  {| moved_count := moved_count r + 1; error_count := error_count r |}.
Definition incr_error (r : failsafe_result) : failsafe_result :=
  {| moved_count := moved_count r; error_count := error_count r + 1 |}.

(** The body of the loop (lines 530-551). *)
Definition failsafe_song (final_dir : string) (st : failsafe_result * filesystem)
    (song : Song.t) : failsafe_result * filesystem :=
  let '(c, fs) := st in
  let file_path := Song.file_path song in
  if os_path_exists file_path fs then
    let final_path := failsafe_path_of final_dir file_path in
    match shutil_move file_path final_path fs with
    | (Done, fs') => (incr_moved c, fs')
    | (OSError _, fs') => (incr_error c, fs')
    end
  else (incr_error c, fs).

Definition handle_failsafe_songs (final_attempt_songs : list Song.t) (final_dir : string)
    (fs : filesystem) : failsafe_result * filesystem :=
  fold_left (failsafe_song final_dir) final_attempt_songs
    ({| moved_count := 0; error_count := 0 |}, fs).

(** ** The whole program: the workflow over its own routines *)

Section Program.

Context {Ext : Type}.

Variable generate_song_handler :
  string -> Z -> string -> string -> string -> M (world Ext) generation_reply.
Variable asyncio_sleep : Z -> M (world Ext) unit.
Variable download_song_handler : string -> Z -> string -> M (world Ext) fetch_reply.
Variable review_song_endpoint : SongReviewRequest -> M (world Ext) SongReviewResponse.

Definition workflow (book_name : string) (chapter : Z)
    (verse_range style title : string) (song_structure_id : option Z)
    : world Ext -> outcome result * frame Ext :=
  execute_song_workflow
    (generate_songs generate_song_handler)
    asyncio_sleep
    (download_both_songs download_song_handler)
    (review_all_songs (call_review_api review_song_endpoint))
    (fun review_results final_dir =>
       on_fs (process_song_verdicts review_results final_dir))
    (fun review_results final_dir =>
       on_fs (process_song_verdicts_final_attempt review_results final_dir))
    (fun songs final_dir => on_fs (handle_failsafe_songs songs final_dir))
    book_name chapter verse_range style title song_structure_id.

End Program.

(** ** Sample data for the examples of Part II *)

Module Sample.

Definition song_a : Song.t :=
  {| Song.file_path := "backend/songs/temp/psalm_a.mp3";
     Song.index := (-1)%Z; Song.title := "Psalm 23" |}.

Definition song_b : Song.t :=
  {| Song.file_path := "backend/songs/temp/psalm_b.mp3";
     Song.index := (-2)%Z; Song.title := "Psalm 23" |}.

(** Both songs staged, in a file system that refuses nothing. *)
Definition staged : filesystem :=
  {| files := <["backend/songs/temp/psalm_a.mp3" := "audio a"]>
                (<["backend/songs/temp/psalm_b.mp3" := "audio b"]> ∅);
     refused := ∅ |}.

(** The same files, in a file system that refuses to write at [paths]. *)
Definition staged_refusing (paths : list string) : filesystem :=
  {| files := files staged; refused := list_to_set paths |}.

(** One song staged in each of two directories, under the same file name. *)
Definition song_a1 : Song.t :=
  {| Song.file_path := "backend/songs/temp/a/psalm.mp3";
     Song.index := (-1)%Z; Song.title := "Psalm 23" |}.

Definition song_b1 : Song.t :=
  {| Song.file_path := "backend/songs/temp/b/psalm.mp3";
     Song.index := (-2)%Z; Song.title := "Psalm 23" |}.

Definition staged_twice : filesystem :=
  {| files := <["backend/songs/temp/a/psalm.mp3" := "audio a"]>
                (<["backend/songs/temp/b/psalm.mp3" := "audio b"]> ∅);
     refused := ∅ |}.

Definition review_of (song : Song.t) (verdict : string) : Review.t :=
  {| Review.file_path := Song.file_path song;
     Review.index := Song.index song;
     Review.title := Song.title song;
     Review.verdict := verdict;
     Review.details := ReviewResponse true verdict "first pass" "second pass" "none" (Song.file_path song) |}.

(** The external services of the examples keep a log of the positions
    that were fetched. *)
Definition services : Type := list Z.

Definition empty_world : world services :=
  {| ext := []; fs := {| files := ∅; refused := ∅ |} |}.

(** No file yet, and a file system that refuses to write at [paths]. *)
Definition world_refusing (paths : list string) : world services :=
  {| ext := []; fs := {| files := ∅; refused := list_to_set paths |} |}.

Definition generate_handler_ok
    : string -> Z -> string -> string -> string -> M (world services) generation_reply :=
  fun _ _ _ _ _ w => (Returned (ReplyDict true), w).

Definition generate_handler_invalid
    : string -> Z -> string -> string -> string -> M (world services) generation_reply :=
  fun _ _ _ _ _ w => (Returned ReplyOther, w).

Definition sleep_ok : Z -> M (world services) unit :=
  fun _ w => (Returned tt, w).

(** A wait that fails with an [Exception]. *)
Definition sleep_fails : Z -> M (world services) unit :=
  fun _ w => (Raised (Exception "timer failure"), w).

(** A wait during which the task is cancelled. *)
Definition sleep_cancelled : Z -> M (world services) unit :=
  fun _ w => (Raised (BaseException "CancelledError"), w).

Definition staged_path (index : Z) : string :=
  if Z.eqb index (-1) then Song.file_path song_a else Song.file_path song_b.

(** A fetch that stages the requested song. *)
Definition fetch (index : Z) (w : world services) : world services :=
  {| ext := ext w ++ [index];
     fs := {| files := <[staged_path index :=
                          if Z.eqb index (-1) then "audio a" else "audio b"]>
                         (files (fs w));
              refused := refused (fs w) |} |}.

Definition download_handler : string -> Z -> string -> M (world services) fetch_reply :=
  fun _ index _ w => (Returned (FetchOk (staged_path index)), fetch index w).


(** The first request already fails with an exception. *)
Definition first_fetch_raises : string -> Z -> string -> M (world services) fetch_reply :=
  fun _ index _ w =>
    if Z.eqb index (-1)
    then (Raised (Exception "connection reset"), {| ext := ext w ++ [index]; fs := fs w |})
    else (Returned (FetchOk (staged_path index)), fetch index w).


(** A reviewer that gives every song the same verdict. *)
Definition review_endpoint (verdict : string)
    : SongReviewRequest -> M (world services) SongReviewResponse :=
  fun request w =>
    (Returned {| response_success := true;
                 response_verdict := verdict;
                 response_first := "first pass";
                 response_second := "second pass";
                 response_error := "none";
                 response_audio_file := audio_file_path request |}, w).

(** A reviewer that cannot be reached. *)
Definition review_endpoint_down
    : SongReviewRequest -> M (world services) SongReviewResponse :=
  fun _ w => (Raised (Exception "connection refused"), w).

(** A reviewer that rejects every song of the first two attempts; during
    the third attempt (six songs have been fetched by then) the task is
    cancelled while the reply is awaited. *)
Definition review_endpoint_cancelled_late
    : SongReviewRequest -> M (world services) SongReviewResponse :=
  fun request w =>
    if Nat.leb 6 (length (ext w))
    then (Raised (BaseException "CancelledError"), w)
    else review_endpoint "re-roll" request w.

(** A reviewer that approves the first song and rejects every other one. *)
Definition review_endpoint_mixed
    : SongReviewRequest -> M (world services) SongReviewResponse :=
  fun request w =>
    review_endpoint
      (if String.eqb (audio_file_path request) (Song.file_path song_a)
       then "continue" else "re-roll")
      request w.


(** The whole program with a reviewer that answers [verdict]. *)
Definition run_workflow
    (generate_song_handler :
       string -> Z -> string -> string -> string -> M (world services) generation_reply)
    (verdict : string) : world services -> outcome result * frame services :=
  workflow generate_song_handler sleep_ok download_handler (review_endpoint verdict)
    "Psalms" 23%Z "1-6" "hymn" "Psalm 23" None.

(** The whole program with the given wait and reviewer. *)
Definition run_program
    (asyncio_sleep : Z -> M (world services) unit)
    (review_song_endpoint : SongReviewRequest -> M (world services) SongReviewResponse)
    : world services -> outcome result * frame services :=
  workflow generate_handler_ok asyncio_sleep download_handler review_song_endpoint
    "Psalms" 23%Z "1-6" "hymn" "Psalm 23" None.

End Sample.

(* ===================================================================== *)
(** * Part II.  Properties                                                *)
(* ===================================================================== *)

(** ** Paths *)

Module OsPathFacts.

Import OsPath.
Local Open Scope Z_scope.

(** The transcriptions agree with CPython on sample paths. *)
Example basename_samples :
  basename "backend/songs/temp/psalm.mp3" = "psalm.mp3"
  /\ basename "psalm.mp3" = "psalm.mp3"
  /\ basename "backend/songs/temp/" = EmptyString.
Proof. repeat split; reflexivity. Qed.

Example join_samples :
  join "backend/songs/final_review" "psalm.mp3" = "backend/songs/final_review/psalm.mp3"
  /\ join "backend/" "psalm.mp3" = "backend/psalm.mp3"
  /\ join EmptyString "psalm.mp3" = "psalm.mp3"
  /\ join "backend" "/psalm.mp3" = "/psalm.mp3".
Proof. repeat split; reflexivity. Qed.

Example splitext_samples :
  splitext "psalm.v2.mp3" = ("psalm.v2", ".mp3")
  /\ splitext "psalm" = ("psalm", EmptyString)
  /\ splitext ".hidden" = (".hidden", EmptyString)
  /\ splitext "..draft.mp3" = ("..draft", ".mp3")
  /\ splitext "psalm." = ("psalm", ".").
Proof. repeat split; reflexivity. Qed.

Lemma rfind_lower c p : -1 <= rfind c p.
Proof.
  induction p as [|a r IH]; simpl; [lia|].
  destruct (Z.leb_spec 0 (rfind c r)); [lia|].
  destruct (Ascii.eqb a c); lia.
Qed.

Lemma sep_free_cons a r :
  sep_free (String a r) <-> a <> sep /\ sep_free r.
Proof.
  unfold sep_free; simpl.
  pose proof (rfind_lower sep r) as Hlow.
  destruct (Z.leb_spec 0 (rfind sep r)) as [Hge|Hlt].
  - split; [lia | intros [_ ?]; lia].
  - destruct (Ascii.eqb_spec a sep) as [->|Hne].
    + split; [lia | intros [? _]; congruence].
    + split; [intros _; split; [assumption | lia] | reflexivity].
Qed.

Lemma sep_free_empty : sep_free EmptyString.
Proof. reflexivity. Qed.

Lemma append_cons c (a b : string) : String c a +:+ b = String c (a +:+ b).
Proof. reflexivity. Qed.

Lemma append_nil (b : string) : EmptyString +:+ b = b.
Proof. reflexivity. Qed.

Lemma sep_free_app a b : sep_free (a +:+ b) <-> sep_free a /\ sep_free b.
Proof.
  induction a as [|c a IH].
  - rewrite append_nil.
    split; [intros ?; split; [apply sep_free_empty | assumption] | tauto].
  - rewrite append_cons, !sep_free_cons, IH. tauto.
Qed.

Lemma sep_free_slice_from n p : sep_free p -> sep_free (slice_from n p).
Proof.
  revert p; induction n as [|n IH]; intros [|a r] H; simpl; try assumption.
  apply IH. apply sep_free_cons in H. tauto.
Qed.

Lemma sep_free_slice_to n p : sep_free p -> sep_free (slice_to n p).
Proof.
  revert p; induction n as [|n IH]; intros [|a r] H; simpl;
    try apply sep_free_empty.
  apply sep_free_cons in H as [Ha Hr].
  apply sep_free_cons. split; [assumption | apply IH, Hr].
Qed.

Lemma slice_to_from n p : slice_to n p +:+ slice_from n p = p.
Proof.
  revert p; induction n as [|n IH]; intros [|a r]; try reflexivity.
  cbn [slice_to slice_from]. now rewrite append_cons, IH.
Qed.

(** The base name of a path has no separator. *)
Lemma basename_sep_free p : sep_free (basename p).
Proof.
  unfold basename, sep_free.
  induction p as [|a r IH]; simpl; [reflexivity|].
  pose proof (rfind_lower sep r) as Hlow.
  destruct (Z.leb_spec 0 (rfind sep r)) as [Hge|Hlt].
  - replace (Z.to_nat (rfind sep r + 1 + 1)) with (S (Z.to_nat (rfind sep r + 1)))
      by lia.
    exact IH.
  - assert (rfind sep r = -1) as Hr by lia.
    destruct (Ascii.eqb_spec a sep) as [->|Hne]; simpl.
    + exact Hr.
    + rewrite Hr. simpl. destruct (Ascii.eqb_spec a sep); [congruence | reflexivity].
Qed.

Lemma basename_of_sep_free x : sep_free x -> basename x = x.
Proof. unfold basename, sep_free. intros ->. reflexivity. Qed.

Lemma rfind_after_sep a x :
  sep_free x -> rfind sep (a +:+ String sep x) = Z.of_nat (String.length a).
Proof.
  intros Hx. induction a as [|c a IH].
  - rewrite append_nil. simpl. unfold sep_free in Hx. rewrite Hx. reflexivity.
  - rewrite append_cons. cbn [rfind String.length]. rewrite IH.
    destruct (Z.leb_spec 0 (Z.of_nat (String.length a))); lia.
Qed.

Lemma slice_from_after a x :
  slice_from (S (String.length a)) (a +:+ String sep x) = x.
Proof. induction a as [|c a IH]; [reflexivity | exact IH]. Qed.

Lemma basename_after_sep a x : sep_free x -> basename (a +:+ String sep x) = x.
Proof.
  intros Hx. unfold basename. rewrite rfind_after_sep by assumption.
  replace (Z.to_nat (Z.of_nat (String.length a) + 1)) with (S (String.length a))
    by lia.
  apply slice_from_after.
Qed.

Lemma endswith_sep_split d :
  endswith_sep d = true -> exists a, d = a +:+ String sep EmptyString.
Proof.
  induction d as [|c d IH]; simpl; [discriminate|].
  destruct d as [|c' d'].
  - intros H. apply Ascii.eqb_eq in H as ->. now exists EmptyString.
  - intros H. destruct (IH H) as [a Ha]. exists (String c a).
    now rewrite append_cons, <- Ha.
Qed.

Lemma append_assoc (a b c : string) : (a +:+ b) +:+ c = a +:+ (b +:+ c).
Proof.
  induction a as [|h a IH]; [reflexivity|].
  now rewrite !append_cons, IH.
Qed.

Lemma startswith_sep_free x : sep_free x -> startswith_sep x = false.
Proof.
  destruct x as [|a r]; [reflexivity|].
  intros H. apply sep_free_cons in H as [Ha _]. simpl.
  destruct (Ascii.eqb_spec a sep); [contradiction | reflexivity].
Qed.

(** Joining a directory and a file name, then taking the base name, gives
    the file name back. *)
Lemma basename_join d x : sep_free x -> basename (join d x) = x.
Proof.
  intros Hx. unfold join. rewrite (startswith_sep_free x Hx).
  destruct d as [|c d]; [now apply basename_of_sep_free|].
  cbn [is_empty orb].
  destruct (endswith_sep (String c d)) eqn:Hend.
  - apply endswith_sep_split in Hend as [a ->].
    rewrite append_assoc. now apply basename_after_sep.
  - now apply basename_after_sep.
Qed.

Lemma in_dir_join d x : sep_free x -> in_dir d (join d x).
Proof. intros Hx. unfold in_dir. now rewrite basename_join. Qed.

Lemma splitext_app p name ext : splitext p = (name, ext) -> name +:+ ext = p.
Proof.
  unfold splitext.
  destruct (_ && _); intros [= <- <-].
  - apply slice_to_from.
  - clear. induction p as [|a r IH]; [reflexivity | now rewrite append_cons, IH].
Qed.

Lemma splitext_sep_free p name ext :
  sep_free p -> splitext p = (name, ext) -> sep_free name /\ sep_free ext.
Proof.
  intros Hp Hsplit. apply splitext_app in Hsplit. subst p.
  now apply sep_free_app.
Qed.

End OsPathFacts.

(** An artifact staged in the download directory does not name an entry of
    final storage. *)
Lemma staging_path_not_final p :
  OsPath.in_dir temp_dir p -> ~ OsPath.in_dir final_dir p.
Proof.
  unfold OsPath.in_dir, OsPath.join.
  rewrite (OsPathFacts.startswith_sep_free _ (OsPathFacts.basename_sep_free p)).
  cbn [temp_dir final_dir verify_final_destination_folder
       OsPath.is_empty OsPath.endswith_sep orb Ascii.eqb Bool.eqb OsPath.sep].
  intros Hstaged Hfinal. rewrite <- Hstaged in Hfinal at 2.
  cbv [String.append] in Hfinal. discriminate Hfinal.
Qed.

(** ** The file system *)

Lemma os_path_exists_Some p (fs : filesystem) content :
  files fs !! p = Some content -> os_path_exists p fs = true.
Proof. intros H. unfold os_path_exists. apply bool_decide_eq_true_2. eauto. Qed.

Lemma os_path_exists_None p (fs : filesystem) :
  files fs !! p = None -> os_path_exists p fs = false.
Proof.
  intros H. unfold os_path_exists. apply bool_decide_eq_false_2.
  rewrite H. intros [? ?]; discriminate.
Qed.

Lemma os_path_exists_true p (fs : filesystem) :
  os_path_exists p fs = true -> exists content, files fs !! p = Some content.
Proof. unfold os_path_exists. intros H. apply bool_decide_eq_true_1 in H. exact H. Qed.


(** [shutil.move] of an existing file returns when the operating system
    refuses neither end of the move, and raises otherwise. *)
Lemma shutil_move_done src dst (fs : filesystem) content :
  files fs !! src = Some content ->
  os_refuses src fs = false -> os_refuses dst fs = false ->
  shutil_move src dst fs = (Done, renamed src dst content fs).
Proof. intros H Hs Hd. unfold shutil_move. now rewrite H, Hs, Hd. Qed.

Lemma shutil_move_refused src dst (fs : filesystem) content :
  files fs !! src = Some content ->
  os_refuses src fs || os_refuses dst fs = true ->
  exists message, shutil_move src dst fs = (OSError message, fs).
Proof. intros H Hr. unfold shutil_move. rewrite H, Hr. eauto. Qed.


Lemma os_remove_done p (fs : filesystem) content :
  files fs !! p = Some content -> os_refuses p fs = false ->
  os_remove p fs = (Done, unlinked p fs).
Proof. intros H Hr. unfold os_remove. now rewrite H, Hr. Qed.

Lemma os_remove_refused p (fs : filesystem) content :
  files fs !! p = Some content -> os_refuses p fs = true ->
  exists message, os_remove p fs = (OSError message, fs).
Proof. intros H Hr. unfold os_remove. rewrite H, Hr. eauto. Qed.

Lemma os_remove_cases p (fs : filesystem) :
  (is_Some (files fs !! p) /\ os_refuses p fs = false
   /\ os_remove p fs = (Done, unlinked p fs))
  \/ (exists message, os_remove p fs = (OSError message, fs)).
Proof.
  unfold os_remove. destruct (files fs !! p) as [content|]; [|right; eauto].
  destruct (os_refuses p fs); [right; eauto|]. left. eauto.
Qed.

Lemma fold_left_snoc {A B} (f : A -> B -> A) (l : list B) (x : B) (a : A) :
  fold_left f (l ++ [x]) a = f (fold_left f l a) x.
Proof. now rewrite fold_left_app. Qed.

(** ** The verdict router, normal mode *)

Section NormalMode.

Variable final_dir : string.

Lemma process_verdict_continue c (fs : filesystem) r content :
  Review.verdict r = "continue" ->
  files fs !! Review.file_path r = Some content ->
  os_refuses (Review.file_path r) fs = false ->
  os_refuses (final_path_of final_dir (Review.file_path r)) fs = false ->
  process_verdict final_dir (c, fs) r
  = (incr_kept c,
     renamed (Review.file_path r) (final_path_of final_dir (Review.file_path r)) content fs).
Proof.
  intros Hv Hex Hs Hd. unfold process_verdict. rewrite Hv.
  cbn [String.eqb Ascii.eqb Bool.eqb].
  rewrite (os_path_exists_Some _ _ _ Hex).
  now rewrite (shutil_move_done _ _ _ _ Hex Hs Hd).
Qed.

Lemma process_verdict_continue_refused c (fs : filesystem) r content :
  Review.verdict r = "continue" ->
  files fs !! Review.file_path r = Some content ->
  os_refuses (Review.file_path r) fs
  || os_refuses (final_path_of final_dir (Review.file_path r)) fs = true ->
  process_verdict final_dir (c, fs) r = (c, fs).
Proof.
  intros Hv Hex Hr. unfold process_verdict. rewrite Hv.
  cbn [String.eqb Ascii.eqb Bool.eqb].
  rewrite (os_path_exists_Some _ _ _ Hex).
  destruct (shutil_move_refused _ _ _ _ Hex Hr) as [message ->]. reflexivity.
Qed.

Lemma process_verdict_reroll c (fs : filesystem) r content :
  Review.verdict r = "re-roll" ->
  files fs !! Review.file_path r = Some content ->
  os_refuses (Review.file_path r) fs = false ->
  process_verdict final_dir (c, fs) r = (incr_deleted c, unlinked (Review.file_path r) fs).
Proof.
  intros Hv Hex Hr. unfold process_verdict. rewrite Hv.
  cbn [String.eqb Ascii.eqb Bool.eqb].
  rewrite (os_path_exists_Some _ _ _ Hex).
  now rewrite (os_remove_done _ _ _ Hex Hr).
Qed.

Lemma process_verdict_reroll_refused c (fs : filesystem) r content :
  Review.verdict r = "re-roll" ->
  files fs !! Review.file_path r = Some content ->
  os_refuses (Review.file_path r) fs = true ->
  process_verdict final_dir (c, fs) r = (c, fs).
Proof.
  intros Hv Hex Hr. unfold process_verdict. rewrite Hv.
  cbn [String.eqb Ascii.eqb Bool.eqb].
  rewrite (os_path_exists_Some _ _ _ Hex).
  destruct (os_remove_refused _ _ _ Hex Hr) as [message ->]. reflexivity.
Qed.

Lemma process_verdict_other c (fs : filesystem) r :
  Review.verdict r <> "continue" ->
  Review.verdict r <> "re-roll" ->
  process_verdict final_dir (c, fs) r = (c, fs).
Proof.
  intros H1 H2. unfold process_verdict.
  destruct (String.eqb_spec (Review.verdict r) "continue"); [contradiction|].
  destruct (String.eqb_spec (Review.verdict r) "re-roll"); [contradiction|].
  reflexivity.
Qed.

Lemma process_verdict_missing c (fs : filesystem) r :
  files fs !! Review.file_path r = None ->
  process_verdict final_dir (c, fs) r = (c, fs).
Proof.
  intros Hno. unfold process_verdict.
  rewrite (os_path_exists_None _ _ Hno).
  destruct (String.eqb _ "continue"); [reflexivity|].
  destruct (String.eqb _ "re-roll"); reflexivity.
Qed.

(** The routine on a batch with one more artifact at its end: what it
    returned on the batch, and then one more turn of the loop. *)
Lemma process_song_verdicts_snoc pre r (fs0 : filesystem) c fs c' fs' :
  fold_left (process_verdict final_dir) pre (no_counts, fs0) = (c, fs) ->
  process_verdict final_dir (c, fs) r = (c', fs') ->
  process_song_verdicts pre final_dir fs0
  = ({| kept_count := kept c; deleted_count := deleted c; preserved_count := None |}, fs)
  /\ process_song_verdicts (pre ++ [r]) final_dir fs0
     = ({| kept_count := kept c'; deleted_count := deleted c'; preserved_count := None |},
        fs').
Proof.
  intros Hpre Hstep. unfold process_song_verdicts.
  now rewrite fold_left_snoc, Hpre, Hstep.
Qed.

(** C4, as the code has it.  Normal-mode routing, artifact by artifact.
    Compare what [process_song_verdicts] returns on a batch [pre] with what
    it returns on the batch followed by one more artifact [r]; [fs] is the
    file system in which the loop reaches [r].
    - Verdict "continue", file present in staging.  If the move is carried
      out, the file is then in final storage, no longer in staging, and the
      kept-count is one higher.  If [shutil.move] raises, the exception is
      absorbed: the file system and both counters are as they were, so the
      file is still in staging.
    - Verdict "re-roll", file present.  If the removal is carried out, the
      file is gone and nothing else is touched, so it is in neither place,
      and the deleted-count is one higher.  If [os.remove] raises, nothing
      changes.
    - Any other verdict ("error" among them): nothing changes.
    - File absent: the artifact is skipped, nothing changes.
    - On the empty batch the routine returns two zero counters.
    Every [OSError] of the two file operations is absorbed, so the routine
    returns in each of these cases. *)
Theorem process_song_verdicts_routes_each_artifact
    (pre : list Review.t) (r : Review.t) (fs0 : filesystem) :
  let before := process_song_verdicts pre final_dir fs0 in
  let after := process_song_verdicts (pre ++ [r]) final_dir fs0 in
  let fs := before.2 in
  let fs' := after.2 in
  let file_path := Review.file_path r in
  let final_path := final_path_of final_dir file_path in
  let unchanged :=
    fs' = fs
    /\ kept_count after.1 = kept_count before.1
    /\ deleted_count after.1 = deleted_count before.1 in
  (Review.verdict r = "continue" ->
   forall content, files fs !! file_path = Some content ->
   (os_refuses file_path fs = false -> os_refuses final_path fs = false ->
    fs' = renamed file_path final_path content fs
    /\ files fs' !! final_path = Some content
    /\ (~ OsPath.in_dir final_dir file_path -> files fs' !! file_path = None)
    /\ kept_count after.1 = kept_count before.1 + 1
    /\ deleted_count after.1 = deleted_count before.1)
   /\ (os_refuses file_path fs || os_refuses final_path fs = true ->
       unchanged /\ files fs' !! file_path = Some content))
  /\ (Review.verdict r = "re-roll" ->
      forall content, files fs !! file_path = Some content ->
      (os_refuses file_path fs = false ->
       fs' = unlinked file_path fs
       /\ files fs' !! file_path = None
       /\ (files fs !! final_path = None -> files fs' !! final_path = None)
       /\ deleted_count after.1 = deleted_count before.1 + 1
       /\ kept_count after.1 = kept_count before.1)
      /\ (os_refuses file_path fs = true ->
          unchanged /\ files fs' !! file_path = Some content))
  /\ (Review.verdict r <> "continue" -> Review.verdict r <> "re-roll" -> unchanged)
  /\ (files fs !! file_path = None -> unchanged)
  /\ process_song_verdicts [] final_dir fs0
     = ({| kept_count := 0; deleted_count := 0; preserved_count := None |}, fs0).
Proof.
  destruct (fold_left (process_verdict final_dir) pre (no_counts, fs0)) as [c fs1] eqn:Hpre.
  destruct (process_verdict final_dir (c, fs1) r) as [c' fs2] eqn:Hstep.
  destruct (process_song_verdicts_snoc pre r fs0 c fs1 c' fs2 Hpre Hstep) as [-> ->].
  cbn [fst snd kept_count deleted_count].
  split; [|split; [|split; [|split]]].
  - intros Hv content Hex. split.
    + intros Hs Hd.
      rewrite (process_verdict_continue c fs1 r content Hv Hex Hs Hd) in Hstep.
      injection Hstep as <- <-. cbn.
      split; [reflexivity|]. split; [apply lookup_insert_eq|].
      split; [|now split].
      intros Hstaged. rewrite lookup_insert_ne; [apply lookup_delete_eq|].
      intros Heq. apply Hstaged. exact Heq.
    + intros Hr.
      rewrite (process_verdict_continue_refused c fs1 r content Hv Hex Hr) in Hstep.
      injection Hstep as <- <-. auto.
  - intros Hv content Hex. split.
    + intros Hr.
      rewrite (process_verdict_reroll c fs1 r content Hv Hex Hr) in Hstep.
      injection Hstep as <- <-. cbn.
      split; [reflexivity|]. split; [apply lookup_delete_eq|].
      split; [|now split].
      intros Hnone. rewrite lookup_delete.
      destruct (decide _); [reflexivity | exact Hnone].
    + intros Hr.
      rewrite (process_verdict_reroll_refused c fs1 r content Hv Hex Hr) in Hstep.
      injection Hstep as <- <-. auto.
  - intros Hv1 Hv2.
    rewrite (process_verdict_other c fs1 r Hv1 Hv2) in Hstep.
    now injection Hstep as <- <-.
  - intros Hno.
    rewrite (process_verdict_missing c fs1 r Hno) in Hstep.
    now injection Hstep as <- <-.
  - reflexivity.
Qed.

End NormalMode.

(** The normal-mode router on an approved, a rejected, an unreviewable and
    a vanished artifact, and on an approved artifact that cannot be moved. *)
Lemma process_song_verdicts_routes_each_artifact_witness :
  let final_dir := verify_final_destination_folder in
  let a := Song.file_path Sample.song_a in
  let b := Song.file_path Sample.song_b in
  let approved := process_song_verdicts [Sample.review_of Sample.song_a "continue"] in
  (* continue *)
  (files (approved final_dir Sample.staged).2 !! final_path_of final_dir a = Some "audio a"
   /\ files (approved final_dir Sample.staged).2 !! a = None
   /\ kept_count (approved final_dir Sample.staged).1 = 1)
  (* continue, but the move is refused *)
  /\ (files (approved final_dir
               (Sample.staged_refusing ["backend/songs/final_review/psalm_a.mp3"])).2 !! a
      = Some "audio a"
      /\ kept_count
           (approved final_dir
              (Sample.staged_refusing ["backend/songs/final_review/psalm_a.mp3"])).1 = 0)
  (* re-roll *)
  /\ files (process_song_verdicts [Sample.review_of Sample.song_b "re-roll"] final_dir
              Sample.staged).2 !! b = None
  (* error *)
  /\ (process_song_verdicts [Sample.review_of Sample.song_a "error"] final_dir
        Sample.staged).2 = Sample.staged.
Proof.
  intros final_dir a b approved.
  assert (Hex : files Sample.staged !! a = Some "audio a") by (vm_compute; reflexivity).
  assert (Hexb : files Sample.staged !! b = Some "audio b") by (vm_compute; reflexivity).
  assert (Hstaged : ~ OsPath.in_dir final_dir a)
    by (intros Hin; vm_compute in Hin; discriminate Hin).
  split; [|split; [|split]].
  - destruct (process_song_verdicts_routes_each_artifact final_dir []
                (Sample.review_of Sample.song_a "continue") Sample.staged) as [H _].
    destruct (H eq_refl "audio a" Hex) as [Hdone _].
    destruct (Hdone eq_refl eq_refl) as (_ & H1 & H2 & H3 & _).
    split; [exact H1|]. split; [exact (H2 Hstaged) | exact H3].
  - destruct (process_song_verdicts_routes_each_artifact final_dir []
                (Sample.review_of Sample.song_a "continue")
                (Sample.staged_refusing ["backend/songs/final_review/psalm_a.mp3"]))
      as [H _].
    destruct (H eq_refl "audio a" Hex) as [_ Hrefused].
    destruct (Hrefused eq_refl) as ((_ & Hk & _) & Hstill).
    split; [exact Hstill | exact Hk].
  - destruct (process_song_verdicts_routes_each_artifact final_dir []
                (Sample.review_of Sample.song_b "re-roll") Sample.staged) as (_ & H & _).
    destruct (H eq_refl "audio b" Hexb) as [Hdone _].
    destruct (Hdone eq_refl) as (_ & H1 & _). exact H1.
  - destruct (process_song_verdicts_routes_each_artifact final_dir []
                (Sample.review_of Sample.song_a "error") Sample.staged)
      as (_ & _ & H & _).
    assert (H1 : Review.verdict (Sample.review_of Sample.song_a "error") <> "continue")
      by discriminate.
    assert (H2 : Review.verdict (Sample.review_of Sample.song_a "error") <> "re-roll")
      by discriminate.
    exact (proj1 (H H1 H2)).
Defined.

(** Where the claim fails.  The claim reads: an approved artifact whose
    staging file exists is moved, so that afterward it is in final storage
    and not in staging, and the kept-count grows by one.  When the operating
    system refuses the destination, [shutil.move] raises, the router absorbs
    the exception, and the file stays where it was. *)
Lemma refused_move_leaves_song_staged_counterexample :
  ~ (forall (fs : filesystem) (r : Review.t) content,
        Review.verdict r = "continue" ->
        files fs !! Review.file_path r = Some content ->
        let final_dir := verify_final_destination_folder in
        let '(v, fs') := process_song_verdicts [r] final_dir fs in
        files fs' !! final_path_of final_dir (Review.file_path r) = Some content
        /\ files fs' !! Review.file_path r = None
        /\ kept_count v = 1).
Proof.
  intros Hclaim.
  specialize (Hclaim (Sample.staged_refusing ["backend/songs/final_review/psalm_a.mp3"])
                (Sample.review_of Sample.song_a "continue") "audio a" eq_refl eq_refl).
  vm_compute in Hclaim. destruct Hclaim as (_ & _ & H). discriminate H.
Qed.

(** ** The verdict router, final-attempt mode *)

Section FinalAttemptMode.

Variable final_dir : string.





End FinalAttemptMode.



(** ** The fail-safe handler *)

Section Failsafe.

Variable final_dir : string.

Lemma failsafe_song_present c (fs : filesystem) song content :
  files fs !! Song.file_path song = Some content ->
  os_refuses (Song.file_path song) fs = false ->
  os_refuses (failsafe_path_of final_dir (Song.file_path song)) fs = false ->
  failsafe_song final_dir (c, fs) song
  = (incr_moved c,
     renamed (Song.file_path song) (failsafe_path_of final_dir (Song.file_path song))
       content fs).
Proof.
  intros Hex Hs Hd. unfold failsafe_song.
  rewrite (os_path_exists_Some _ _ _ Hex).
  now rewrite (shutil_move_done _ _ _ _ Hex Hs Hd).
Qed.

Lemma failsafe_song_refused c (fs : filesystem) song content :
  files fs !! Song.file_path song = Some content ->
  os_refuses (Song.file_path song) fs
  || os_refuses (failsafe_path_of final_dir (Song.file_path song)) fs = true ->
  failsafe_song final_dir (c, fs) song = (incr_error c, fs).
Proof.
  intros Hex Hr. unfold failsafe_song.
  rewrite (os_path_exists_Some _ _ _ Hex).
  destruct (shutil_move_refused _ _ _ _ Hex Hr) as [message ->]. reflexivity.
Qed.

Lemma failsafe_song_absent c (fs : filesystem) song :
  files fs !! Song.file_path song = None ->
  failsafe_song final_dir (c, fs) song = (incr_error c, fs).
Proof. intros Hno. unfold failsafe_song. now rewrite (os_path_exists_None _ _ Hno). Qed.

(** One turn of the loop: the candidate is promoted, or it is counted as an
    error and nothing changes. *)
Lemma failsafe_song_cases c (fs : filesystem) song :
  (exists content,
      files fs !! Song.file_path song = Some content
      /\ os_refuses (Song.file_path song) fs = false
      /\ os_refuses (failsafe_path_of final_dir (Song.file_path song)) fs = false
      /\ failsafe_song final_dir (c, fs) song
         = (incr_moved c,
            renamed (Song.file_path song)
              (failsafe_path_of final_dir (Song.file_path song)) content fs))
  \/ failsafe_song final_dir (c, fs) song = (incr_error c, fs).
Proof.
  destruct (files fs !! Song.file_path song) as [content|] eqn:Hex;
    [|right; now apply failsafe_song_absent].
  destruct (os_refuses (Song.file_path song) fs) eqn:Hs;
    [right; apply (failsafe_song_refused _ _ _ content Hex); now rewrite Hs|].
  destruct (os_refuses (failsafe_path_of final_dir (Song.file_path song)) fs) eqn:Hd;
    [right; apply (failsafe_song_refused _ _ _ content Hex); now rewrite Hs, Hd|].
  left. exists content. repeat split; try assumption.
  now apply failsafe_song_present.
Qed.

(** The promoted name: the marker sits between the stem and the extension
    of the original file name, and the result is an entry of the
    final-storage directory. *)
Lemma failsafe_path_marked p :
  exists name_part ext,
    OsPath.splitext (OsPath.basename p) = (name_part, ext)
    /\ name_part +:+ ext = OsPath.basename p
    /\ failsafe_path_of final_dir p
       = OsPath.join final_dir (name_part +:+ "_FAILSAFE" +:+ ext)
    /\ OsPath.in_dir final_dir (failsafe_path_of final_dir p).
Proof.
  unfold failsafe_path_of.
  destruct (OsPath.splitext (OsPath.basename p)) as [name_part ext] eqn:Hsplit.
  exists name_part, ext.
  split; [reflexivity|].
  split; [now apply OsPathFacts.splitext_app|].
  split; [reflexivity|].
  apply OsPathFacts.in_dir_join.
  destruct (OsPathFacts.splitext_sep_free _ _ _ (OsPathFacts.basename_sep_free p) Hsplit)
    as [Hn He].
  apply OsPathFacts.sep_free_app. split; [exact Hn|].
  apply OsPathFacts.sep_free_app. split; [reflexivity | exact He].
Qed.







End Failsafe.



(** ** The orchestrator *)

(** The result dictionaries are compared by their keys, never unfolded. *)
#[local] Arguments success_result : simpl never.
#[local] Arguments fatal_result : simpl never.
#[local] Arguments failsafe_success_result : simpl never.
#[local] Arguments exhausted_result : simpl never.
#[local] Arguments critical_error : simpl never.
#[local] Arguments pretty : simpl never.
#[local] Arguments Nat.ltb : simpl never.

Ltac unfold_workflow :=
  unfold mbind, M_bind, mret, M_ret, await, print, update_attempt, update_details,
    record_attempt, set_final_attempt_songs, modify_state, get_state, try_except.

(** The frame a computation ends in, as the witness of an existential. *)
Ltac exists_frame :=
  lazymatch goal with
  | |- exists f', (_, ?fr) = _ /\ _ => exists fr
  end.

Section ResultKeys.

Lemma success_result_keys attempt v d :
  let r := success_result attempt v d in
  r !! "success" = Some (VBool true)
  /\ r !! "total_attempts" = Some (VInt attempt)
  /\ r !! "final_songs_count" = Some (VInt (kept_count v))
  /\ r !! "good_songs" = Some (VInt (kept_count v))
  /\ r !! "re_rolled_songs" = Some (VInt (deleted_count v))
  /\ r !! "workflow_details" = Some (VDetails d)
  /\ is_Some (r !! "message")
  /\ r !! "error" = None.
Proof. cbv zeta. unfold success_result. repeat split; try reflexivity. eexists; reflexivity. Qed.

Lemma fatal_result_keys attempt error_msg d :
  let r := fatal_result attempt error_msg d in
  r !! "success" = Some (VBool false)
  /\ r !! "total_attempts" = Some (VInt attempt)
  /\ r !! "final_songs_count" = Some (VInt 0)
  /\ r !! "error" = Some (VStr error_msg)
  /\ r !! "workflow_details" = Some (VDetails d)
  /\ is_Some (r !! "message")
  /\ r !! "good_songs" = None
  /\ r !! "re_rolled_songs" = None.
Proof. cbv zeta. unfold fatal_result. repeat split; try reflexivity. eexists; reflexivity. Qed.

Lemma failsafe_success_result_keys moved d :
  let r := failsafe_success_result moved d in
  r !! "success" = Some (VBool true)
  /\ r !! "total_attempts" = Some (VInt max_attempts)
  /\ r !! "final_songs_count" = Some (VInt moved)
  /\ r !! "good_songs" = Some (VInt 0)
  /\ r !! "re_rolled_songs" = Some (VInt (songs_deleted d))
  /\ r !! "workflow_details" = Some (VDetails d)
  /\ is_Some (r !! "message")
  /\ r !! "error" = None.
Proof.
  cbv zeta. unfold failsafe_success_result. repeat split; try reflexivity.
  eexists; reflexivity.
Qed.

Lemma exhausted_result_keys d :
  let r := exhausted_result d in
  r !! "success" = Some (VBool true)
  /\ r !! "total_attempts" = Some (VInt max_attempts)
  /\ r !! "final_songs_count" = Some (VInt 0)
  /\ r !! "good_songs" = Some (VInt 0)
  /\ r !! "re_rolled_songs" = Some (VInt (songs_deleted d))
  /\ r !! "workflow_details" = Some (VDetails d)
  /\ is_Some (r !! "message")
  /\ r !! "error" = None.
Proof. cbv zeta. unfold exhausted_result. repeat split; try reflexivity. eexists; reflexivity. Qed.

End ResultKeys.

Section OrchestratorFacts.

Context {Ext : Type}.

Variable generate_songs :
  string -> Z -> string -> string -> string -> M (world Ext) generation_result.
Variable asyncio_sleep : Z -> M (world Ext) unit.
Variable download_both_songs : string -> string -> M (world Ext) download_result.
Variable review_all_songs :
  list Song.t -> option Z -> M (world Ext) (list Review.t).
Variable process_song_verdicts :
  list Review.t -> string -> M (world Ext) verdict_result.
Variable process_song_verdicts_final_attempt :
  list Review.t -> string -> M (world Ext) verdict_result.
Variable handle_failsafe_songs :
  list Song.t -> string -> M (world Ext) failsafe_result.
Variables (book_name : string) (chapter : Z) (verse_range style title : string).
Variable song_structure_id : option Z.

Local Abbreviation generate :=
  (generate_songs book_name chapter verse_range style title).
Local Abbreviation body :=
  (attempt_body generate_songs asyncio_sleep download_both_songs review_all_songs
     process_song_verdicts process_song_verdicts_final_attempt
     book_name chapter verse_range style title song_structure_id).
Local Abbreviation iteration :=
  (attempt_iteration generate_songs asyncio_sleep download_both_songs review_all_songs
     process_song_verdicts process_song_verdicts_final_attempt
     book_name chapter verse_range style title song_structure_id).
Local Abbreviation loop :=
  (attempt_loop generate_songs asyncio_sleep download_both_songs review_all_songs
     process_song_verdicts process_song_verdicts_final_attempt
     book_name chapter verse_range style title song_structure_id).
Local Abbreviation run :=
  (execute_song_workflow generate_songs asyncio_sleep download_both_songs
     review_all_songs process_song_verdicts process_song_verdicts_final_attempt
     handle_failsafe_songs
     book_name chapter verse_range style title song_structure_id).

Local Abbreviation route :=
  (router_of process_song_verdicts process_song_verdicts_final_attempt).
Local Abbreviation raised_in :=
  (step_raised generate_songs asyncio_sleep download_both_songs review_all_songs
     process_song_verdicts process_song_verdicts_final_attempt
     book_name chapter verse_range style title song_structure_id).

(** The frame in which the [try] block of an attempt starts. *)
Local Abbreviation started attempt f :=
  {| world_of := world_of f;
     workflow_details := workflow_details f;
     final_attempt_songs := final_attempt_songs f;
     attempt_details := new_attempt attempt;
     console := console f ++ [EvAttempt attempt] |}.

Lemma body_generation_failed attempt f error w1 :
  generate (world_of f) = (Returned (GenerationFailed error), w1) ->
  exists f',
    body attempt f = (Returned None, f')
    /\ world_of f' = w1
    /\ console f' = console f ++ [EvGenerate]
    /\ final_attempt_songs f' = final_attempt_songs f
    /\ workflow_details f'
       = append_attempt
           (set_final_action ("generation_failed: " +:+ error) (attempt_details f))
           (workflow_details f).
Proof.
  intros Hgen. unfold attempt_body. unfold_workflow. cbn.
  rewrite Hgen. cbn. exists_frame. split; [reflexivity|]. cbn. auto.
Qed.

Lemma body_routed attempt f g w1 w2 songs msg w3 review_results w4 v w5 :
  generate (world_of f) = (Returned (GenerationSucceeded g), w1) ->
  asyncio_sleep (3 * 60)%Z w1 = (Returned tt, w2) ->
  download_both_songs title temp_dir w2 = (Returned (DownloadSucceeded songs msg), w3) ->
  review_all_songs songs song_structure_id w3 = (Returned review_results, w4) ->
  route attempt review_results final_dir w4 = (Returned v, w5) ->
  exists f',
    body attempt f
    = (Returned (if Nat.ltb 0 (kept_count v)
                 then Some (success_result attempt v (workflow_details f'))
                 else None), f')
    /\ world_of f' = w5
    /\ console f' = console f ++ [EvGenerate; EvWait; EvDownload; EvReview; EvRoute]
    /\ final_attempt_songs f'
       = (if Nat.eqb attempt max_attempts then songs else final_attempt_songs f)
    /\ attempts (workflow_details f')
       = attempts (workflow_details f) ++ [attempt_details f']
    /\ downloads (attempt_details f') = songs
    /\ reviews (attempt_details f') = review_results
    /\ attempt_number (attempt_details f') = attempt_number (attempt_details f).
Proof.
  intros Hgen Hsleep Hdl Hrev Hroute. unfold attempt_body. unfold_workflow. cbn.
  rewrite Hgen. cbn. rewrite Hsleep. cbn. rewrite Hdl. cbn.
  unfold router_of in Hroute.
  destruct (Nat.eqb attempt max_attempts); cbn;
    rewrite Hrev; cbn; rewrite Hroute; cbn;
    (destruct (Nat.ltb 0 (kept_count v)); cbn;
     exists_frame; (split; [reflexivity|]); cbn;
     rewrite <- !app_assoc; cbn; auto 10).
Qed.

(** *** Exceptions inside the [try] block *)

Lemma body_generation_raised attempt f e w1 :
  generate (world_of f) = (Raised e, w1) ->
  exists f',
    body attempt f = (Raised e, f')
    /\ world_of f' = w1
    /\ console f' = console f ++ [EvGenerate]
    /\ final_attempt_songs f' = final_attempt_songs f
    /\ workflow_details f' = workflow_details f
    /\ attempt_details f' = attempt_details f.
Proof.
  intros Hgen. unfold attempt_body. unfold_workflow. cbn.
  rewrite Hgen. cbn. exists_frame. split; [reflexivity|]. cbn. auto.
Qed.

Lemma body_wait_raised attempt f g w1 e w2 :
  generate (world_of f) = (Returned (GenerationSucceeded g), w1) ->
  asyncio_sleep (3 * 60)%Z w1 = (Raised e, w2) ->
  exists f',
    body attempt f = (Raised e, f')
    /\ world_of f' = w2
    /\ console f' = console f ++ [EvGenerate; EvWait]
    /\ final_attempt_songs f' = final_attempt_songs f
    /\ attempts (workflow_details f') = attempts (workflow_details f)
    /\ attempt_number (attempt_details f') = attempt_number (attempt_details f).
Proof.
  intros Hgen Hsleep. unfold attempt_body. unfold_workflow. cbn.
  rewrite Hgen. cbn. rewrite Hsleep. cbn.
  exists_frame. split; [reflexivity|]. cbn. rewrite <- !app_assoc. auto.
Qed.

Lemma body_download_raised attempt f g w1 w2 e w3 :
  generate (world_of f) = (Returned (GenerationSucceeded g), w1) ->
  asyncio_sleep (3 * 60)%Z w1 = (Returned tt, w2) ->
  download_both_songs title temp_dir w2 = (Raised e, w3) ->
  exists f',
    body attempt f = (Raised e, f')
    /\ world_of f' = w3
    /\ console f' = console f ++ [EvGenerate; EvWait; EvDownload]
    /\ final_attempt_songs f' = final_attempt_songs f
    /\ attempts (workflow_details f') = attempts (workflow_details f)
    /\ attempt_number (attempt_details f') = attempt_number (attempt_details f).
Proof.
  intros Hgen Hsleep Hdl. unfold attempt_body. unfold_workflow. cbn.
  rewrite Hgen. cbn. rewrite Hsleep. cbn. rewrite Hdl. cbn.
  exists_frame. split; [reflexivity|]. cbn. rewrite <- !app_assoc. auto.
Qed.

Lemma body_review_raised attempt f g w1 w2 songs msg w3 e w4 :
  generate (world_of f) = (Returned (GenerationSucceeded g), w1) ->
  asyncio_sleep (3 * 60)%Z w1 = (Returned tt, w2) ->
  download_both_songs title temp_dir w2 = (Returned (DownloadSucceeded songs msg), w3) ->
  review_all_songs songs song_structure_id w3 = (Raised e, w4) ->
  exists f',
    body attempt f = (Raised e, f')
    /\ world_of f' = w4
    /\ console f' = console f ++ [EvGenerate; EvWait; EvDownload; EvReview]
    /\ final_attempt_songs f'
       = (if Nat.eqb attempt max_attempts then songs else final_attempt_songs f)
    /\ attempts (workflow_details f') = attempts (workflow_details f)
    /\ attempt_number (attempt_details f') = attempt_number (attempt_details f).
Proof.
  intros Hgen Hsleep Hdl Hrev. unfold attempt_body. unfold_workflow. cbn.
  rewrite Hgen. cbn. rewrite Hsleep. cbn. rewrite Hdl. cbn.
  destruct (Nat.eqb attempt max_attempts); cbn; rewrite Hrev; cbn;
    exists_frame; (split; [reflexivity|]); cbn; rewrite <- !app_assoc; auto.
Qed.

Lemma body_routing_raised attempt f g w1 w2 songs msg w3 review_results w4 e w5 :
  generate (world_of f) = (Returned (GenerationSucceeded g), w1) ->
  asyncio_sleep (3 * 60)%Z w1 = (Returned tt, w2) ->
  download_both_songs title temp_dir w2 = (Returned (DownloadSucceeded songs msg), w3) ->
  review_all_songs songs song_structure_id w3 = (Returned review_results, w4) ->
  route attempt review_results final_dir w4 = (Raised e, w5) ->
  exists f',
    body attempt f = (Raised e, f')
    /\ world_of f' = w5
    /\ console f' = console f ++ [EvGenerate; EvWait; EvDownload; EvReview; EvRoute]
    /\ final_attempt_songs f'
       = (if Nat.eqb attempt max_attempts then songs else final_attempt_songs f)
    /\ attempts (workflow_details f') = attempts (workflow_details f)
    /\ attempt_number (attempt_details f') = attempt_number (attempt_details f).
Proof.
  intros Hgen Hsleep Hdl Hrev Hroute. unfold attempt_body. unfold_workflow. cbn.
  rewrite Hgen. cbn. rewrite Hsleep. cbn. rewrite Hdl. cbn.
  unfold router_of in Hroute.
  destruct (Nat.eqb attempt max_attempts); cbn; rewrite Hrev; cbn; rewrite Hroute; cbn;
    exists_frame; (split; [reflexivity|]); cbn; rewrite <- !app_assoc; auto.
Qed.

(** The [try] block raises only what one of its five steps raised, and
    leaves the attempt unrecorded. *)
Lemma body_raised_inv attempt f e f' :
  body attempt f = (Raised e, f') ->
  attempts (workflow_details f') = attempts (workflow_details f)
  /\ attempt_number (attempt_details f') = attempt_number (attempt_details f)
  /\ raised_in attempt (world_of f) e (world_of f').
Proof.
  unfold attempt_body, step_raised, router_of. unfold_workflow. cbn.
  destruct (generate (world_of f)) as [[[g|error]|e1] w1] eqn:Hgen; cbn;
    [ | intros [= <- <-] | intros [= <- <-]; cbn; eauto 10 ].
  destruct (asyncio_sleep (3 * 60)%Z w1) as [[[]|e2] w2] eqn:Hsleep; cbn;
    [ | intros [= <- <-]; cbn; eauto 15 ].
  destruct (download_both_songs title temp_dir w2) as [[[error|songs msg]|e3] w3] eqn:Hdl; cbn;
    [ intros [= <- <-] | | intros [= <- <-]; cbn; eauto 15 ].
  destruct (Nat.eqb attempt max_attempts) eqn:Hlast; cbn.
  - destruct (review_all_songs songs song_structure_id w3) as [[review_results|e4] w4] eqn:Hrev;
      cbn; [ | intros [= <- <-]; cbn; do 2 (split; [reflexivity|]); do 3 right; left; eauto 15 ].
    destruct (process_song_verdicts_final_attempt review_results final_dir w4)
      as [[v|e5] w5] eqn:Hroute; cbn;
      [ destruct (Nat.ltb 0 (kept_count v)); intros [= <- <-]
      | intros [= <- <-]; cbn; do 2 (split; [reflexivity|]); do 4 right; eauto 20 ].
  - destruct (review_all_songs songs song_structure_id w3) as [[review_results|e4] w4] eqn:Hrev;
      cbn; [ | intros [= <- <-]; cbn; do 2 (split; [reflexivity|]); do 3 right; left; eauto 15 ].
    destruct (process_song_verdicts review_results final_dir w4)
      as [[v|e5] w5] eqn:Hroute; cbn;
      [ destruct (Nat.ltb 0 (kept_count v)); intros [= <- <-]
      | intros [= <- <-]; cbn; do 2 (split; [reflexivity|]); do 4 right; eauto 20 ].
Qed.

(** Conversely, whatever a step raises comes out of the [try] block. *)
Lemma body_raises attempt f e w' :
  raised_in attempt (world_of f) e w' ->
  exists f',
    body attempt f = (Raised e, f')
    /\ world_of f' = w'
    /\ attempts (workflow_details f') = attempts (workflow_details f)
    /\ attempt_number (attempt_details f') = attempt_number (attempt_details f).
Proof.
  intros [H|[H|[H|[H|H]]]].
  - destruct (body_generation_raised attempt f e w' H) as (f' & ? & ? & _ & _ & Hd & Ha).
    exists f'. rewrite Hd, Ha. auto.
  - destruct H as (g & w1 & Hgen & Hsleep).
    destruct (body_wait_raised attempt f g w1 e w' Hgen Hsleep) as (f' & ? & ? & _ & _ & ? & ?).
    eauto.
  - destruct H as (g & w1 & w2 & Hgen & Hsleep & Hdl).
    destruct (body_download_raised attempt f g w1 w2 e w' Hgen Hsleep Hdl)
      as (f' & ? & ? & _ & _ & ? & ?).
    eauto.
  - destruct H as (g & w1 & w2 & songs & msg & w3 & Hgen & Hsleep & Hdl & Hrev).
    destruct (body_review_raised attempt f g w1 w2 songs msg w3 e w' Hgen Hsleep Hdl Hrev)
      as (f' & ? & ? & _ & _ & ? & ?).
    eauto.
  - destruct H as (g & w1 & w2 & songs & msg & w3 & rr & w4 & Hgen & Hsleep & Hdl & Hrev & Hr).
    destruct (body_routing_raised attempt f g w1 w2 songs msg w3 rr w4 e w'
                Hgen Hsleep Hdl Hrev Hr) as (f' & ? & ? & _ & _ & ? & ?).
    eauto.
Qed.

(** The [try] block returns from the function only with the success
    dictionary of an attempt that kept at least one song. *)
Lemma body_returned_some attempt f r f' :
  body attempt f = (Returned (Some r), f') ->
  exists v, r = success_result attempt v (workflow_details f') /\ 0 < kept_count v.
Proof.
  unfold attempt_body. unfold_workflow. cbn.
  destruct (generate (world_of f)) as [[[g|error]|e1] w1]; cbn;
    [ | intros [= <- <-] | intros [= <- <-] ].
  destruct (asyncio_sleep (3 * 60)%Z w1) as [[[]|e2] w2]; cbn; [ | intros [= <- <-] ].
  destruct (download_both_songs title temp_dir w2) as [[[error|songs msg]|e3] w3]; cbn;
    [ intros [= <- <-] | | intros [= <- <-] ].
  destruct (Nat.eqb attempt max_attempts); cbn;
    (destruct (review_all_songs songs song_structure_id w3) as [[review_results|e4] w4];
     cbn; [ | intros [= <- <-] ]).
  - destruct (process_song_verdicts_final_attempt review_results final_dir w4)
      as [[v|e5] w5]; cbn; [ | intros [= <- <-] ].
    destruct (Nat.ltb 0 (kept_count v)) eqn:Hkept; intros [= <- <-].
    exists v. split; [reflexivity|]. now apply Nat.ltb_lt.
  - destruct (process_song_verdicts review_results final_dir w4)
      as [[v|e5] w5]; cbn; [ | intros [= <- <-] ].
    destruct (Nat.ltb 0 (kept_count v)) eqn:Hkept; intros [= <- <-].
    exists v. split; [reflexivity|]. now apply Nat.ltb_lt.
Qed.

(** *** The [except] block *)

Lemma handler_returns attempt e (f : frame Ext) :
  exists f',
    attempt_handler attempt e f
    = (Returned (if Nat.eqb attempt max_attempts
                 then Some (fatal_result attempt (critical_error attempt e)
                              (workflow_details f'))
                 else None), f')
    /\ world_of f' = world_of f
    /\ console f' = console f
    /\ final_attempt_songs f' = final_attempt_songs f
    /\ workflow_details f'
       = append_attempt
           (set_final_action ("exception: " +:+ critical_error attempt e)
              (attempt_details f))
           (workflow_details f).
Proof.
  unfold attempt_handler. unfold_workflow. cbn.
  destruct (Nat.eqb attempt max_attempts); cbn;
    exists_frame; (split; [reflexivity|]); cbn; auto.
Qed.

(** *** One iteration *)

Lemma iteration_unfold attempt f :
  iteration attempt f
  = try_except (body attempt) (attempt_handler attempt) (started attempt f).
Proof. reflexivity. Qed.

Lemma iteration_returned attempt f o f' :
  body attempt (started attempt f) = (Returned o, f') ->
  iteration attempt f = (Returned o, f').
Proof. intros H. rewrite iteration_unfold. unfold try_except. now rewrite H. Qed.

(** An [Exception] goes to the handler. *)
Lemma iteration_raised attempt f e f1 :
  body attempt (started attempt f) = (Raised (Exception e), f1) ->
  iteration attempt f = attempt_handler attempt e f1.
Proof. intros H. rewrite iteration_unfold. unfold try_except. now rewrite H. Qed.

(** Any other exception passes the [except] clause. *)
Lemma iteration_propagates attempt f e f1 :
  body attempt (started attempt f) = (Raised (BaseException e), f1) ->
  iteration attempt f = (Raised (BaseException e), f1).
Proof. intros H. rewrite iteration_unfold. unfold try_except. now rewrite H. Qed.

(** An iteration raises only what is not an [Exception], and only out of
    its [try] block. *)
Lemma iteration_raised_inv attempt f e f' :
  iteration attempt f = (Raised e, f') ->
  exists message,
    e = BaseException message
    /\ body attempt (started attempt f) = (Raised (BaseException message), f').
Proof.
  destruct (body attempt (started attempt f)) as [[o|[e1|e1]] f1] eqn:Hbody.
  - rewrite (iteration_returned _ _ _ _ Hbody). discriminate.
  - rewrite (iteration_raised _ _ _ _ Hbody).
    destruct (handler_returns attempt e1 f1) as (f2 & -> & _). discriminate.
  - rewrite (iteration_propagates _ _ _ _ Hbody). intros [= <- <-]. eauto.
Qed.

(** An iteration returns from the function either with a success dictionary
    or, on the last attempt only, with the fatal dictionary of an exception
    raised in its [try] block. *)
Lemma iteration_returned_some attempt f r f' :
  iteration attempt f = (Returned (Some r), f') ->
  (exists v, r = success_result attempt v (workflow_details f') /\ 0 < kept_count v)
  \/ (attempt = max_attempts
      /\ exists e f1,
          body attempt (started attempt f) = (Raised (Exception e), f1)
          /\ r = fatal_result attempt (critical_error attempt e) (workflow_details f')).
Proof.
  destruct (body attempt (started attempt f)) as [[o|[e|e]] f1] eqn:Hbody.
  - rewrite (iteration_returned _ _ _ _ Hbody). intros [= -> <-].
    left. now apply body_returned_some in Hbody.
  - rewrite (iteration_raised _ _ _ _ Hbody).
    destruct (handler_returns attempt e f1) as (f2 & -> & _).
    destruct (Nat.eqb_spec attempt max_attempts) as [->|Hne]; intros [= <- <-].
    right. split; [reflexivity|]. eauto.
  - rewrite (iteration_propagates _ _ _ _ Hbody). discriminate.
Qed.

(** *** The loop *)

Lemma loop_cons attempt rest f :
  loop (attempt :: rest) f
  = match iteration attempt f with
    | (Returned (Some r), f') => (Returned (Some r), f')
    | (Returned None, f') => loop rest f'
    | (Raised e, f') => (Raised e, f')
    end.
Proof.
  cbn [attempt_loop]. unfold mbind, M_bind.
  destruct (iteration attempt f) as [[[r|]|e] f']; reflexivity.
Qed.

Lemma loop_app pre post f f1 :
  loop pre f = (Returned None, f1) -> loop (pre ++ post) f = loop post f1.
Proof.
  revert f. induction pre as [|attempt pre IH]; intros f.
  - intros [= <-]. reflexivity.
  - rewrite <- app_comm_cons, !loop_cons.
    destruct (iteration attempt f) as [[[r|]|e] f']; try discriminate.
    apply IH.
Qed.

(** The loop raises only when the [try] block of one of its attempts
    raised what is not an [Exception]; the attempts before it fell
    through. *)
Lemma loop_raised_inv attempts f e f' :
  loop attempts f = (Raised e, f') ->
  exists pre attempt post f1 message,
    attempts = pre ++ attempt :: post
    /\ loop pre f = (Returned None, f1)
    /\ e = BaseException message
    /\ body attempt (started attempt f1) = (Raised (BaseException message), f').
Proof.
  revert f. induction attempts as [|attempt rest IH]; intros f.
  - cbn. unfold mret, M_ret. discriminate.
  - rewrite loop_cons.
    destruct (iteration attempt f) as [[[r0|]|e0] f0] eqn:Hiter; try discriminate.
    + intros Hrest. apply IH in Hrest as (pre & a & post & f1 & m & -> & Hpre & -> & Hb).
      exists (attempt :: pre), a, post, f1, m.
      split; [reflexivity|]. split; [|auto].
      rewrite loop_cons, Hiter. exact Hpre.
    + intros [= <- <-].
      apply iteration_raised_inv in Hiter as (m & -> & Hb).
      exists [], attempt, rest, f, m. cbn. unfold mret, M_ret. auto.
Qed.

(** The loop is left by [return] either with a success dictionary, or with
    the fatal dictionary when the [try] block of the last attempt raised. *)
Lemma loop_returned_some attempts f r f' :
  loop attempts f = (Returned (Some r), f') ->
  (exists attempt v,
      In attempt attempts
      /\ r = success_result attempt v (workflow_details f') /\ 0 < kept_count v)
  \/ (exists pre post f1 e f2,
        attempts = pre ++ max_attempts :: post
        /\ loop pre f = (Returned None, f1)
        /\ body max_attempts (started max_attempts f1) = (Raised (Exception e), f2)
        /\ r = fatal_result max_attempts (critical_error max_attempts e)
                 (workflow_details f')).
Proof.
  revert f. induction attempts as [|attempt rest IH]; intros f.
  - cbn. unfold mret, M_ret. discriminate.
  - rewrite loop_cons.
    destruct (iteration attempt f) as [[[r0|]|e] f0] eqn:Hiter; try discriminate.
    + intros [= -> ->].
      apply iteration_returned_some in Hiter as [(v & -> & Hv)|(-> & e & f1 & Hb & ->)].
      * left. exists attempt, v. cbn. auto.
      * right. exists [], rest, f, e, f1. cbn. unfold mret, M_ret. auto.
    + intros Hrest. apply IH in Hrest as [(a & v & Hin & -> & Hv)|Hfatal].
      * left. exists a, v. cbn. auto.
      * right. destruct Hfatal as (pre & post & f1 & e & f2 & -> & Hpre & Hb & ->).
        exists (attempt :: pre), post, f1, e, f2.
        split; [reflexivity|]. split; [|auto].
        rewrite loop_cons, Hiter. exact Hpre.
Qed.

(** *** The console *)

Local Abbreviation step_events := [EvGenerate; EvWait; EvDownload; EvReview; EvRoute].

Lemma body_console attempt f o f' :
  body attempt f = (o, f') ->
  exists evs, console f' = console f ++ evs /\ incl evs step_events.
Proof.
  unfold attempt_body. unfold_workflow. cbn.
  destruct (generate (world_of f)) as [[[g|error]|e1] w1]; cbn;
    [ | intros [= <- <-]; cbn; eexists; split; [reflexivity|]; intros ? [<-|[]]; cbn; auto
      | intros [= <- <-]; cbn; eexists; split; [reflexivity|]; intros ? [<-|[]]; cbn; auto ].
  destruct (asyncio_sleep (3 * 60)%Z w1) as [[[]|e2] w2]; cbn;
    [ | intros [= <- <-]; cbn; rewrite <- !app_assoc; eexists; split; [reflexivity|];
        cbn; intros ? [<-|[<-|[]]]; cbn; auto ].
  destruct (download_both_songs title temp_dir w2) as [[[error|songs msg]|e3] w3]; cbn;
    [ intros [= <- <-]; cbn; rewrite <- !app_assoc; eexists; split; [reflexivity|];
        cbn; intros ? [<-|[<-|[<-|[]]]]; cbn; auto
    | 
    | intros [= <- <-]; cbn; rewrite <- !app_assoc; eexists; split; [reflexivity|];
        cbn; intros ? [<-|[<-|[<-|[]]]]; cbn; auto ].
  destruct (Nat.eqb attempt max_attempts); cbn;
    (destruct (review_all_songs songs song_structure_id w3) as [[review_results|e4] w4];
     cbn;
     [ | intros [= <- <-]; cbn; rewrite <- !app_assoc; eexists; split; [reflexivity|];
         cbn; intros ? [<-|[<-|[<-|[<-|[]]]]]; cbn; auto ]).
  - destruct (process_song_verdicts_final_attempt review_results final_dir w4)
      as [[v|e5] w5]; cbn; [ destruct (Nat.ltb 0 (kept_count v)) | ];
      intros [= <- <-]; cbn; rewrite <- !app_assoc; eexists; (split; [reflexivity|]);
      apply incl_refl.
  - destruct (process_song_verdicts review_results final_dir w4)
      as [[v|e5] w5]; cbn; [ destruct (Nat.ltb 0 (kept_count v)) | ];
      intros [= <- <-]; cbn; rewrite <- !app_assoc; eexists; (split; [reflexivity|]);
      apply incl_refl.
Qed.

Lemma iteration_console attempt f o f' :
  iteration attempt f = (o, f') ->
  exists evs, console f' = console f ++ EvAttempt attempt :: evs /\ incl evs step_events.
Proof.
  destruct (body attempt (started attempt f)) as [[o1|[e|e]] f1] eqn:Hbody.
  - rewrite (iteration_returned _ _ _ _ Hbody). intros [= <- <-].
    apply body_console in Hbody as (evs & -> & Hevs). cbn.
    exists evs. now rewrite <- app_assoc.
  - rewrite (iteration_raised _ _ _ _ Hbody).
    destruct (handler_returns attempt e f1) as (f2 & -> & _ & Hc & _).
    intros [= <- <-]. rewrite Hc.
    apply body_console in Hbody as (evs & -> & Hevs). cbn.
    exists evs. now rewrite <- app_assoc.
  - rewrite (iteration_propagates _ _ _ _ Hbody). intros [= <- <-].
    apply body_console in Hbody as (evs & -> & Hevs). cbn.
    exists evs. now rewrite <- app_assoc.
Qed.

(** Whatever the loop prints beyond step lines announces one of its own
    attempts. *)
Lemma loop_console attempts f o f' :
  loop attempts f = (o, f') ->
  exists evs,
    console f' = console f ++ evs
    /\ forall ev, In ev evs ->
         (exists attempt, In attempt attempts /\ ev = EvAttempt attempt)
         \/ In ev step_events.
Proof.
  revert f. induction attempts as [|attempt rest IH]; intros f.
  - cbn. unfold mret, M_ret. intros [= <- <-]. exists []. rewrite app_nil_r.
    split; [reflexivity | intros ? []].
  - rewrite loop_cons.
    destruct (iteration attempt f) as [[[r|]|e] f1] eqn:Hiter;
      apply iteration_console in Hiter as (evs & Hc & Hevs).
    + intros [= <- <-]. exists (EvAttempt attempt :: evs). split; [exact Hc|].
      intros ev [<-|Hin]; [left; exists attempt; cbn; auto | right; now apply Hevs].
    + intros Hrest. apply IH in Hrest as (evs' & Hc' & Hevs').
      exists ((EvAttempt attempt :: evs) ++ evs'). split.
      * rewrite Hc', Hc. now rewrite <- app_assoc.
      * intros ev Hin. apply in_app_or in Hin as [[<-|Hin]|Hin].
        -- left. exists attempt. cbn. auto.
        -- right. now apply Hevs.
        -- destruct (Hevs' ev Hin) as [(a & Ha & ->)|Hs]; [|now right].
           left. exists a. cbn. auto.
    + intros [= <- <-]. exists (EvAttempt attempt :: evs). split; [exact Hc|].
      intros ev [<-|Hin]; [left; exists attempt; cbn; auto | right; now apply Hevs].
Qed.

(** *** The fail-safe stage and the whole function *)

Local Abbreviation failsafe := (failsafe_stage handle_failsafe_songs).

Lemma failsafe_stage_empty (f : frame Ext) :
  final_attempt_songs f = [] ->
  failsafe f = (Returned (exhausted_result (workflow_details f)), f).
Proof.
  intros Hnil. unfold failsafe_stage. unfold_workflow. cbn. rewrite Hnil. reflexivity.
Qed.

Lemma failsafe_stage_returned (f : frame Ext) fr w' :
  final_attempt_songs f <> [] ->
  handle_failsafe_songs (final_attempt_songs f) final_dir (world_of f) = (Returned fr, w') ->
  exists f',
    failsafe f
    = (Returned (if Nat.ltb 0 (moved_count fr)
                 then failsafe_success_result (moved_count fr) (workflow_details f')
                 else exhausted_result (workflow_details f')), f')
    /\ world_of f' = w'
    /\ console f' = console f ++ [EvFailsafe].
Proof.
  intros Hne Hfs. unfold failsafe_stage. unfold_workflow. cbn.
  destruct (final_attempt_songs f) as [|song songs] eqn:Hsongs; [contradiction|].
  cbn. rewrite Hfs. cbn.
  destruct (Nat.ltb 0 (moved_count fr)); cbn; exists_frame; auto.
Qed.

(** The fail-safe stage raises only what [handle_failsafe_songs] raised. *)
Lemma failsafe_stage_raised_inv (f : frame Ext) e f' :
  failsafe f = (Raised e, f') ->
  exists w',
    handle_failsafe_songs (final_attempt_songs f) final_dir (world_of f) = (Raised e, w').
Proof.
  unfold failsafe_stage. unfold_workflow. cbn.
  destruct (final_attempt_songs f) as [|song songs]; [discriminate|]. cbn.
  destruct (handle_failsafe_songs _ final_dir (world_of f)) as [[fr|e1] w'].
  - cbn. destruct (Nat.ltb 0 (moved_count fr)); discriminate.
  - intros [= <- <-]. eauto.
Qed.

Lemma failsafe_stage_returned_inv (f : frame Ext) r f' :
  failsafe f = (Returned r, f') ->
  r = exhausted_result (workflow_details f')
  \/ exists moved, r = failsafe_success_result moved (workflow_details f').
Proof.
  unfold failsafe_stage. unfold_workflow. cbn.
  destruct (final_attempt_songs f) as [|song songs].
  - intros [= <- <-]. now left.
  - cbn. destruct (handle_failsafe_songs _ final_dir (world_of f)) as [[fr|e1] w'];
      [|discriminate].
    cbn. destruct (Nat.ltb 0 (moved_count fr)); intros [= <- <-].
    + right. eexists. reflexivity.
    + now left.
Qed.

(** Both directories can be created: the function goes on to the loop. *)
Lemma run_unfold w :
  directories_ready w ->
  run w
  = match loop (seq 1 max_attempts) (entry_frame w) with
    | (Returned (Some r), f) => (Returned r, f)
    | (Returned None, f) => failsafe f
    | (Raised e, f) => (Raised e, f)
    end.
Proof.
  intros [Htemp Hfinal].
  assert (H1 : await (os_call (os_makedirs temp_dir)) (entry_frame w)
               = (Returned tt, entry_frame w)).
  { destruct w as [x fs0]. unfold await, os_call, os_makedirs. cbn in *.
    now rewrite Htemp. }
  assert (H2 : await (os_call (os_makedirs final_dir)) (entry_frame w)
               = (Returned tt, entry_frame w)).
  { destruct w as [x fs0]. unfold await, os_call, os_makedirs. cbn in *.
    now rewrite Hfinal. }
  unfold execute_song_workflow, mbind, M_bind. rewrite H1, H2.
  destruct (loop (seq 1 max_attempts) (entry_frame w)) as [[[r|]|e] f]; reflexivity.
Qed.

(** A directory cannot be created: [os.makedirs] raises, outside every
    [try], before anything else was done. *)
Lemma run_not_ready w :
  ~ directories_ready w ->
  exists message, run w = (Raised (Exception message), entry_frame w).
Proof.
  intros Hnot. unfold directories_ready in Hnot.
  assert (H1 : forall d,
    await (os_call (os_makedirs d)) (entry_frame w)
    = if os_refuses d (fs w)
      then (Raised (Exception ("[Errno 13] Permission denied: " +:+ d)), entry_frame w)
      else (Returned tt, entry_frame w)).
  { intros d. destruct w as [x fs0]. unfold await, os_call, os_makedirs. cbn.
    destruct (os_refuses d fs0); reflexivity. }
  unfold execute_song_workflow, mbind, M_bind. rewrite (H1 temp_dir).
  destruct (os_refuses temp_dir (fs w)) eqn:Htemp; [eauto|].
  rewrite (H1 final_dir).
  destruct (os_refuses final_dir (fs w)) eqn:Hfinal; [eauto|].
  exfalso. apply Hnot. auto.
Qed.

Lemma directories_ready_dec (w : world Ext) :
  directories_ready w \/ ~ directories_ready w.
Proof.
  unfold directories_ready.
  destruct (os_refuses temp_dir (fs w)); [right; intros [? _]; discriminate|].
  destruct (os_refuses final_dir (fs w)); [right; intros [_ ?]; discriminate|].
  left. auto.
Qed.

Lemma run_returned_ready w r f : run w = (Returned r, f) -> directories_ready w.
Proof.
  intros Hrun. destruct (directories_ready_dec w) as [H|H]; [exact H|].
  destruct (run_not_ready w H) as [message Hraise]. rewrite Hraise in Hrun. discriminate.
Qed.

Lemma run_returned w r f :
  directories_ready w ->
  loop (seq 1 max_attempts) (entry_frame w) = (Returned (Some r), f) ->
  run w = (Returned r, f).
Proof. intros Hready H. now rewrite (run_unfold w Hready), H. Qed.

Lemma run_exhausted w f :
  directories_ready w ->
  loop (seq 1 max_attempts) (entry_frame w) = (Returned None, f) ->
  run w = failsafe f.
Proof. intros Hready H. now rewrite (run_unfold w Hready), H. Qed.

Lemma run_raised w e f :
  directories_ready w ->
  loop (seq 1 max_attempts) (entry_frame w) = (Raised e, f) ->
  run w = (Raised e, f).
Proof. intros Hready H. now rewrite (run_unfold w Hready), H. Qed.

(** The attempts before [attempt] in [1..3] are the smaller numbers. *)
Lemma attempts_split pre attempt post :
  seq 1 max_attempts = pre ++ attempt :: post ->
  1 <= attempt <= max_attempts
  /\ (forall k, In k pre -> k < attempt)
  /\ pre = seq 1 (attempt - 1)
  /\ post = seq (S attempt) (max_attempts - attempt).
Proof.
  unfold max_attempts. cbn. intros H.
  destruct pre as [|a [|b [|c pre]]]; cbn in H; inversion H; subst; clear H.
  4: destruct pre; discriminate.
  all: split; [lia|]; split.
  all: try (intros k Hin; cbn in Hin; intuition lia).
  all: split; reflexivity.
Qed.

(** C1.  Let attempt [attempt] of a run be reached in frame [f] (both
    directories were created and every earlier attempt fell through), and
    let its five steps return, the router
    reporting a kept-count above zero.  Then [execute_song_workflow] returns
    at once: the result has [success] true, [total_attempts = attempt] and
    [final_songs_count] equal to that kept-count; the world is the one the
    router left; the console shows the six lines of this attempt after those
    of the earlier ones and nothing else, so no later attempt was started
    and the fail-safe was not invoked. *)
Theorem success_returns_immediately
    (w : world Ext) (attempt : nat) (pre post : list nat) (f : frame Ext)
    g w1 w2 songs msg w3 review_results w4 v w5 :
  directories_ready w ->
  seq 1 max_attempts = pre ++ attempt :: post ->
  loop pre (entry_frame w) = (Returned None, f) ->
  generate (world_of f) = (Returned (GenerationSucceeded g), w1) ->
  asyncio_sleep (3 * 60)%Z w1 = (Returned tt, w2) ->
  download_both_songs title temp_dir w2 = (Returned (DownloadSucceeded songs msg), w3) ->
  review_all_songs songs song_structure_id w3 = (Returned review_results, w4) ->
  route attempt review_results final_dir w4 = (Returned v, w5) ->
  0 < kept_count v ->
  exists r f',
    run w = (Returned r, f')
    /\ r !! "success" = Some (VBool true)
    /\ r !! "total_attempts" = Some (VInt attempt)
    /\ r !! "final_songs_count" = Some (VInt (kept_count v))
    /\ attempt <= 3
    /\ world_of f' = w5
    /\ console f'
       = console f ++ [EvAttempt attempt; EvGenerate; EvWait; EvDownload; EvReview; EvRoute]
    /\ (forall k, In (EvAttempt k) (console f') -> k <= attempt)
    /\ ~ In EvFailsafe (console f').
Proof.
  intros Hready Hsplit Hpre Hgen Hsleep Hdl Hrev Hroute Hkept.
  destruct (body_routed attempt (started attempt f) g w1 w2 songs msg w3
              review_results w4 v w5 Hgen Hsleep Hdl Hrev Hroute)
    as (f' & Hbody & Hworld & Hconsole & _).
  apply Nat.ltb_lt in Hkept. rewrite Hkept in Hbody.
  apply iteration_returned in Hbody.
  assert (Hloop : loop (seq 1 max_attempts) (entry_frame w)
                  = (Returned (Some (success_result attempt v (workflow_details f'))), f')).
  { rewrite Hsplit, (loop_app _ _ _ _ Hpre), loop_cons.
    now rewrite Hbody. }
  apply (run_returned _ _ _ Hready) in Hloop.
  destruct (success_result_keys attempt v (workflow_details f'))
    as (Hs & Ht & Hf & _).
  destruct (attempts_split _ _ _ Hsplit) as ([_ Hle] & Hsmaller & _ & _).
  assert (Hconsole' :
    console f'
    = console f ++ [EvAttempt attempt; EvGenerate; EvWait; EvDownload; EvReview; EvRoute]).
  { rewrite Hconsole. cbn. now rewrite <- app_assoc. }
  destruct (loop_console _ _ _ _ Hpre) as (evs & Hevs & Honly).
  cbn in Hevs. 
  exists (success_result attempt v (workflow_details f')), f'.
  split; [exact Hloop|]. split; [exact Hs|]. split; [exact Ht|]. split; [exact Hf|].
  split; [exact Hle|]. split; [exact Hworld|]. split; [exact Hconsole'|].
  rewrite Hconsole', Hevs. split.
  - intros k Hin. apply in_app_or in Hin as [Hin|Hin].
    + destruct (Honly _ Hin) as [(a & Ha & [= ->])|Hstep].
      * apply Hsmaller in Ha. lia.
      * cbn in Hstep. repeat destruct Hstep as [Hstep|Hstep]; try discriminate.
        contradiction.
    + cbn in Hin. destruct Hin as [[= ->]|Hin]; [lia|].
      repeat destruct Hin as [Hin|Hin]; try discriminate. contradiction.
  - intros Hin. apply in_app_or in Hin as [Hin|Hin].
    + destruct (Honly _ Hin) as [(a & Ha & Heq)|Hstep]; [discriminate|].
      cbn in Hstep. repeat destruct Hstep as [Hstep|Hstep]; try discriminate.
      contradiction.
    + cbn in Hin. repeat destruct Hin as [Hin|Hin]; try discriminate. contradiction.
Qed.



(** A fatal result comes only from an [Exception] in the [try] block of
    the last attempt, reached after the first two fell through. *)
Lemma fatal_only_from_last_attempt w r f' :
  run w = (Returned r, f') ->
  r !! "success" = Some (VBool false) ->
  exists f e w',
    loop [1; 2] (entry_frame w) = (Returned None, f)
    /\ raised_in max_attempts (world_of f) (Exception e) w'
    /\ r = fatal_result max_attempts (critical_error max_attempts e) (workflow_details f').
Proof.
  intros Hrun. pose proof (run_returned_ready _ _ _ Hrun) as Hready. revert Hrun.
  rewrite (run_unfold w Hready).
  destruct (loop (seq 1 max_attempts) (entry_frame w)) as [[[r0|]|e0] f0] eqn:Hloop.
  - intros [= -> ->] Hfalse.
    apply loop_returned_some in Hloop
      as [(a & v & _ & -> & _)|(pre & post & f1 & e & f2 & Hsplit & Hpre & Hbody & ->)].
    + destruct (success_result_keys a v (workflow_details f')) as (Hs & _).
      cbv zeta in Hs. rewrite Hs in Hfalse. discriminate.
    + destruct (attempts_split _ _ _ Hsplit) as (_ & _ & -> & _).
      apply body_raised_inv in Hbody as (_ & _ & Hraised).
      exists f1, e, (world_of f2). auto.
  - intros Hfs Hfalse. exfalso.
    apply failsafe_stage_returned_inv in Hfs as [->|[moved ->]].
    + destruct (exhausted_result_keys (workflow_details f')) as (Hs & _).
      cbv zeta in Hs. rewrite Hs in Hfalse. discriminate.
    + destruct (failsafe_success_result_keys moved (workflow_details f')) as (Hs & _).
      cbv zeta in Hs. rewrite Hs in Hfalse. discriminate.
  - discriminate.
Qed.

(** An [Exception] caught at the attempt boundary: what the iteration
    does. *)
Lemma iteration_catches attempt f e w' :
  raised_in attempt (world_of f) (Exception e) w' ->
  exists f',
    iteration attempt f
    = (Returned (if Nat.eqb attempt max_attempts
                 then Some (fatal_result attempt (critical_error attempt e)
                              (workflow_details f'))
                 else None), f')
    /\ world_of f' = w'
    /\ (exists record,
          attempts (workflow_details f') = attempts (workflow_details f) ++ [record]
          /\ attempt_number record = attempt
          /\ final_action record = Some ("exception: " +:+ critical_error attempt e)).
Proof.
  intros Hraised.
  destruct (body_raises attempt (started attempt f) (Exception e) w' Hraised)
    as (f1 & Hbody & Hw & Hatt & Hnum).
  destruct (handler_returns attempt e f1) as (f' & Hh & Hw' & _ & _ & Hd).
  exists f'. rewrite (iteration_raised _ _ _ _ Hbody), Hh.
  split; [reflexivity|]. split; [congruence|].
  eexists. rewrite Hd. cbn. rewrite Hatt. cbn.
  split; [reflexivity|]. cbn. split; [exact Hnum | reflexivity].
Qed.

(** An exception that is not an [Exception] passes the attempt boundary:
    the iteration raises it, and the attempt is not recorded. *)
Lemma iteration_lets_through attempt f e w' :
  raised_in attempt (world_of f) (BaseException e) w' ->
  exists f',
    iteration attempt f = (Raised (BaseException e), f')
    /\ world_of f' = w'
    /\ attempts (workflow_details f') = attempts (workflow_details f).
Proof.
  intros Hraised.
  destruct (body_raises attempt (started attempt f) (BaseException e) w' Hraised)
    as (f1 & Hbody & Hw & Hatt & _).
  exists f1. rewrite (iteration_propagates _ _ _ _ Hbody). auto.
Qed.

(** How [execute_song_workflow] can end. *)
Lemma run_outcomes (w : world Ext) :
  (exists r f', run w = (Returned r, f'))
  \/ (~ directories_ready w
      /\ exists message, run w = (Raised (Exception message), entry_frame w))
  \/ (exists attempt pre post f e f',
        seq 1 max_attempts = pre ++ attempt :: post
        /\ loop pre (entry_frame w) = (Returned None, f)
        /\ raised_in attempt (world_of f) (BaseException e) (world_of f')
        /\ run w = (Raised (BaseException e), f'))
  \/ (exists e f f',
        loop (seq 1 max_attempts) (entry_frame w) = (Returned None, f)
        /\ (exists w', handle_failsafe_songs (final_attempt_songs f) final_dir (world_of f)
                       = (Raised e, w'))
        /\ run w = (Raised e, f')).
Proof.
  destruct (directories_ready_dec w) as [Hready|Hnot];
    [|right; left; split; [exact Hnot | now apply run_not_ready]].
  rewrite (run_unfold w Hready).
  destruct (loop (seq 1 max_attempts) (entry_frame w)) as [[[r|]|e] f] eqn:Hloop.
  - left. eauto.
  - destruct (failsafe f) as [[r|e] f'] eqn:Hfs; [left; eauto|].
    do 3 right. exists e, f, f'. split; [reflexivity|]. split; [|reflexivity].
    now apply failsafe_stage_raised_inv in Hfs.
  - right. right. left.
    apply loop_raised_inv in Hloop as (pre & attempt & post & f1 & m & Hsplit & Hpre & -> & Hb).
    pose proof Hb as Hstep. apply body_raised_inv in Hstep as (_ & _ & Hstep).
    exists attempt, pre, post, f1, m, f. auto.
Qed.

(** C5, as the code has it.  What the attempt boundary catches.  Both
    directories were created.
    - If one of the five steps of attempt [attempt] raises an [Exception],
      the iteration catches it and appends the attempt's record with the
      action "exception: Critical error on attempt n: ..."; before the last
      attempt the loop goes on with the next attempt, and on the last
      attempt the function returns the fatal result ([success] false,
      [total_attempts] 3, [final_songs_count] 0).
    - If a step raises an exception that is not an [Exception]
      ([asyncio.CancelledError] during an [await]), the [except] clause does
      not apply: [execute_song_workflow] raises it, in the world the step
      left, and the attempt is not recorded.
    - A [success]-false result arises in no other way than from an
      [Exception] in the last attempt.
    - The function returns, or it raises what is not an [Exception] out of
      a step of an attempt, or it raises what [handle_failsafe_songs]
      raised, after the loop. *)
Theorem attempt_exceptions_are_contained (w : world Ext) :
  directories_ready w ->
  (forall attempt pre post f e w',
      seq 1 max_attempts = pre ++ attempt :: post ->
      loop pre (entry_frame w) = (Returned None, f) ->
      raised_in attempt (world_of f) (Exception e) w' ->
      exists o f',
        iteration attempt f = (Returned o, f')
        /\ world_of f' = w'
        /\ (exists record,
              attempts (workflow_details f') = attempts (workflow_details f) ++ [record]
              /\ attempt_number record = attempt
              /\ final_action record
                 = Some ("exception: Critical error on attempt "
                         +:+ pretty attempt +:+ ": " +:+ e))
        /\ (attempt < max_attempts ->
            o = None
            /\ post = seq (S attempt) (max_attempts - attempt)
            /\ loop (seq 1 max_attempts) (entry_frame w) = loop post f')
        /\ (attempt = max_attempts ->
            exists r,
              o = Some r
              /\ run w = (Returned r, f')
              /\ r !! "success" = Some (VBool false)
              /\ r !! "total_attempts" = Some (VInt 3)
              /\ r !! "final_songs_count" = Some (VInt 0)))
  /\ (forall attempt pre post f e w',
        seq 1 max_attempts = pre ++ attempt :: post ->
        loop pre (entry_frame w) = (Returned None, f) ->
        raised_in attempt (world_of f) (BaseException e) w' ->
        exists f',
          run w = (Raised (BaseException e), f')
          /\ world_of f' = w'
          /\ attempts (workflow_details f') = attempts (workflow_details f))
  /\ (forall r f',
        run w = (Returned r, f') ->
        r !! "success" = Some (VBool false) ->
        exists f e w',
          loop [1; 2] (entry_frame w) = (Returned None, f)
          /\ raised_in max_attempts (world_of f) (Exception e) w')
  /\ ((exists r f', run w = (Returned r, f'))
      \/ (exists attempt pre post f e f',
            seq 1 max_attempts = pre ++ attempt :: post
            /\ loop pre (entry_frame w) = (Returned None, f)
            /\ raised_in attempt (world_of f) (BaseException e) (world_of f')
            /\ run w = (Raised (BaseException e), f'))
      \/ (exists e f w',
            loop (seq 1 max_attempts) (entry_frame w) = (Returned None, f)
            /\ handle_failsafe_songs (final_attempt_songs f) final_dir (world_of f)
               = (Raised e, w'))).
Proof.
  intros Hready. split; [|split; [|split]].
  - intros attempt pre post f e w' Hsplit Hpre Hraised.
    destruct (iteration_catches attempt f e w' Hraised) as (f' & Hiter & Hw & Hrec).
    destruct (attempts_split _ _ _ Hsplit) as (_ & _ & _ & Hpost).
    eexists. exists f'. split; [exact Hiter|]. split; [exact Hw|].
    split; [exact Hrec|]. split.
    + intros Hlt. destruct (Nat.eqb_spec attempt max_attempts) as [->|_]; [lia|].
      split; [reflexivity|]. split; [exact Hpost|].
      now rewrite Hsplit, (loop_app _ _ _ _ Hpre), loop_cons, Hiter.
    + intros ->. rewrite Nat.eqb_refl in Hiter |- *.
      eexists. split; [reflexivity|].
      destruct (fatal_result_keys max_attempts (critical_error max_attempts e)
                  (workflow_details f')) as (Hs & Ht & Hf & _).
      split; [|auto].
      apply (run_returned _ _ _ Hready).
      now rewrite Hsplit, (loop_app _ _ _ _ Hpre), loop_cons, Hiter.
  - intros attempt pre post f e w' Hsplit Hpre Hraised.
    destruct (iteration_lets_through attempt f e w' Hraised) as (f' & Hiter & Hw & Hatt).
    exists f'. split; [|auto].
    apply (run_raised _ _ _ Hready).
    now rewrite Hsplit, (loop_app _ _ _ _ Hpre), loop_cons, Hiter.
  - intros r f' Hrun Hfalse.
    destruct (fatal_only_from_last_attempt w r f' Hrun Hfalse)
      as (f & e & w' & Hpre & Hraised & _).
    eauto.
  - destruct (run_outcomes w) as [H|[[Hnot _]|[H|H]]].
    + now left.
    + contradiction.
    + right. left. exact H.
    + right. right. destruct H as (e & f & f' & Hloop & [w' Hfs] & _). eauto.
Qed.

(** C8.  Three reported generation failures.  If both directories were
    created and [generate_songs] reports failure (without raising) on each
    of the three attempts, nothing is ever staged: the candidate set of the
    fail-safe is empty when the loop runs out, [handle_failsafe_songs] is
    not invoked, and the function returns [success] true with
    [final_songs_count] 0, [good_songs] 0 and the message of the exhausted
    case.  A [success]-false result needs an exception raised in the last
    attempt. *)
Theorem reported_generation_failures_exhaust
    (w : world Ext) error1 w1 error2 w2 error3 w3 :
  directories_ready w ->
  generate w = (Returned (GenerationFailed error1), w1) ->
  generate w1 = (Returned (GenerationFailed error2), w2) ->
  generate w2 = (Returned (GenerationFailed error3), w3) ->
  (exists r f',
      run w = (Returned r, f')
      /\ r !! "success" = Some (VBool true)
      /\ r !! "final_songs_count" = Some (VInt 0)
      /\ r !! "good_songs" = Some (VInt 0)
      /\ r !! "message"
         = Some (VStr ("🎼 Max attempts (3) reached. All generated songs were "
                       +:+ "rejected by AI review. No songs were successfully "
                       +:+ "downloaded in final attempt."))
      /\ final_attempt_songs f' = []
      /\ console f'
         = [EvAttempt 1; EvGenerate; EvAttempt 2; EvGenerate; EvAttempt 3; EvGenerate]
      /\ world_of f' = w3
      /\ total_songs_generated (workflow_details f') = 0
      /\ map final_action (attempts (workflow_details f'))
         = [Some ("generation_failed: " +:+ error1);
            Some ("generation_failed: " +:+ error2);
            Some ("generation_failed: " +:+ error3)])
  /\ (forall (w0 : world Ext) r f',
        run w0 = (Returned r, f') ->
        r !! "success" = Some (VBool false) ->
        exists f e w',
          loop [1; 2] (entry_frame w0) = (Returned None, f)
          /\ raised_in max_attempts (world_of f) (Exception e) w').
Proof.
  intros Hready Hgen1 Hgen2 Hgen3. split.
  - destruct (body_generation_failed 1 (started 1 (entry_frame w)) error1 w1 Hgen1)
      as (f1 & Hb1 & Hw1 & Hc1 & Hs1 & Hd1).
    apply iteration_returned in Hb1.
    rewrite <- Hw1 in Hgen2.
    destruct (body_generation_failed 2 (started 2 f1) error2 w2 Hgen2)
      as (f2 & Hb2 & Hw2 & Hc2 & Hs2 & Hd2).
    apply iteration_returned in Hb2.
    rewrite <- Hw2 in Hgen3.
    destruct (body_generation_failed 3 (started 3 f2) error3 w3 Hgen3)
      as (f3 & Hb3 & Hw3 & Hc3 & Hs3 & Hd3).
    apply iteration_returned in Hb3.
    assert (Hloop : loop (seq 1 max_attempts) (entry_frame w) = (Returned None, f3)).
    { cbn [seq max_attempts]. rewrite loop_cons, Hb1, loop_cons, Hb2, loop_cons, Hb3.
      reflexivity. }
    assert (Hnil : final_attempt_songs f3 = []).
    { rewrite Hs3. cbn. rewrite Hs2. cbn. rewrite Hs1. reflexivity. }
    exists (exhausted_result (workflow_details f3)), f3.
    split; [now rewrite (run_exhausted _ _ Hready Hloop), (failsafe_stage_empty _ Hnil)|].
    destruct (exhausted_result_keys (workflow_details f3)) as (Hs & _ & Hf & Hg & _).
    split; [exact Hs|]. split; [exact Hf|]. split; [exact Hg|].
    split; [reflexivity|]. split; [exact Hnil|].
    split; [rewrite Hc3; cbn; rewrite Hc2; cbn; rewrite Hc1; reflexivity|].
    split; [exact Hw3|].
    rewrite Hd3. cbn. rewrite Hd2. cbn. rewrite Hd1. cbn. auto.
  - intros w0 r f' Hrun Hfalse.
    destruct (fatal_only_from_last_attempt w0 r f' Hrun Hfalse)
      as (f & e & w' & Hpre & Hraised & _).
    eauto.
Qed.

(** The dictionary of a run that returns: the five common keys, and then
    either the two song counts or the error. *)
Lemma returned_result_fields (w : world Ext) r f' :
  run w = (Returned r, f') ->
  Forall (fun key => is_Some (r !! key))
    ["success"; "total_attempts"; "final_songs_count"; "message"; "workflow_details"]
  /\ ((r !! "success" = Some (VBool true)
       /\ is_Some (r !! "good_songs") /\ is_Some (r !! "re_rolled_songs")
       /\ r !! "error" = None)
      \/ (r !! "success" = Some (VBool false)
          /\ r !! "good_songs" = None /\ r !! "re_rolled_songs" = None
          /\ is_Some (r !! "error"))).
Proof.
  intros Hrun. pose proof (run_returned_ready _ _ _ Hrun) as Hready. revert Hrun.
  rewrite (run_unfold w Hready).
  destruct (loop (seq 1 max_attempts) (entry_frame w)) as [[[r0|]|e0] f] eqn:Hloop;
    [| |discriminate].
  - intros [= -> ->].
    apply loop_returned_some in Hloop
      as [(a & v & _ & -> & _)|(pre & post & f1 & e & f2 & _ & _ & _ & ->)].
    + destruct (success_result_keys a v (workflow_details f'))
        as (Hs & Ht & Hf & Hg & Hr & Hd & Hm & He).
      split; [repeat constructor; eauto|]. left. eauto 10.
    + destruct (fatal_result_keys max_attempts (critical_error max_attempts e)
                  (workflow_details f')) as (Hs & Ht & Hf & He & Hd & Hm & Hg & Hr).
      split; [repeat constructor; eauto|]. right. eauto 10.
  - intros Hfs.
    apply failsafe_stage_returned_inv in Hfs as [->|[moved ->]].
    + destruct (exhausted_result_keys (workflow_details f'))
        as (Hs & Ht & Hf & Hg & Hr & Hd & Hm & He).
      split; [repeat constructor; eauto|]. left. eauto 10.
    + destruct (failsafe_success_result_keys moved (workflow_details f'))
        as (Hs & Ht & Hf & Hg & Hr & Hd & Hm & He).
      split; [repeat constructor; eauto|]. left. eauto 10.
Qed.

(** C9, as the code has it.  A call of [execute_song_workflow] returns one
    dictionary or raises.
    - A dictionary that is returned always has the keys [success],
      [total_attempts], [final_songs_count], [message] and
      [workflow_details].  When [success] is true it also has [good_songs]
      and [re_rolled_songs] and no [error]; the fatal dictionary instead has
      [error] and neither [good_songs] nor [re_rolled_songs].
    - The call raises in three cases only: [os.makedirs] could not create a
      directory (nothing else was done by then); a step of an attempt raised
      an exception that is not an [Exception]; [handle_failsafe_songs]
      raised.
    - So the call returns whenever both directories can be created, no step
      raises anything but an [Exception], and [handle_failsafe_songs] does
      not raise. *)
Theorem workflow_result_fields (w : world Ext) :
  (forall r f',
      run w = (Returned r, f') ->
      Forall (fun key => is_Some (r !! key))
        ["success"; "total_attempts"; "final_songs_count"; "message"; "workflow_details"]
      /\ ((r !! "success" = Some (VBool true)
           /\ is_Some (r !! "good_songs") /\ is_Some (r !! "re_rolled_songs")
           /\ r !! "error" = None)
          \/ (r !! "success" = Some (VBool false)
              /\ r !! "good_songs" = None /\ r !! "re_rolled_songs" = None
              /\ is_Some (r !! "error"))))
  /\ (forall e f',
        run w = (Raised e, f') ->
        (~ directories_ready w /\ f' = entry_frame w /\ exists message, e = Exception message)
        \/ (exists attempt pre post f message,
              seq 1 max_attempts = pre ++ attempt :: post
              /\ loop pre (entry_frame w) = (Returned None, f)
              /\ e = BaseException message
              /\ raised_in attempt (world_of f) (BaseException message) (world_of f'))
        \/ (exists f w',
              loop (seq 1 max_attempts) (entry_frame w) = (Returned None, f)
              /\ handle_failsafe_songs (final_attempt_songs f) final_dir (world_of f)
                 = (Raised e, w')))
  /\ (directories_ready w ->
      (forall attempt w0 message w', ~ raised_in attempt w0 (BaseException message) w') ->
      (forall songs d w0 e w', handle_failsafe_songs songs d w0 <> (Raised e, w')) ->
      exists r f', run w = (Returned r, f')).
Proof.
  split; [|split].
  - apply returned_result_fields.
  - intros e f' Hrun.
    destruct (run_outcomes w) as [(r & f0 & H)|[[Hnot [m H]]|[H|H]]].
    + rewrite H in Hrun. discriminate.
    + rewrite H in Hrun. injection Hrun as <- <-. left. eauto.
    + destruct H as (attempt & pre & post & f & m & f0 & Hsplit & Hpre & Hstep & H).
      rewrite H in Hrun. injection Hrun as <- <-.
      right. left. exists attempt, pre, post, f, m. auto.
    + destruct H as (e0 & f & f0 & Hloop & [w' Hfs] & H).
      rewrite H in Hrun. injection Hrun as <- <-.
      right. right. eauto.
  - intros Hready Hsteps Hfailsafe.
    destruct (run_outcomes w) as [H|[[Hnot _]|[H|H]]].
    + exact H.
    + contradiction.
    + destruct H as (attempt & pre & post & f & m & f0 & _ & _ & Hstep & _).
      exfalso. exact (Hsteps _ _ _ _ Hstep).
    + destruct H as (e0 & f & f0 & _ & [w' Hfs] & _).
      exfalso. exact (Hfailsafe _ _ _ _ _ Hfs).
Qed.

(** An exception in review or routing on the last attempt: how the run
    ends, whatever the callees do. *)
Lemma final_attempt_exception_outcome
    (w : world Ext) (f : frame Ext) g w1 w2 songs msg w3 e w_exc :
  directories_ready w ->
  loop [1; 2] (entry_frame w) = (Returned None, f) ->
  generate (world_of f) = (Returned (GenerationSucceeded g), w1) ->
  asyncio_sleep (3 * 60)%Z w1 = (Returned tt, w2) ->
  download_both_songs title temp_dir w2 = (Returned (DownloadSucceeded songs msg), w3) ->
  (review_all_songs songs song_structure_id w3 = (Raised e, w_exc)
   \/ exists review_results w4,
        review_all_songs songs song_structure_id w3 = (Returned review_results, w4)
        /\ process_song_verdicts_final_attempt review_results final_dir w4
           = (Raised e, w_exc)) ->
  exists o f',
    run w = (o, f')
    /\ match e with
       | Exception message =>
           exists r,
             o = Returned r
             /\ r !! "success" = Some (VBool false)
             /\ r !! "total_attempts" = Some (VInt 3)
             /\ r !! "final_songs_count" = Some (VInt 0)
             /\ r !! "error" = Some (VStr (critical_error 3 message))
       | BaseException message => o = Raised (BaseException message)
       end
    /\ final_attempt_songs f' = songs
    /\ ~ In EvFailsafe (console f')
    /\ world_of f' = w_exc.
Proof.
  intros Hready Hpre Hgen Hsleep Hdl Hraise.
  assert (Hbody : exists f1,
    body 3 (started 3 f) = (Raised e, f1)
    /\ world_of f1 = w_exc
    /\ final_attempt_songs f1 = songs
    /\ exists evs, console f1 = console f ++ EvAttempt 3 :: evs /\ incl evs step_events).
  { destruct Hraise as [Hrev|(review_results & w4 & Hrev & Hroute)].
    - destruct (body_review_raised 3 (started 3 f) g w1 w2 songs msg w3 e w_exc
                  Hgen Hsleep Hdl Hrev) as (f1 & Hb & Hw & Hc & Hs & _).
      exists f1. split; [exact Hb|]. split; [exact Hw|]. split; [exact Hs|].
      eexists. rewrite Hc. cbn. rewrite <- app_assoc. split; [reflexivity|].
      intros ? Hin. cbn in *. tauto.
    - destruct (body_routing_raised 3 (started 3 f) g w1 w2 songs msg w3
                  review_results w4 e w_exc Hgen Hsleep Hdl Hrev Hroute)
        as (f1 & Hb & Hw & Hc & Hs & _).
      exists f1. split; [exact Hb|]. split; [exact Hw|]. split; [exact Hs|].
      eexists. rewrite Hc. cbn. rewrite <- app_assoc. split; [reflexivity|].
      apply incl_refl. }
  destruct Hbody as (f1 & Hb & Hw1 & Hs1 & evs & Hc1 & Hevs).
  destruct (loop_console _ _ _ _ Hpre) as (evs0 & Hc0 & Hevs0). cbn in Hc0.
  assert (Hquiet : ~ In EvFailsafe (console f1)).
  { rewrite Hc1, Hc0. intros Hin.
    apply in_app_or in Hin as [Hin|[Hin|Hin]]; [|discriminate|].
    + destruct (Hevs0 _ Hin) as [(a & _ & Heq)|Hstep]; [discriminate|].
      cbn in Hstep. repeat destruct Hstep as [Hstep|Hstep]; try discriminate.
      contradiction.
    + apply Hevs in Hin. cbn in Hin.
      repeat destruct Hin as [Hin|Hin]; try discriminate. contradiction. }
  destruct e as [message|message].
  - destruct (handler_returns 3 message f1) as (f' & Hh & Hw' & Hc' & Hs' & _).
    assert (Hiter : iteration 3 f
                    = (Returned (Some (fatal_result 3 (critical_error 3 message)
                                         (workflow_details f'))), f')).
    { now rewrite (iteration_raised _ _ _ _ Hb), Hh. }
    assert (Hloop : loop (seq 1 max_attempts) (entry_frame w)
                    = (Returned (Some (fatal_result 3 (critical_error 3 message)
                                         (workflow_details f'))), f')).
    { change (seq 1 max_attempts) with ([1; 2] ++ [3]).
      now rewrite (loop_app _ _ _ _ Hpre), loop_cons, Hiter. }
    destruct (fatal_result_keys 3 (critical_error 3 message) (workflow_details f'))
      as (Hs & Ht & Hf & He & _).
    eexists. exists f'. split; [exact (run_returned _ _ _ Hready Hloop)|].
    split; [eexists; split; [reflexivity|]; auto|].
    split; [congruence|]. split; [now rewrite Hc'|]. congruence.
  - assert (Hloop : loop (seq 1 max_attempts) (entry_frame w)
                    = (Raised (BaseException message), f1)).
    { change (seq 1 max_attempts) with ([1; 2] ++ [3]).
      now rewrite (loop_app _ _ _ _ Hpre), loop_cons, (iteration_propagates _ _ _ _ Hb). }
    eexists. exists f1. split; [exact (run_raised _ _ _ Hready Hloop)|].
    split; [reflexivity|]. auto.
Qed.

End OrchestratorFacts.

(** ** The review step *)

Section ReviewFacts.

Context {Ext : Type}.

Variable review_call : string -> option Z -> M (world Ext) review_details.
Variable song_structure_id : option Z.


Lemma review_loop_returned songs acc (w : world Ext) review_results w' :
  review_loop review_call song_structure_id songs acc w = (Returned review_results, w') ->
  exists new, review_results = acc ++ new /\ Forall2 record_of songs new.
Proof.
  revert acc w. induction songs as [|song rest IH]; intros acc w; cbn [review_loop].
  - unfold mret, M_ret. intros [= <- <-]. exists []. rewrite app_nil_r.
    split; [reflexivity | constructor].
  - unfold mbind, M_bind.
    destruct (review_call (Song.file_path song) song_structure_id w)
      as [[review_result|e] w1]; [|discriminate].
    intros Hrest. apply IH in Hrest as (new & -> & Hnew).
    exists (reviewed song review_result :: new). rewrite <- app_assoc.
    split; [reflexivity|].
    constructor; [left; eauto | exact Hnew].
Qed.

Lemma review_failed_all e songs : Forall2 record_of songs (map (review_failed e) songs).
Proof. induction songs; cbn; constructor; [right; eauto | assumption]. Qed.



(** [review_all_songs] returns one record per song, unless the loop raised
    what is not an [Exception], which [review_all_songs] raises in turn. *)
Lemma review_all_songs_returns songs (w : world Ext) :
  (exists review_results w',
      review_all_songs review_call songs song_structure_id w = (Returned review_results, w')
      /\ Forall2 record_of songs review_results)
  \/ (exists e w',
        review_loop review_call song_structure_id songs [] w = (Raised (BaseException e), w')
        /\ review_all_songs review_call songs song_structure_id w
           = (Raised (BaseException e), w')).
Proof.
  unfold review_all_songs, try_except.
  destruct (review_loop review_call song_structure_id songs [] w)
    as [[review_results|[e|e]] w'] eqn:Hloop.
  - apply review_loop_returned in Hloop as (new & -> & Hnew). left. cbn. eauto.
  - left. unfold mret, M_ret. eexists _, _. split; [reflexivity|]. apply review_failed_all.
  - right. eauto.
Qed.

(** The loop raises only what a review call raised. *)
Lemma review_loop_raised_inv songs acc (w : world Ext) e w' :
  review_loop review_call song_structure_id songs acc w = (Raised e, w') ->
  exists song w0, In song songs
                  /\ review_call (Song.file_path song) song_structure_id w0 = (Raised e, w').
Proof.
  revert acc w. induction songs as [|song rest IH]; intros acc w; cbn [review_loop].
  - unfold mret, M_ret. discriminate.
  - unfold mbind, M_bind.
    destruct (review_call (Song.file_path song) song_structure_id w)
      as [[review_result|e1] w1] eqn:Hcall.
    + intros Hrest. apply IH in Hrest as (s & w0 & Hin & Hs).
      exists s, w0. split; [now right | exact Hs].
    + intros [= <- <-]. exists song, w. split; [now left | exact Hcall].
Qed.

End ReviewFacts.



(** ** Retrieval *)

Section RetrievalFacts.

Context {Ext : Type}.

Variable download_song_handler : string -> Z -> string -> M (world Ext) fetch_reply.
Variables (title download_path : string).

Local Abbreviation download := (download_both_songs download_song_handler title download_path).

Lemma append_if_fetched_length reply index downloaded_songs :
  length downloaded_songs
  <= length (append_if_fetched reply index title downloaded_songs)
  <= S (length downloaded_songs).
Proof.
  destruct reply; cbn; [rewrite length_app; cbn|]; lia.
Qed.

Lemma download_both_returned (w : world Ext) reply1 w1 reply2 w2 :
  download_song_handler title (-1)%Z download_path w = (Returned reply1, w1) ->
  download_song_handler title (-2)%Z download_path w1 = (Returned reply2, w2) ->
  let staged :=
    append_if_fetched reply2 (-2)%Z title (append_if_fetched reply1 (-1)%Z title []) in
  exists r,
    download w = (Returned r, w2)
    /\ download_list r = staged
    /\ length staged <= 2
    /\ (download_success r = true <-> 1 <= length staged).
Proof.
  intros H1 H2 staged.
  assert (Hlen : length staged <= 2).
  { subst staged.
    pose proof (append_if_fetched_length reply1 (-1)%Z []) as Ha.
    pose proof (append_if_fetched_length reply2 (-2)%Z
                  (append_if_fetched reply1 (-1)%Z title [])) as Hb.
    cbn [length] in Ha. lia. }
  unfold download_both_songs, try_except, mbind, M_bind, mret, M_ret.
  rewrite H1, H2. fold staged.
  destruct staged as [|song rest] eqn:Hstaged; cbn [length Nat.eqb].
  - eexists. split; [reflexivity|]. cbn. split; [reflexivity|]. split; [lia|].
    split; [discriminate | lia].
  - eexists. split; [reflexivity|]. cbn. split; [reflexivity|]. split; [exact Hlen|].
    split; [lia | reflexivity].
Qed.

Lemma download_first_raised (w : world Ext) e w1 :
  download_song_handler title (-1)%Z download_path w = (Raised (Exception e), w1) ->
  download w = (Returned (DownloadFailed ("Download process failed: " +:+ e)), w1).
Proof.
  intros H1. unfold download_both_songs, try_except, mbind, M_bind, mret, M_ret.
  now rewrite H1.
Qed.

Lemma download_second_raised (w : world Ext) reply1 w1 e w2 :
  download_song_handler title (-1)%Z download_path w = (Returned reply1, w1) ->
  download_song_handler title (-2)%Z download_path w1 = (Raised (Exception e), w2) ->
  download w = (Returned (DownloadFailed ("Download process failed: " +:+ e)), w2).
Proof.
  intros H1 H2. unfold download_both_songs, try_except, mbind, M_bind, mret, M_ret.
  now rewrite H1, H2.
Qed.

(** What is not an [Exception] passes the [except] clause. *)
Lemma download_lets_through (w : world Ext) e w' :
  (download_song_handler title (-1)%Z download_path w = (Raised (BaseException e), w')
   \/ exists reply1 w1,
        download_song_handler title (-1)%Z download_path w = (Returned reply1, w1)
        /\ download_song_handler title (-2)%Z download_path w1
           = (Raised (BaseException e), w')) ->
  download w = (Raised (BaseException e), w').
Proof.
  unfold download_both_songs, try_except, mbind, M_bind, mret, M_ret.
  intros [H1|(reply1 & w1 & H1 & H2)]; [now rewrite H1 | now rewrite H1, H2].
Qed.

Lemma download_both_total (w : world Ext) :
  (exists r w',
      download w = (Returned r, w')
      /\ length (download_list r) <= 2
      /\ (download_success r = true <-> 1 <= length (download_list r)))
  \/ (exists e w',
        download w = (Raised (BaseException e), w')
        /\ (download_song_handler title (-1)%Z download_path w
            = (Raised (BaseException e), w')
            \/ exists reply1 w1,
                 download_song_handler title (-1)%Z download_path w = (Returned reply1, w1)
                 /\ download_song_handler title (-2)%Z download_path w1
                    = (Raised (BaseException e), w'))).
Proof.
  destruct (download_song_handler title (-1)%Z download_path w)
    as [[reply1|[e|e]] w1] eqn:H1.
  - destruct (download_song_handler title (-2)%Z download_path w1)
      as [[reply2|[e|e]] w2] eqn:H2.
    + destruct (download_both_returned w reply1 w1 reply2 w2 H1 H2)
        as (r & Hrun & Hlist & Hlen & Hiff).
      left. exists r, w2. rewrite Hlist. auto.
    + left. rewrite (download_second_raised w reply1 w1 e w2 H1 H2).
      eexists _, _. split; [reflexivity|]. cbn. split; [lia|].
      split; [discriminate | lia].
    + right. exists e, w2. split; [|right; eauto].
      apply download_lets_through. right. eauto.
  - left. rewrite (download_first_raised w e w1 H1).
    eexists _, _. split; [reflexivity|]. cbn. split; [lia|].
    split; [discriminate | lia].
  - right. exists e, w1. split; [|now left].
    apply download_lets_through. now left.
Qed.

End RetrievalFacts.




(** ** The routines of the module as steps of the workflow *)

Section ModuleSteps.

Context {Ext : Type}.

(** A routine that only touches the file system never raises. *)
Lemma on_fs_returns {A} (step : filesystem -> A * filesystem) (w : world Ext) e w' :
  on_fs step w <> (Raised e, w').
Proof. unfold on_fs. destruct (step (fs w)). discriminate. Qed.

Variable review_song_endpoint : SongReviewRequest -> M (world Ext) SongReviewResponse.
Variable song_structure_id : option Z.

(** [call_review_api] raises only what is not an [Exception], and only
    what the endpoint raised. *)
Lemma call_review_api_raised_inv file_path (w : world Ext) e w' :
  call_review_api review_song_endpoint file_path song_structure_id w = (Raised e, w') ->
  exists message,
    e = BaseException message
    /\ review_song_endpoint
         {| audio_file_path := file_path;
            request_structure_id := or_zero song_structure_id |} w
       = (Raised (BaseException message), w').
Proof.
  unfold call_review_api, try_except, mbind, M_bind, mret, M_ret.
  destruct (review_song_endpoint _ w) as [[response|[e1|e1]] w1]; try discriminate.
  intros [= <- <-]. eauto.
Qed.

(** So does the review step built on it. *)
Lemma review_step_raised_inv songs (w : world Ext) e w' :
  review_all_songs (call_review_api review_song_endpoint) songs song_structure_id w
  = (Raised e, w') ->
  exists message song w0,
    e = BaseException message
    /\ In song songs
    /\ review_song_endpoint
         {| audio_file_path := Song.file_path song;
            request_structure_id := or_zero song_structure_id |} w0
       = (Raised (BaseException message), w').
Proof.
  intros Hrun.
  destruct (review_all_songs_returns (call_review_api review_song_endpoint)
              song_structure_id songs w)
    as [(review_results & w1 & H & _)|(m & w1 & Hloop & H)];
    rewrite H in Hrun; [discriminate|].
  injection Hrun as <- <-.
  apply review_loop_raised_inv in Hloop as (song & w0 & Hin & Hcall).
  apply call_review_api_raised_inv in Hcall as (m' & [= <-] & Hend).
  eauto 10.
Qed.

(** The world [call_review_api] leaves is the one the endpoint left. *)
Lemma call_review_api_world file_path (w : world Ext) o w' :
  call_review_api review_song_endpoint file_path song_structure_id w = (o, w') ->
  exists reply,
    review_song_endpoint
      {| audio_file_path := file_path;
         request_structure_id := or_zero song_structure_id |} w
    = (reply, w').
Proof.
  unfold call_review_api, try_except, mbind, M_bind, mret, M_ret.
  destruct (review_song_endpoint _ w) as [[response|[e1|e1]] w1];
    intros [= <- <-]; eauto.
Qed.

(** A review endpoint that leaves the files alone: so does the review
    step, however it ends. *)
Lemma review_loop_keeps_files songs acc (w : world Ext) o w' :
  (forall request w0 reply w1, review_song_endpoint request w0 = (reply, w1) -> fs w1 = fs w0) ->
  review_loop (call_review_api review_song_endpoint) song_structure_id songs acc w = (o, w') ->
  fs w' = fs w.
Proof.
  intros Hframe. revert acc w.
  induction songs as [|song songs IH]; intros acc w; cbn [review_loop].
  - unfold mret, M_ret. now intros [= <- <-].
  - unfold mbind, M_bind.
    destruct (call_review_api review_song_endpoint (Song.file_path song) song_structure_id w)
      as [[d|e] w1] eqn:Hcall;
      apply call_review_api_world in Hcall as [reply Hcall]; apply Hframe in Hcall.
    + intros Hrest. apply IH in Hrest. congruence.
    + intros [= <- <-]. exact Hcall.
Qed.

Lemma review_step_keeps_files songs (w : world Ext) o w' :
  (forall request w0 reply w1, review_song_endpoint request w0 = (reply, w1) -> fs w1 = fs w0) ->
  review_all_songs (call_review_api review_song_endpoint) songs song_structure_id w = (o, w') ->
  fs w' = fs w.
Proof.
  intros Hframe. unfold review_all_songs, try_except.
  destruct (review_loop (call_review_api review_song_endpoint) song_structure_id songs [] w)
    as [[rr|[e|e]] w1] eqn:Hloop;
    apply (review_loop_keeps_files _ _ _ _ _ Hframe) in Hloop;
    unfold mret, M_ret; intros [= <- <-]; exact Hloop.
Qed.

End ModuleSteps.

(** C10, as the code has it.  An exception in review or routing on the last
    attempt.  Both directories were created; the last attempt is reached in
    frame [f]; generation, the wait and retrieval return, so the downloaded
    songs are captured as fail-safe candidates; then [review_all_songs] or
    the final-attempt router raises [e], leaving world [w_exc].
    - If [e] is an [Exception], the function returns the fatal result; if
      it is not, the function raises [e].  Either way
      [handle_failsafe_songs] is not invoked: no fail-safe line is printed,
      and the final world is [w_exc], the world the raising step left, so
      nothing is promoted after the exception.
    - With the review step of this module, [review_all_songs] over
      [call_review_api], the step raises only what is not an [Exception],
      and only what the review endpoint raised for one of the songs; the
      world is then the one that endpoint call left.
    - The routers of this module never raise.
    - If the review endpoint leaves the files alone, the file system in
      which the review step ends, by returning or by raising, is the one in
      which it started: every song that retrieval staged is still in
      staging when the function raises. *)
Theorem final_attempt_exception_skips_failsafe :
  (forall Ext
          (generate_songs :
             string -> Z -> string -> string -> string -> M (world Ext) generation_result)
          (asyncio_sleep : Z -> M (world Ext) unit)
          (download_both_songs : string -> string -> M (world Ext) download_result)
          (review_all_songs : list Song.t -> option Z -> M (world Ext) (list Review.t))
          (process_song_verdicts process_song_verdicts_final_attempt :
             list Review.t -> string -> M (world Ext) verdict_result)
          (handle_failsafe_songs : list Song.t -> string -> M (world Ext) failsafe_result)
          book_name chapter verse_range style title song_structure_id
          (w : world Ext) (f : frame Ext) g w1 w2 songs msg w3 e w_exc,
      directories_ready w ->
      attempt_loop generate_songs asyncio_sleep download_both_songs review_all_songs
        process_song_verdicts process_song_verdicts_final_attempt
        book_name chapter verse_range style title song_structure_id [1; 2] (entry_frame w)
      = (Returned None, f) ->
      generate_songs book_name chapter verse_range style title (world_of f)
      = (Returned (GenerationSucceeded g), w1) ->
      asyncio_sleep (3 * 60)%Z w1 = (Returned tt, w2) ->
      download_both_songs title temp_dir w2 = (Returned (DownloadSucceeded songs msg), w3) ->
      (review_all_songs songs song_structure_id w3 = (Raised e, w_exc)
       \/ exists review_results w4,
            review_all_songs songs song_structure_id w3 = (Returned review_results, w4)
            /\ process_song_verdicts_final_attempt review_results final_dir w4
               = (Raised e, w_exc)) ->
      exists o f',
        execute_song_workflow generate_songs asyncio_sleep download_both_songs
          review_all_songs process_song_verdicts process_song_verdicts_final_attempt
          handle_failsafe_songs
          book_name chapter verse_range style title song_structure_id w = (o, f')
        /\ match e with
           | Exception message =>
               exists r,
                 o = Returned r
                 /\ r !! "success" = Some (VBool false)
                 /\ r !! "total_attempts" = Some (VInt 3)
                 /\ r !! "final_songs_count" = Some (VInt 0)
                 /\ r !! "error" = Some (VStr (critical_error 3 message))
           | BaseException message => o = Raised (BaseException message)
           end
        /\ final_attempt_songs f' = songs
        /\ ~ In EvFailsafe (console f')
        /\ world_of f' = w_exc)
  /\ (forall Ext (review_song_endpoint : SongReviewRequest -> M (world Ext) SongReviewResponse)
            song_structure_id songs (w3 : world Ext) e w_exc,
        review_all_songs (call_review_api review_song_endpoint) songs song_structure_id w3
        = (Raised e, w_exc) ->
        exists message song w0,
          e = BaseException message
          /\ In song songs
          /\ review_song_endpoint
               {| audio_file_path := Song.file_path song;
                  request_structure_id := or_zero song_structure_id |} w0
             = (Raised (BaseException message), w_exc))
  /\ (forall Ext review_results d (w4 : world Ext) e w_exc,
        on_fs (process_song_verdicts review_results d) w4 <> (Raised e, w_exc)
        /\ on_fs (process_song_verdicts_final_attempt review_results d) w4
           <> (Raised e, w_exc))
  /\ (forall Ext (review_song_endpoint : SongReviewRequest -> M (world Ext) SongReviewResponse)
            song_structure_id songs (w3 : world Ext) o w_exc,
        (forall request w0 reply w1,
            review_song_endpoint request w0 = (reply, w1) -> fs w1 = fs w0) ->
        review_all_songs (call_review_api review_song_endpoint) songs song_structure_id w3
        = (o, w_exc) ->
        fs w_exc = fs w3).
Proof.
  split; [|split; [|split]].
  - intros Ext generate_songs asyncio_sleep download_both_songs review_all_songs
      process_song_verdicts process_song_verdicts_final_attempt handle_failsafe_songs
      book_name chapter verse_range style title song_structure_id
      w f g w1 w2 songs msg w3 e w_exc.
    apply final_attempt_exception_outcome.
  - intros Ext review_song_endpoint song_structure_id songs w3 e w_exc.
    apply review_step_raised_inv.
  - intros Ext review_results d w4 e w_exc. split; apply on_fs_returns.
  - intros Ext review_song_endpoint song_structure_id songs w3 o w_exc Hframe.
    now apply review_step_keeps_files.
Qed.

(** ** Runs of the examples *)

(** Both songs approved on the first attempt: the run returns there. *)
Lemma success_returns_immediately_witness :
  exists r f',
    Sample.run_workflow Sample.generate_handler_ok "continue" Sample.empty_world
    = (Returned r, f')
    /\ r !! "success" = Some (VBool true)
    /\ r !! "total_attempts" = Some (VInt 1)
    /\ r !! "final_songs_count" = Some (VInt 2)
    /\ console f' = [EvAttempt 1; EvGenerate; EvWait; EvDownload; EvReview; EvRoute]
    /\ ~ In EvFailsafe (console f').
Proof.
  edestruct (success_returns_immediately
               (generate_songs Sample.generate_handler_ok)
               Sample.sleep_ok
               (download_both_songs Sample.download_handler)
               (review_all_songs (call_review_api (Sample.review_endpoint "continue")))
               (fun review_results final_dir =>
                  on_fs (process_song_verdicts review_results final_dir))
               (fun review_results final_dir =>
                  on_fs (process_song_verdicts_final_attempt review_results final_dir))
               (fun songs final_dir => on_fs (handle_failsafe_songs songs final_dir))
               "Psalms" 23%Z "1-6" "hymn" "Psalm 23" None
               Sample.empty_world 1 [] [2; 3] (entry_frame Sample.empty_world))
    as (r & f' & Hrun & Hs & Ht & Hf & _ & _ & Hc & _ & Hno).
  - split; reflexivity.
  - reflexivity.
  - reflexivity.
  - reflexivity.
  - reflexivity.
  - reflexivity.
  - reflexivity.
  - vm_compute. reflexivity.
  - vm_compute. lia.
  - exists r, f'. repeat split; assumption.
Defined.

(** A wait that fails with an [Exception] on every attempt: the first
    attempt records the exception and the loop goes on; the last one ends
    the run with the fatal result.  A wait during which the task is
    cancelled: the run raises. *)
Lemma attempt_exceptions_are_contained_witness :
  (exists o f',
      attempt_iteration
        (generate_songs Sample.generate_handler_ok) Sample.sleep_fails
        (download_both_songs Sample.download_handler)
        (review_all_songs (call_review_api (Sample.review_endpoint "continue")))
        (fun review_results final_dir =>
           on_fs (process_song_verdicts review_results final_dir))
        (fun review_results final_dir =>
           on_fs (process_song_verdicts_final_attempt review_results final_dir))
        "Psalms" 23%Z "1-6" "hymn" "Psalm 23" None 1 (entry_frame Sample.empty_world)
      = (Returned o, f')
      /\ o = None
      /\ exists record,
          attempts (workflow_details f') = [record]
          /\ attempt_number record = 1
          /\ final_action record
             = Some "exception: Critical error on attempt 1: timer failure")
  /\ (exists r f',
        Sample.run_program Sample.sleep_fails (Sample.review_endpoint "continue")
          Sample.empty_world
        = (Returned r, f')
        /\ r !! "success" = Some (VBool false)
        /\ r !! "total_attempts" = Some (VInt 3)
        /\ r !! "final_songs_count" = Some (VInt 0))
  /\ (exists f',
        Sample.run_program Sample.sleep_cancelled (Sample.review_endpoint "continue")
          Sample.empty_world
        = (Raised (BaseException "CancelledError"), f')).
Proof.
  split; [|split].
  - destruct (attempt_exceptions_are_contained
                (generate_songs Sample.generate_handler_ok) Sample.sleep_fails
                (download_both_songs Sample.download_handler)
                (review_all_songs (call_review_api (Sample.review_endpoint "continue")))
                (fun review_results final_dir =>
                   on_fs (process_song_verdicts review_results final_dir))
                (fun review_results final_dir =>
                   on_fs (process_song_verdicts_final_attempt review_results final_dir))
                (fun songs final_dir => on_fs (handle_failsafe_songs songs final_dir))
                "Psalms" 23%Z "1-6" "hymn" "Psalm 23" None Sample.empty_world)
      as (Hcaught & _); [split; reflexivity|].
    edestruct (Hcaught 1 [] [2; 3] (entry_frame Sample.empty_world) "timer failure")
      as (o & f' & Hiter & _ & (record & Hatt & Hnum & Hact) & Hadvance & _).
    + reflexivity.
    + reflexivity.
    + right. left. do 2 eexists. split; reflexivity.
    + exists o, f'. split; [exact Hiter|].
      split; [apply Hadvance; unfold max_attempts; lia|].
      exists record. split; [exact Hatt|]. split; [exact Hnum|]. exact Hact.
  - destruct (attempt_exceptions_are_contained
                (generate_songs Sample.generate_handler_ok) Sample.sleep_fails
                (download_both_songs Sample.download_handler)
                (review_all_songs (call_review_api (Sample.review_endpoint "continue")))
                (fun review_results final_dir =>
                   on_fs (process_song_verdicts review_results final_dir))
                (fun review_results final_dir =>
                   on_fs (process_song_verdicts_final_attempt review_results final_dir))
                (fun songs final_dir => on_fs (handle_failsafe_songs songs final_dir))
                "Psalms" 23%Z "1-6" "hymn" "Psalm 23" None Sample.empty_world)
      as (Hcaught & _); [split; reflexivity|].
    edestruct Hcaught with (attempt := 3) (pre := [1; 2]) (post := @nil nat)
                           (e := "timer failure")
      as (o & f' & _ & _ & _ & _ & Hfatal).
    + reflexivity.
    + vm_compute. reflexivity.
    + right. left. do 2 eexists. split; reflexivity.
    + destruct (Hfatal eq_refl) as (r & _ & Hrun & Hs & Ht & Hf).
      exists r, f'. auto.
  - destruct (attempt_exceptions_are_contained
                (generate_songs Sample.generate_handler_ok) Sample.sleep_cancelled
                (download_both_songs Sample.download_handler)
                (review_all_songs (call_review_api (Sample.review_endpoint "continue")))
                (fun review_results final_dir =>
                   on_fs (process_song_verdicts review_results final_dir))
                (fun review_results final_dir =>
                   on_fs (process_song_verdicts_final_attempt review_results final_dir))
                (fun songs final_dir => on_fs (handle_failsafe_songs songs final_dir))
                "Psalms" 23%Z "1-6" "hymn" "Psalm 23" None Sample.empty_world)
      as (_ & Hthrough & _); [split; reflexivity|].
    edestruct (Hthrough 1 [] [2; 3] (entry_frame Sample.empty_world) "CancelledError")
      as (f' & Hrun & _).
    + reflexivity.
    + reflexivity.
    + right. left. do 2 eexists. split; reflexivity.
    + exists f'. exact Hrun.
Defined.

(** Where the claim fails.  The claim reads: whatever exception the wait
    raises, it is caught at the attempt boundary, so the run still returns a
    result.  When the task is cancelled during the wait, the exception is
    not an [Exception]: it leaves [execute_song_workflow]. *)
Lemma cancellation_leaves_the_workflow_counterexample :
  ~ (forall (asyncio_sleep : Z -> M (world Sample.services) unit) (e : exn),
        (forall seconds w, asyncio_sleep seconds w = (Raised e, w)) ->
        exists r f',
          Sample.run_program asyncio_sleep (Sample.review_endpoint "continue")
            Sample.empty_world
          = (Returned r, f')).
Proof.
  intros Hclaim.
  destruct (Hclaim Sample.sleep_cancelled (BaseException "CancelledError")
              (fun _ _ => eq_refl)) as (r & f' & Hrun).
  vm_compute in Hrun. discriminate Hrun.
Qed.

(** Generation reports an invalid result on each attempt. *)
Lemma reported_generation_failures_exhaust_witness :
  exists r f',
    Sample.run_workflow Sample.generate_handler_invalid "continue" Sample.empty_world
    = (Returned r, f')
    /\ r !! "success" = Some (VBool true)
    /\ r !! "final_songs_count" = Some (VInt 0)
    /\ r !! "good_songs" = Some (VInt 0)
    /\ final_attempt_songs f' = []
    /\ console f'
       = [EvAttempt 1; EvGenerate; EvAttempt 2; EvGenerate; EvAttempt 3; EvGenerate].
Proof.
  edestruct (reported_generation_failures_exhaust
               (generate_songs Sample.generate_handler_invalid) Sample.sleep_ok
               (download_both_songs Sample.download_handler)
               (review_all_songs (call_review_api (Sample.review_endpoint "continue")))
               (fun review_results final_dir =>
                  on_fs (process_song_verdicts review_results final_dir))
               (fun review_results final_dir =>
                  on_fs (process_song_verdicts_final_attempt review_results final_dir))
               (fun songs final_dir => on_fs (handle_failsafe_songs songs final_dir))
               "Psalms" 23%Z "1-6" "hymn" "Psalm 23" None Sample.empty_world)
    as [(r & f' & Hrun & Hs & Hf & Hg & _ & Hnil & Hc & _) _].
  - split; reflexivity.
  - reflexivity.
  - reflexivity.
  - reflexivity.
  - exists r, f'. auto 10.
Defined.

(** A run of the workflow over the routines of this module. *)
Lemma workflow_result_fields_witness :
  let '(o, f') :=
    Sample.run_workflow Sample.generate_handler_ok "re-roll" Sample.empty_world in
  match o with
  | Returned r =>
      Forall (fun key => is_Some (r !! key))
        ["success"; "total_attempts"; "final_songs_count"; "message"; "workflow_details"]
  | Raised _ => True
  end.
Proof.
  unfold Sample.run_workflow, workflow.
  pose proof (proj1 (workflow_result_fields
                (generate_songs Sample.generate_handler_ok) Sample.sleep_ok
                (download_both_songs Sample.download_handler)
                (review_all_songs (call_review_api (Sample.review_endpoint "re-roll")))
                (fun review_results final_dir =>
                   on_fs (process_song_verdicts review_results final_dir))
                (fun review_results final_dir =>
                   on_fs (process_song_verdicts_final_attempt review_results final_dir))
                (fun songs final_dir => on_fs (handle_failsafe_songs songs final_dir))
                "Psalms" 23%Z "1-6" "hymn" "Psalm 23" None Sample.empty_world)) as H.
  match type of H with
  | (forall r f', ?run = _ -> _) => destruct run as [[r|e] f']
  end.
  - exact (proj1 (H r f' eq_refl)).
  - exact I.
Defined.

(** Where the claim fails.  The claim reads: every invocation returns one
    result, and that result has the seven fields.  When the staging
    directory cannot be created, [os.makedirs] raises before the first
    attempt, outside every [try]: the invocation returns nothing. *)
Lemma refused_directory_gives_no_result_counterexample :
  ~ (forall (w : world Sample.services),
        exists r f',
          Sample.run_workflow Sample.generate_handler_ok "continue" w = (Returned r, f')
          /\ Forall (fun key => is_Some (r !! key))
               ["success"; "total_attempts"; "final_songs_count"; "good_songs";
                "re_rolled_songs"; "message"; "workflow_details"]).
Proof.
  intros Hclaim.
  destruct (Hclaim (Sample.world_refusing ["backend/songs/temp"]))
    as (r & f' & Hrun & _).
  vm_compute in Hrun. discriminate Hrun.
Qed.

(** The task is cancelled while the review of the last attempt is awaited,
    after both songs were staged: the run raises, both songs were captured
    as candidates, the fail-safe was not invoked, and both songs are still
    in staging. *)
Lemma final_attempt_exception_skips_failsafe_witness :
  exists f',
    Sample.run_program Sample.sleep_ok Sample.review_endpoint_cancelled_late
      Sample.empty_world
    = (Raised (BaseException "CancelledError"), f')
    /\ final_attempt_songs f' = [Sample.song_a; Sample.song_b]
    /\ ~ In EvFailsafe (console f')
    /\ files (fs (world_of f')) !! Song.file_path Sample.song_a = Some "audio a"
    /\ files (fs (world_of f')) !! Song.file_path Sample.song_b = Some "audio b".
Proof.
  destruct final_attempt_exception_skips_failsafe as (Hgeneric & _).
  edestruct (Hgeneric Sample.services
               (generate_songs Sample.generate_handler_ok) Sample.sleep_ok
               (download_both_songs Sample.download_handler)
               (review_all_songs (call_review_api Sample.review_endpoint_cancelled_late))
               (fun review_results final_dir =>
                  on_fs (process_song_verdicts review_results final_dir))
               (fun review_results final_dir =>
                  on_fs (process_song_verdicts_final_attempt review_results final_dir))
               (fun songs final_dir => on_fs (handle_failsafe_songs songs final_dir))
               "Psalms" 23%Z "1-6" "hymn" "Psalm 23" None Sample.empty_world)
    as (o & f' & Hrun & Hout & Hsongs & Hno & Hw).
  - split; reflexivity.
  - vm_compute. reflexivity.
  - reflexivity.
  - reflexivity.
  - vm_compute. reflexivity.
  - left. vm_compute. reflexivity.
  - cbv beta iota in Hout. subst o.
    exists f'. split; [exact Hrun|]. split; [exact Hsongs|]. split; [exact Hno|].
    rewrite Hw. split; vm_compute; reflexivity.
Defined.

(** Where the claim fails.  The claim reads: when an exception is raised in
    the review of the last attempt, after the candidates were captured, the
    function returns the fatal result.  When that exception is the
    cancellation of the task, raised while the reply of the reviewer is
    awaited, nothing catches it: the function raises and returns no
    result. *)
Lemma cancelled_review_gives_no_fatal_result_counterexample :
  ~ (forall (review_song_endpoint :
               SongReviewRequest -> M (world Sample.services) SongReviewResponse),
        (exists f g w1 w2 songs msg w3 e w_exc,
            attempt_loop
              (generate_songs Sample.generate_handler_ok) Sample.sleep_ok
              (download_both_songs Sample.download_handler)
              (review_all_songs (call_review_api review_song_endpoint))
              (fun review_results final_dir =>
                 on_fs (process_song_verdicts review_results final_dir))
              (fun review_results final_dir =>
                 on_fs (process_song_verdicts_final_attempt review_results final_dir))
              "Psalms" 23%Z "1-6" "hymn" "Psalm 23" None [1; 2]
              (entry_frame Sample.empty_world)
            = (Returned None, f)
            /\ generate_songs Sample.generate_handler_ok "Psalms" 23%Z "1-6" "hymn" "Psalm 23"
                 (world_of f)
               = (Returned (GenerationSucceeded g), w1)
            /\ Sample.sleep_ok (3 * 60)%Z w1 = (Returned tt, w2)
            /\ download_both_songs Sample.download_handler "Psalm 23" temp_dir w2
               = (Returned (DownloadSucceeded songs msg), w3)
            /\ review_all_songs (call_review_api review_song_endpoint) songs None w3
               = (Raised e, w_exc)) ->
        exists r f',
          Sample.run_program Sample.sleep_ok review_song_endpoint Sample.empty_world
          = (Returned r, f')
          /\ r !! "success" = Some (VBool false)).
Proof.
  intros Hclaim.
  destruct (Hclaim Sample.review_endpoint_cancelled_late) as (r & f' & Hrun & _).
  - do 9 eexists. split; [vm_compute; reflexivity|].
    split; [vm_compute; reflexivity|]. split; [reflexivity|].
    split; vm_compute; reflexivity.
  - vm_compute in Hrun. discriminate Hrun.
Qed.

(** A wait that fails with an [Exception] on every attempt: the fatal
    result has an [error] and neither of the two song counts. *)
Example fatal_result_has_no_song_counts :
  let '(o, f) :=
    Sample.run_program Sample.sleep_fails (Sample.review_endpoint "continue")
      Sample.empty_world in
  match o with
  | Returned r =>
      r !! "success" = Some (VBool false)
      /\ r !! "good_songs" = None
      /\ r !! "re_rolled_songs" = None
      /\ r !! "error" = Some (VStr "Critical error on attempt 3: timer failure")
  | Raised _ => False
  end.
Proof. vm_compute. auto. Qed.

(** Every song rejected on all three attempts: the fail-safe promotes the
    two songs of the last attempt under marked names. *)
Example rejected_songs_are_promoted_by_failsafe :
  let '(o, f) := Sample.run_workflow Sample.generate_handler_ok "re-roll" Sample.empty_world in
  match o with
  | Returned r =>
      r !! "success" = Some (VBool true)
      /\ r !! "total_attempts" = Some (VInt 3)
      /\ r !! "final_songs_count" = Some (VInt 2)
      /\ r !! "good_songs" = Some (VInt 0)
      /\ r !! "re_rolled_songs" = Some (VInt 4)
  | Raised _ => False
  end
  /\ files (fs (world_of f)) !! "backend/songs/final_review/psalm_a_FAILSAFE.mp3"
     = Some "audio a"
  /\ files (fs (world_of f)) !! "backend/songs/final_review/psalm_b_FAILSAFE.mp3"
     = Some "audio b"
  /\ files (fs (world_of f)) !! "backend/songs/temp/psalm_a.mp3" = None
  /\ last (console f) = Some EvFailsafe.
Proof. vm_compute. repeat split. Qed.

(** One song approved and one rejected on the first attempt. *)
Example mixed_verdicts_return_at_once :
  let '(o, f) :=
    Sample.run_program Sample.sleep_ok Sample.review_endpoint_mixed Sample.empty_world in
  match o with
  | Returned r =>
      r !! "success" = Some (VBool true)
      /\ r !! "total_attempts" = Some (VInt 1)
      /\ r !! "final_songs_count" = Some (VInt 1)
      /\ r !! "re_rolled_songs" = Some (VInt 1)
  | Raised _ => False
  end
  /\ files (fs (world_of f)) !! "backend/songs/final_review/psalm_a.mp3" = Some "audio a"
  /\ files (fs (world_of f)) !! "backend/songs/temp/psalm_b.mp3" = None.
Proof. vm_compute. repeat split. Qed.

(** A reviewer that cannot be reached: both songs get the verdict "error"
    and the review step returns normally. *)
Example unreachable_reviewer_gives_error_verdicts :
  let '(o, _) :=
    review_all_songs (call_review_api Sample.review_endpoint_down)
      [Sample.song_a; Sample.song_b] None Sample.empty_world in
  match o with
  | Returned review_results =>
      map Review.verdict review_results = ["error"; "error"]
      /\ map Review.file_path review_results
         = [Song.file_path Sample.song_a; Song.file_path Sample.song_b]
  | Raised _ => False
  end.
Proof. vm_compute. split; reflexivity. Qed.

(** * Part III: whole batches, whole runs *)

(** ** Fail-safe names *)

Module FailsafeNames.

Import OsPath OsPathFacts.
Local Open Scope Z_scope.

Lemma rfind_upper c p : rfind c p < Z.of_nat (String.length p).
Proof.
  induction p as [|a r IH]; cbn [rfind String.length]; [lia|].
  destruct (Z.leb_spec 0 (rfind c r)); [lia|].
  destruct (Ascii.eqb a c); lia.
Qed.

Lemma rfind_app c a b :
  rfind c (a +:+ b)
  = if 0 <=? rfind c b then Z.of_nat (String.length a) + rfind c b else rfind c a.
Proof.
  induction a as [|h a IH].
  - rewrite append_nil. cbn [String.length rfind].
    pose proof (rfind_lower c b).
    destruct (Z.leb_spec 0 (rfind c b)); lia.
  - rewrite append_cons. cbn [rfind String.length]. rewrite IH.
    pose proof (rfind_lower c a).
    destruct (Z.leb_spec 0 (rfind c b)).
    + destruct (Z.leb_spec 0 (Z.of_nat (String.length a) + rfind c b)); lia.
    + reflexivity.
Qed.

Lemma string_length_app (a b : string) :
  String.length (a +:+ b) = (String.length a + String.length b)%nat.
Proof.
  induction a as [|h a IH]; [reflexivity|].
  rewrite append_cons. cbn [String.length]. now rewrite IH.
Qed.

Lemma slice_to_app_length a b : slice_to (String.length a) (a +:+ b) = a.
Proof.
  induction a as [|h a IH]; [now destruct b|].
  rewrite append_cons. cbn [String.length slice_to]. now rewrite IH.
Qed.

Lemma slice_from_app_length a b : slice_from (String.length a) (a +:+ b) = b.
Proof.
  induction a as [|h a IH]; [reflexivity|].
  rewrite append_cons. cbn [String.length slice_from]. exact IH.
Qed.

Lemma slice_to_app_le n a b :
  (n <= String.length a)%nat -> slice_to n (a +:+ b) = slice_to n a.
Proof.
  revert a. induction n as [|n IH]; intros a Hn; [reflexivity|].
  destruct a as [|h a]; cbn [String.length] in Hn; [lia|].
  rewrite append_cons. cbn [slice_to]. rewrite IH by lia. reflexivity.
Qed.

Lemma length_slice_to n p :
  (n <= String.length p)%nat -> String.length (slice_to n p) = n.
Proof.
  revert p. induction n as [|n IH]; intros p Hn; [reflexivity|].
  destruct p as [|h p]; cbn [String.length] in Hn; [lia|].
  cbn [slice_to String.length]. rewrite IH by lia. reflexivity.
Qed.

Lemma has_non_dot_app a b : has_non_dot (a +:+ b) = has_non_dot a || has_non_dot b.
Proof.
  induction a as [|h a IH]; [reflexivity|].
  rewrite append_cons. cbn [has_non_dot]. rewrite IH. now rewrite orb_assoc.
Qed.

(** From the last occurrence on, the character occurs once, in front. *)
Lemma rfind_slice_from c p :
  0 <= rfind c p -> rfind c (slice_from (Z.to_nat (rfind c p)) p) = 0.
Proof.
  induction p as [|a r IH]; cbn [rfind]; [lia|].
  pose proof (rfind_lower c r).
  destruct (Z.leb_spec 0 (rfind c r)) as [Hge|Hlt].
  - intros _. replace (Z.to_nat (rfind c r + 1)) with (S (Z.to_nat (rfind c r))) by lia.
    cbn [slice_from]. now apply IH.
  - destruct (Ascii.eqb a c) eqn:Heq; [|lia].
    intros _. change (Z.to_nat 0) with 0%nat. cbn [slice_from rfind].
    destruct (Z.leb_spec 0 (rfind c r)); [lia|]. now rewrite Heq.
Qed.

(** Splitting a marked name gives the marked stem and the extension of the
    original name. *)
Lemma splitext_marked b name_part ext :
  sep_free b ->
  splitext b = (name_part, ext) ->
  splitext (name_part +:+ failsafe_marker +:+ ext) = (name_part +:+ failsafe_marker, ext).
Proof.
  intros Hb. unfold splitext at 1. unfold sep_free in Hb. rewrite Hb.
  change (-1 + 1) with 0. change (slice_from (Z.to_nat 0) b) with b.
  pose proof (rfind_lower extsep b) as Hlow.
  pose proof (rfind_upper extsep b) as Hup.
  destruct ((-1 <? rfind extsep b)
            && has_non_dot (slice_to (Z.to_nat (rfind extsep b - 0)) b)) eqn:Hcond.
  - (* the name has an extension *)
    intros [= <- <-].
    apply andb_true_iff in Hcond as [Hdot Hnon]. apply Z.ltb_lt in Hdot.
    set (d := Z.to_nat (rfind extsep b)) in *.
    assert (Hd : (d <= String.length b)%nat) by lia.
    assert (Hsep : sep_free (slice_to d b +:+ failsafe_marker +:+ slice_from d b)).
    { apply sep_free_app. split; [now apply sep_free_slice_to|].
      apply sep_free_app. split; [reflexivity | now apply sep_free_slice_from]. }
    assert (Hext : rfind extsep (slice_from d b) = 0).
    { apply rfind_slice_from. lia. }
    assert (Hrf : rfind extsep (slice_to d b +:+ failsafe_marker +:+ slice_from d b)
                  = Z.of_nat (String.length (slice_to d b +:+ failsafe_marker))).
    { assert (Hme : rfind extsep (failsafe_marker +:+ slice_from d b) = 9).
      { rewrite rfind_app, Hext. reflexivity. }
      rewrite rfind_app, Hme, string_length_app. change (0 <=? 9) with true. cbn iota.
      change (String.length failsafe_marker) with 9%nat. lia. }
    unfold splitext. unfold sep_free in Hsep. rewrite Hsep, Hrf.
    change (-1 + 1) with 0.
    change (slice_from (Z.to_nat 0) ?x) with x.
    rewrite Z.sub_0_r, Nat2Z.id.
    rewrite <- (append_assoc (slice_to d b) failsafe_marker (slice_from d b)).
    rewrite slice_to_app_length, slice_from_app_length.
    rewrite has_non_dot_app. replace (has_non_dot failsafe_marker) with true by reflexivity.
    rewrite orb_true_r, andb_true_r.
    destruct (Z.ltb_spec (-1) (Z.of_nat (String.length (slice_to d b +:+ failsafe_marker))));
      [reflexivity | lia].
  - (* no extension *)
    intros [= <- <-].
    change (failsafe_marker +:+ EmptyString) with failsafe_marker.
    assert (Hsep : sep_free (b +:+ failsafe_marker)) by (apply sep_free_app; split; [exact Hb | reflexivity]).
    assert (Hrf : rfind extsep (b +:+ failsafe_marker) = rfind extsep b).
    { rewrite rfind_app. reflexivity. }
    unfold splitext. unfold sep_free in Hsep. rewrite Hsep, Hrf.
    change (-1 + 1) with 0.
    change (slice_from (Z.to_nat 0) ?x) with x.
    destruct (Z.ltb_spec (-1) (rfind extsep b)) as [Hdot|Hdot]; [|reflexivity].
    cbn [andb] in Hcond |- *.
    rewrite slice_to_app_le by lia. now rewrite Hcond.
Qed.

Lemma append_inv_tail (a b c : string) : a +:+ c = b +:+ c -> a = b.
Proof.
  revert b. induction a as [|h a IH]; intros [|k b]; rewrite ?append_nil, ?append_cons.
  - reflexivity.
  - intros H. apply (f_equal String.length) in H.
    cbn [String.length] in H. rewrite string_length_app in H. lia.
  - intros H. apply (f_equal String.length) in H.
    cbn [String.length] in H. rewrite string_length_app in H. lia.
  - intros [= -> H]. f_equal. now apply IH.
Qed.

End FailsafeNames.

(** ** The verdict router on whole batches *)

Section RouterBatches.

Variable final_dir : string.

(** What one step of the normal-mode loop can do. *)
Lemma process_verdict_cases c (fs : filesystem) r :
  let file_path := Review.file_path r in
  process_verdict final_dir (c, fs) r = (c, fs)
  \/ (exists content,
        Review.verdict r = "continue" /\ files fs !! file_path = Some content
        /\ process_verdict final_dir (c, fs) r
           = (incr_kept c,
              renamed file_path (final_path_of final_dir file_path) content fs))
  \/ (Review.verdict r = "re-roll" /\ is_Some (files fs !! file_path)
      /\ process_verdict final_dir (c, fs) r = (incr_deleted c, unlinked file_path fs)).
Proof.
  cbv zeta.
  destruct (files fs !! Review.file_path r) as [content|] eqn:Hex;
    [|left; now apply process_verdict_missing].
  destruct (String.eqb_spec (Review.verdict r) "continue") as [Hv|Hv].
  - destruct (os_refuses (Review.file_path r) fs) eqn:Hs;
      [left; apply (process_verdict_continue_refused final_dir c fs r content Hv Hex);
       now rewrite Hs|].
    destruct (os_refuses (final_path_of final_dir (Review.file_path r)) fs) eqn:Hd;
      [left; apply (process_verdict_continue_refused final_dir c fs r content Hv Hex);
       now rewrite Hs, Hd|].
    right. left. exists content.
    now rewrite (process_verdict_continue final_dir c fs r content Hv Hex Hs Hd).
  - destruct (String.eqb_spec (Review.verdict r) "re-roll") as [Hv'|Hv'];
      [|left; now apply process_verdict_other].
    destruct (os_refuses (Review.file_path r) fs) eqn:Hs;
      [left; now apply (process_verdict_reroll_refused final_dir c fs r content)|].
    right. right.
    rewrite (process_verdict_reroll final_dir c fs r content Hv' Hex Hs). eauto.
Qed.

Lemma final_path_in_final_dir p : OsPath.in_dir final_dir (final_path_of final_dir p).
Proof. apply OsPathFacts.in_dir_join, OsPathFacts.basename_sep_free. Qed.

(** What the operating system refuses is not changed by the routers. *)
Lemma process_verdict_refused c (fs : filesystem) r :
  refused (process_verdict final_dir (c, fs) r).2 = refused fs.
Proof.
  destruct (process_verdict_cases c fs r) as [->|[(content & _ & _ & ->)|(_ & _ & ->)]];
    reflexivity.
Qed.




Lemma normal_loop_refused results c (fs : filesystem) :
  refused (fold_left (process_verdict final_dir) results (c, fs)).2 = refused fs.
Proof.
  revert c fs. induction results as [|r results IH]; intros c fs; cbn [fold_left].
  - reflexivity.
  - pose proof (process_verdict_refused c fs r) as H.
    destruct (process_verdict final_dir (c, fs) r) as [c1 fs1]. cbn in H.
    now rewrite IH.
Qed.

Lemma process_verdict_keeps_absent c (fs : filesystem) r q :
  ~ OsPath.in_dir final_dir q ->
  files fs !! q = None ->
  files (process_verdict final_dir (c, fs) r).2 !! q = None.
Proof.
  intros Hq Hnone.
  assert (Hdst : final_path_of final_dir (Review.file_path r) <> q).
  { intros <-. apply Hq, final_path_in_final_dir. }
  destruct (process_verdict_cases c fs r) as [->|[(content & _ & _ & ->)|(_ & _ & ->)]];
    cbn.
  - exact Hnone.
  - rewrite lookup_insert_ne by exact Hdst.
    rewrite lookup_delete. destruct (decide _); [reflexivity | exact Hnone].
  - rewrite lookup_delete. destruct (decide _); [reflexivity | exact Hnone].
Qed.

(** An artifact whose move or removal the operating system does not refuse. *)
Local Abbreviation routable fs r :=
  (os_refuses (Review.file_path r) fs = false
   /\ (Review.verdict r = "continue" ->
       os_refuses (final_path_of final_dir (Review.file_path r)) fs = false)).

Lemma process_verdict_removes_own c (fs : filesystem) r :
  ~ OsPath.in_dir final_dir (Review.file_path r) ->
  Review.verdict r = "continue" \/ Review.verdict r = "re-roll" ->
  routable fs r ->
  files (process_verdict final_dir (c, fs) r).2 !! Review.file_path r = None.
Proof.
  intros Hq Hv [Hs Hd].
  destruct (files fs !! Review.file_path r) as [content|] eqn:Hex.
  - destruct Hv as [Hv|Hv].
    + rewrite (process_verdict_continue final_dir c fs r content Hv Hex Hs (Hd Hv)). cbn.
      rewrite lookup_insert_ne; [apply lookup_delete_eq|].
      intros Heq. apply Hq. rewrite <- Heq. apply final_path_in_final_dir.
    + rewrite (process_verdict_reroll final_dir c fs r content Hv Hex Hs). cbn.
      apply lookup_delete_eq.
  - now rewrite (process_verdict_missing final_dir c fs r Hex).
Qed.

(** After the normal-mode loop no approved or rejected artifact that the
    operating system lets go is left at a path outside final storage. *)
Lemma normal_loop_clears results c (fs : filesystem) q :
  ~ OsPath.in_dir final_dir q ->
  files fs !! q = None
  \/ Exists (fun r => Review.file_path r = q
                      /\ (Review.verdict r = "continue" \/ Review.verdict r = "re-roll")
                      /\ routable fs r)
       results ->
  files (fold_left (process_verdict final_dir) results (c, fs)).2 !! q = None.
Proof.
  intros Hq. revert c fs.
  induction results as [|r results IH]; intros c fs Hcase; cbn [fold_left].
  - destruct Hcase as [H|H]; [exact H | inversion H].
  - pose proof (process_verdict_refused c fs r) as Href.
    destruct (process_verdict final_dir (c, fs) r) as [c1 fs1] eqn:Hstep.
    cbn [snd] in Href.
    apply IH.
    destruct Hcase as [Hnone|Hin].
    + left. pose proof (process_verdict_keeps_absent c fs r q Hq Hnone) as H.
      now rewrite Hstep in H.
    + apply Exists_cons in Hin as [(Heq & Hv & Hok)|Hin].
      * left. subst q. pose proof (process_verdict_removes_own c fs r Hq Hv Hok) as H.
        now rewrite Hstep in H.
      * right. eapply Exists_impl; [exact Hin|].
        intros r0 (H1 & H2 & H3). split; [exact H1|]. split; [exact H2|].
        unfold os_refuses in *. now rewrite Href.
Qed.


(** X3.  Normal-mode routing empties staging, unless the operating system
    refuses.  If an artifact of the batch has the verdict "continue" or
    "re-roll", its path does not name an entry of final storage, and the
    file system refuses neither to take the file out of staging nor, for an
    approved artifact, to put it at its final path, then nothing is left at
    that path when [process_song_verdicts] returns, wherever the artifact
    stands in the batch and whatever the other artifacts are, and whatever
    is refused for those. *)
Theorem process_song_verdicts_clears_staging
    (review_results : list Review.t) (fs : filesystem) (r : Review.t) :
  In r review_results ->
  Review.verdict r = "continue" \/ Review.verdict r = "re-roll" ->
  ~ OsPath.in_dir final_dir (Review.file_path r) ->
  os_refuses (Review.file_path r) fs = false ->
  (Review.verdict r = "continue" ->
   os_refuses (final_path_of final_dir (Review.file_path r)) fs = false) ->
  files (process_song_verdicts review_results final_dir fs).2 !! Review.file_path r = None.
Proof.
  intros Hin Hv Hstaged Hs Hd. unfold process_song_verdicts.
  pose proof (normal_loop_clears review_results no_counts fs (Review.file_path r) Hstaged)
    as H.
  destruct (fold_left (process_verdict final_dir) review_results (no_counts, fs))
    as [c' fs'].
  apply H. right. apply Exists_exists. exists r.
  split; [now apply list_elem_of_In | auto].
Qed.





(** The two loops side by side on an artifact that is not rejected. *)
Lemma routers_step_agree c1 c2 (fs : filesystem) r :
  Review.verdict r <> "re-roll" ->
  kept c1 = kept c2 ->
  let n := process_verdict final_dir (c1, fs) r in
  let f := process_verdict_final_attempt final_dir (c2, fs) r in
  n.2 = f.2 /\ kept n.1 = kept f.1 /\ deleted n.1 = deleted c1.
Proof.
  intros Hv Hk. cbv zeta. unfold process_verdict, process_verdict_final_attempt.
  destruct (String.eqb_spec (Review.verdict r) "continue") as [Hc|Hc].
  - destruct (os_path_exists _ fs); [|auto].
    destruct (shutil_move _ _ fs) as [[|message] fs1]; cbn; repeat split; auto; lia.
  - destruct (String.eqb_spec (Review.verdict r) "re-roll"); [contradiction|]. cbn. auto.
Qed.

Lemma routers_loop_agree results c1 c2 (fs : filesystem) :
  Forall (fun r => Review.verdict r <> "re-roll") results ->
  kept c1 = kept c2 ->
  let n := fold_left (process_verdict final_dir) results (c1, fs) in
  let f := fold_left (process_verdict_final_attempt final_dir) results (c2, fs) in
  n.2 = f.2 /\ kept n.1 = kept f.1 /\ deleted n.1 = deleted c1.
Proof.
  revert c1 c2 fs. induction results as [|r results IH]; intros c1 c2 fs Hall Hk;
    cbn [fold_left].
  - cbn. auto.
  - inversion Hall as [|? ? Hv Hrest]; subst.
    destruct (routers_step_agree c1 c2 fs r Hv Hk) as (Hfs & Hk' & Hd).
    destruct (process_verdict final_dir (c1, fs) r) as [n1 fsn].
    destruct (process_verdict_final_attempt final_dir (c2, fs) r) as [f1 fsf].
    cbn in Hfs, Hk', Hd. subst fsf.
    destruct (IH n1 f1 fsn Hrest Hk') as (H1 & H2 & H3).
    cbv zeta. rewrite H1, H2, H3. auto.
Qed.

(** X5.  The two modes differ only on rejected artifacts.  On a batch
    without the verdict "re-roll", [process_song_verdicts] and
    [process_song_verdicts_final_attempt] leave the same file system and
    report the same kept-count, and nothing is deleted. *)
Theorem routers_agree_without_rejections
    (review_results : list Review.t) (fs : filesystem) :
  Forall (fun r => Review.verdict r <> "re-roll") review_results ->
  let normal := process_song_verdicts review_results final_dir fs in
  let final := process_song_verdicts_final_attempt review_results final_dir fs in
  normal.2 = final.2
  /\ kept_count normal.1 = kept_count final.1
  /\ deleted_count normal.1 = 0.
Proof.
  intros Hall. cbv zeta. unfold process_song_verdicts, process_song_verdicts_final_attempt.
  destruct (routers_loop_agree review_results no_counts no_counts fs Hall eq_refl)
    as (H1 & H2 & H3).
  destruct (fold_left (process_verdict final_dir) review_results (no_counts, fs))
    as [cn fsn].
  destruct (fold_left (process_verdict_final_attempt final_dir) review_results
              (no_counts, fs)) as [cf fsf].
  cbn in *. auto.
Qed.

End RouterBatches.


(** The rejected song of a mixed batch is gone from staging, although the
    approved one could not be moved. *)
Lemma process_song_verdicts_clears_staging_witness :
  let review_results :=
    [Sample.review_of Sample.song_a "continue"; Sample.review_of Sample.song_b "re-roll"] in
  files (process_song_verdicts review_results verify_final_destination_folder
           (Sample.staged_refusing ["backend/songs/final_review/psalm_a.mp3"])).2
    !! Song.file_path Sample.song_b = None.
Proof.
  intros review_results.
  apply (process_song_verdicts_clears_staging verify_final_destination_folder
           review_results
           (Sample.staged_refusing ["backend/songs/final_review/psalm_a.mp3"])
           (Sample.review_of Sample.song_b "re-roll")).
  - right. left. reflexivity.
  - right. reflexivity.
  - intros Hin. vm_compute in Hin. discriminate Hin.
  - reflexivity.
  - discriminate.
Defined.


(** An approved song and one with an unclear verdict. *)
Lemma routers_agree_without_rejections_witness :
  let review_results :=
    [Sample.review_of Sample.song_a "continue"; Sample.review_of Sample.song_b "error"] in
  Forall (fun r => Review.verdict r <> "re-roll") review_results
  /\ (process_song_verdicts review_results verify_final_destination_folder Sample.staged).2
     = (process_song_verdicts_final_attempt review_results verify_final_destination_folder
          Sample.staged).2.
Proof.
  intros review_results.
  assert (H : Forall (fun r => Review.verdict r <> "re-roll") review_results)
    by (repeat constructor; discriminate).
  split; [exact H|].
  exact (proj1 (routers_agree_without_rejections verify_final_destination_folder
                  review_results Sample.staged H)).
Defined.

(** ** The fail-safe handler on whole candidate sets *)

Section FailsafeBatches.

Variable final_dir : string.

Lemma failsafe_path_basename p name_part ext :
  OsPath.splitext (OsPath.basename p) = (name_part, ext) ->
  OsPath.basename (failsafe_path_of final_dir p) = name_part +:+ failsafe_marker +:+ ext.
Proof.
  intros Hsplit. unfold failsafe_path_of. rewrite Hsplit.
  apply OsPathFacts.basename_join.
  destruct (OsPathFacts.splitext_sep_free _ _ _ (OsPathFacts.basename_sep_free p) Hsplit)
    as [Hn He].
  apply OsPathFacts.sep_free_app. split; [exact Hn|].
  apply OsPathFacts.sep_free_app. split; [reflexivity | exact He].
Qed.

Lemma failsafe_path_injective p p' :
  failsafe_path_of final_dir p' = failsafe_path_of final_dir p ->
  OsPath.basename p' = OsPath.basename p.
Proof.
  intros Heq.
  destruct (OsPath.splitext (OsPath.basename p)) as [n e] eqn:Hs.
  destruct (OsPath.splitext (OsPath.basename p')) as [n' e'] eqn:Hs'.
  apply (f_equal OsPath.basename) in Heq.
  rewrite (failsafe_path_basename p n e Hs), (failsafe_path_basename p' n' e' Hs') in Heq.
  pose proof (FailsafeNames.splitext_marked _ _ _ (OsPathFacts.basename_sep_free p) Hs) as Hm.
  pose proof (FailsafeNames.splitext_marked _ _ _ (OsPathFacts.basename_sep_free p') Hs')
    as Hm'.
  rewrite Heq, Hm in Hm'. injection Hm' as Hn He.
  apply FailsafeNames.append_inv_tail in Hn.
  rewrite <- (OsPathFacts.splitext_app _ _ _ Hs), <- (OsPathFacts.splitext_app _ _ _ Hs').
  congruence.
Qed.

(** X6.  Fail-safe names can be read back.  If the file name of [p] splits
    into [name_part] and [ext], the promoted file is called
    [name_part_FAILSAFE ext]: splitting that name gives the marked stem and
    the original extension, and two candidates are promoted to the same path
    only if they have the same file name. *)
Theorem failsafe_name_is_reversible (p name_part ext : string) :
  OsPath.splitext (OsPath.basename p) = (name_part, ext) ->
  OsPath.basename (failsafe_path_of final_dir p) = name_part +:+ "_FAILSAFE" +:+ ext
  /\ OsPath.splitext (OsPath.basename (failsafe_path_of final_dir p))
     = (name_part +:+ "_FAILSAFE", ext)
  /\ (forall p',
        failsafe_path_of final_dir p' = failsafe_path_of final_dir p ->
        OsPath.basename p' = OsPath.basename p).
Proof.
  intros Hsplit. split; [now apply failsafe_path_basename|]. split.
  - rewrite (failsafe_path_basename p name_part ext Hsplit).
    exact (FailsafeNames.splitext_marked _ _ _ (OsPathFacts.basename_sep_free p) Hsplit).
  - intros p'. apply failsafe_path_injective.
Qed.

Lemma failsafe_path_in_final_dir p : OsPath.in_dir final_dir (failsafe_path_of final_dir p).
Proof.
  destruct (failsafe_path_marked final_dir p) as (? & ? & _ & _ & _ & H). exact H.
Qed.

(** The loop leaves alone every path that is neither the staging path nor
    the fail-safe path of a candidate. *)
Lemma failsafe_loop_frame songs c (fs : filesystem) q :
  Forall (fun song => q <> Song.file_path song
                      /\ q <> failsafe_path_of final_dir (Song.file_path song)) songs ->
  files (fold_left (failsafe_song final_dir) songs (c, fs)).2 !! q = files fs !! q.
Proof.
  revert c fs. induction songs as [|song songs IH]; intros c fs Hq; cbn [fold_left].
  - reflexivity.
  - inversion Hq as [|? ? [Hsrc Hdst] Hrest]; subst.
    destruct (failsafe_song_cases final_dir c fs song) as [(content & _ & _ & _ & ->)| ->];
      rewrite (IH _ _ Hrest); [|reflexivity].
    cbn. rewrite lookup_insert_ne by congruence. now rewrite lookup_delete_ne by congruence.
Qed.

(** What the operating system refuses is not changed by the loop. *)
Lemma failsafe_loop_refused songs c (fs : filesystem) :
  refused (fold_left (failsafe_song final_dir) songs (c, fs)).2 = refused fs.
Proof.
  revert c fs. induction songs as [|song songs IH]; intros c fs; cbn [fold_left].
  - reflexivity.
  - destruct (failsafe_song_cases final_dir c fs song) as [(content & _ & _ & _ & ->)| ->];
      now rewrite IH.
Qed.

(** A candidate the handler can promote: it is staged, and the operating
    system refuses neither to take it out of staging nor to put it under its
    fail-safe name. *)
Local Abbreviation promotable fs song :=
  (os_path_exists (Song.file_path song) fs
   && negb (os_refuses (Song.file_path song) fs)
   && negb (os_refuses (failsafe_path_of final_dir (Song.file_path song)) fs)).

Lemma failsafe_song_promotable c (fs : filesystem) song :
  promotable fs song = true ->
  exists content,
    files fs !! Song.file_path song = Some content
    /\ failsafe_song final_dir (c, fs) song
       = (incr_moved c,
          renamed (Song.file_path song) (failsafe_path_of final_dir (Song.file_path song))
            content fs).
Proof.
  intros Hp. apply andb_prop in Hp as [Hp Hd]. apply andb_prop in Hp as [Hex Hs].
  apply negb_true_iff in Hs, Hd.
  apply os_path_exists_true in Hex as [content Hex]. exists content.
  split; [exact Hex|]. now apply failsafe_song_present.
Qed.

Lemma failsafe_song_not_promotable c (fs : filesystem) song :
  promotable fs song = false ->
  failsafe_song final_dir (c, fs) song = (incr_error c, fs).
Proof.
  intros Hp.
  destruct (files fs !! Song.file_path song) as [content|] eqn:Hex;
    [|now apply failsafe_song_absent].
  apply (failsafe_song_refused final_dir c fs song content Hex).
  rewrite (os_path_exists_Some _ _ _ Hex) in Hp. cbn in Hp.
  destruct (os_refuses (Song.file_path song) fs); [reflexivity|].
  destruct (os_refuses (failsafe_path_of final_dir (Song.file_path song)) fs);
    [reflexivity | discriminate Hp].
Qed.

Lemma failsafe_loop_promotes songs c (fs : filesystem) :
  NoDup (map (fun song => OsPath.basename (Song.file_path song)) songs) ->
  Forall (fun song => ~ OsPath.in_dir final_dir (Song.file_path song)) songs ->
  let st := fold_left (failsafe_song final_dir) songs (c, fs) in
  moved_count st.1
  = moved_count c + length (List.filter (fun song => promotable fs song) songs)
  /\ error_count st.1
     = error_count c + length (List.filter (fun song => negb (promotable fs song)) songs)
  /\ (forall song content,
        In song songs ->
        promotable fs song = true ->
        files fs !! Song.file_path song = Some content ->
        files st.2 !! failsafe_path_of final_dir (Song.file_path song) = Some content
        /\ files st.2 !! Song.file_path song = None)
  /\ (forall song,
        In song songs ->
        promotable fs song = false ->
        files st.2 !! Song.file_path song = files fs !! Song.file_path song).
Proof.
  revert c fs. induction songs as [|song songs IH]; intros c fs Hnodup Hstaged;
    cbn [fold_left].
  - cbn. split; [lia|]. split; [lia|]. split; [intros ? ? []|intros ? []].
  - cbn [map] in Hnodup. apply NoDup_cons in Hnodup as [Hfresh Hnodup].
    inversion Hstaged as [|? ? Hhead Hrest]; subst.
    assert (Hothers : forall other, In other songs ->
              Song.file_path other <> Song.file_path song
              /\ failsafe_path_of final_dir (Song.file_path other)
                 <> failsafe_path_of final_dir (Song.file_path song)
              /\ Song.file_path other <> failsafe_path_of final_dir (Song.file_path song)
              /\ failsafe_path_of final_dir (Song.file_path other) <> Song.file_path song).
    { intros other Hin.
      assert (Hbase : OsPath.basename (Song.file_path other)
                      <> OsPath.basename (Song.file_path song)).
      { intros Heq. apply Hfresh. rewrite <- Heq.
        apply list_elem_of_In.
        apply (in_map (fun s => OsPath.basename (Song.file_path s))) in Hin. exact Hin. }
      assert (Hst : ~ OsPath.in_dir final_dir (Song.file_path other)).
      { rewrite List.Forall_forall in Hrest. now apply Hrest. }
      split; [congruence|].
      split; [intros Heq; apply Hbase; now apply failsafe_path_injective|].
      split; intros Heq; [apply Hst; rewrite Heq | apply Hhead; rewrite <- Heq];
        apply failsafe_path_in_final_dir. }
    assert (Hframe : forall c1 fs1,
              files (fold_left (failsafe_song final_dir) songs (c1, fs1)).2
                !! Song.file_path song = files fs1 !! Song.file_path song
              /\ files (fold_left (failsafe_song final_dir) songs (c1, fs1)).2
                   !! failsafe_path_of final_dir (Song.file_path song)
                 = files fs1 !! failsafe_path_of final_dir (Song.file_path song)).
    { intros c1 fs1. split; apply failsafe_loop_frame; apply List.Forall_forall;
        intros other Hin; destruct (Hothers other Hin) as (H1 & H2 & H3 & H4);
        split; congruence. }
    destruct (promotable fs song) eqn:Hp.
    + destruct (failsafe_song_promotable c fs song Hp) as (content0 & Hex & ->).
      set (fs1 := renamed (Song.file_path song)
                    (failsafe_path_of final_dir (Song.file_path song)) content0 fs).
      assert (Hsame : forall other, In other songs ->
                files fs1 !! Song.file_path other = files fs !! Song.file_path other).
      { intros other Hin. destruct (Hothers other Hin) as (H1 & _ & H3 & _).
        subst fs1. cbn. rewrite lookup_insert_ne by congruence.
        now rewrite lookup_delete_ne by congruence. }
      assert (Hpromotable : forall other, In other songs ->
                promotable fs1 other = promotable fs other).
      { intros other Hin. unfold os_path_exists, os_refuses.
        rewrite (Hsame other Hin). reflexivity. }
      destruct (IH (incr_moved c) fs1 Hnodup Hrest) as (Hm & He & Hdest & Hkept).
      cbv zeta. rewrite Hm, He.
      rewrite (List.filter_ext_in (fun s => promotable fs1 s) (fun s => promotable fs s)
                 _ Hpromotable).
      rewrite (List.filter_ext_in (fun s => negb (promotable fs1 s))
                 (fun s => negb (promotable fs s)))
        by (intros other Hin; now rewrite (Hpromotable other Hin)).
      cbn [List.filter]. rewrite Hp.
      cbn. split; [lia|]. split; [lia|]. split.
      * intros target content [<-|Hin] Hpt Htarget.
        -- destruct (Hframe (incr_moved c) fs1) as [Hsrc Hdst].
           rewrite Hsrc, Hdst. subst fs1. cbn.
           rewrite lookup_insert_eq. split; [congruence|].
           rewrite lookup_insert_ne; [apply lookup_delete_eq|].
           intros Heq. apply Hhead. rewrite <- Heq. apply failsafe_path_in_final_dir.
        -- apply Hdest; [exact Hin | now rewrite (Hpromotable target Hin)
                          | now rewrite (Hsame target Hin)].
      * intros target [<-|Hin] Hpt; [congruence|].
        rewrite <- (Hsame target Hin). apply Hkept; [exact Hin|].
        now rewrite (Hpromotable target Hin).
    + rewrite (failsafe_song_not_promotable c fs song Hp).
      destruct (IH (incr_error c) fs Hnodup Hrest) as (Hm & He & Hdest & Hkept).
      cbv zeta. rewrite Hm, He. cbn [List.filter]. rewrite Hp.
      cbn. split; [lia|]. split; [lia|]. split.
      * intros target content [<-|Hin] Hpt Htarget; [congruence|]. now apply Hdest.
      * intros target [<-|Hin] Hpt; [|now apply Hkept].
        exact (proj1 (Hframe (incr_error c) fs)).
Qed.

(** X7.  The fail-safe handler on a whole candidate set.  Call a candidate
    promotable when it is staged and the operating system refuses neither
    its staging path nor its fail-safe name.  When the candidates are
    staging artifacts with pairwise distinct file names, the result depends
    only on the file system the handler starts from: the moved-count is the
    number of promotable candidates and the error-count the number of the
    others; every promotable candidate ends with its content under its
    fail-safe name and is gone from staging; every other candidate is left at
    its staging path exactly as it was, so a staged candidate whose move is
    refused stays in staging; and every path that is neither a candidate nor
    a fail-safe name of one is left as it was. *)
Theorem handle_failsafe_songs_promotes_every_staged_candidate
    (songs : list Song.t) (fs : filesystem) :
  NoDup (map (fun song => OsPath.basename (Song.file_path song)) songs) ->
  Forall (fun song => ~ OsPath.in_dir final_dir (Song.file_path song)) songs ->
  let '(r, fs') := handle_failsafe_songs songs final_dir fs in
  moved_count r = length (List.filter (fun song => promotable fs song) songs)
  /\ error_count r = length (List.filter (fun song => negb (promotable fs song)) songs)
  /\ (forall song content,
        In song songs ->
        files fs !! Song.file_path song = Some content ->
        os_refuses (Song.file_path song) fs = false ->
        os_refuses (failsafe_path_of final_dir (Song.file_path song)) fs = false ->
        files fs' !! failsafe_path_of final_dir (Song.file_path song) = Some content
        /\ files fs' !! Song.file_path song = None)
  /\ (forall song,
        In song songs ->
        promotable fs song = false ->
        files fs' !! Song.file_path song = files fs !! Song.file_path song)
  /\ (forall q,
        Forall (fun song => q <> Song.file_path song
                            /\ q <> failsafe_path_of final_dir (Song.file_path song)) songs ->
        files fs' !! q = files fs !! q).
Proof.
  intros Hnodup Hstaged.
  pose proof (failsafe_loop_promotes songs {| moved_count := 0; error_count := 0 |} fs
                Hnodup Hstaged) as H.
  pose proof (fun q => failsafe_loop_frame songs
                         {| moved_count := 0; error_count := 0 |} fs q) as Hframe.
  unfold handle_failsafe_songs.
  destruct (fold_left (failsafe_song final_dir) songs
              ({| moved_count := 0; error_count := 0 |}, fs)) as [r fs'].
  cbn in H, Hframe. destruct H as (Hm & He & Hdest & Hkept).
  split; [exact Hm|]. split; [exact He|]. split; [|split].
  - intros song content Hin Hex Hs Hd. apply (Hdest song content Hin); [|exact Hex].
    now rewrite (os_path_exists_Some _ _ _ Hex), Hs, Hd.
  - exact Hkept.
  - exact Hframe.
Qed.

End FailsafeBatches.

Lemma failsafe_name_is_reversible_witness :
  OsPath.splitext (OsPath.basename (Song.file_path Sample.song_a)) = ("psalm_a", ".mp3")
  /\ OsPath.splitext
       (OsPath.basename
          (failsafe_path_of verify_final_destination_folder (Song.file_path Sample.song_a)))
     = ("psalm_a" +:+ "_FAILSAFE", ".mp3").
Proof.
  assert (H : OsPath.splitext (OsPath.basename (Song.file_path Sample.song_a))
              = ("psalm_a", ".mp3")) by (vm_compute; reflexivity).
  split; [exact H|].
  exact (proj1 (proj2 (failsafe_name_is_reversible verify_final_destination_folder
                         (Song.file_path Sample.song_a) "psalm_a" ".mp3" H))).
Defined.

(** Two staged candidates, of which the second cannot be written under its
    fail-safe name: one is moved, and the other is still in staging. *)
Lemma handle_failsafe_songs_promotes_every_staged_candidate_witness :
  let final_dir := verify_final_destination_folder in
  let songs := [Sample.song_a; Sample.song_b] in
  let fs := Sample.staged_refusing ["backend/songs/final_review/psalm_b_FAILSAFE.mp3"] in
  NoDup (map (fun song => OsPath.basename (Song.file_path song)) songs)
  /\ Forall (fun song => ~ OsPath.in_dir final_dir (Song.file_path song)) songs
  /\ let '(r, fs') := handle_failsafe_songs songs final_dir fs in
     moved_count r = 1 /\ files fs' !! Song.file_path Sample.song_b = Some "audio b".
Proof.
  intros final_dir songs fs.
  assert (Hnodup : NoDup (map (fun song => OsPath.basename (Song.file_path song)) songs)).
  { vm_compute. apply NoDup_cons. split; [|apply NoDup_singleton].
    intros Hin. apply list_elem_of_In in Hin. destruct Hin as [Heq|[]]. discriminate Heq. }
  assert (Hstaged :
    Forall (fun song => ~ OsPath.in_dir final_dir (Song.file_path song)) songs).
  { repeat constructor; intros Hin; vm_compute in Hin; discriminate Hin. }
  split; [exact Hnodup|]. split; [exact Hstaged|].
  pose proof (handle_failsafe_songs_promotes_every_staged_candidate final_dir songs fs
                Hnodup Hstaged) as H.
  destruct (handle_failsafe_songs songs final_dir fs) as [r fs'].
  destruct H as (Hm & _ & _ & Hkept & _).
  split.
  - rewrite Hm. vm_compute. reflexivity.
  - rewrite (Hkept Sample.song_b).
    + vm_compute. reflexivity.
    + right. left. reflexivity.
    + vm_compute. reflexivity.
Defined.

(** ** The attempt history of a run *)

Section WorkflowHistory.

Context {Ext : Type}.

Variable generate_songs :
  string -> Z -> string -> string -> string -> M (world Ext) generation_result.
Variable asyncio_sleep : Z -> M (world Ext) unit.
Variable download_both_songs : string -> string -> M (world Ext) download_result.
Variable review_all_songs :
  list Song.t -> option Z -> M (world Ext) (list Review.t).
Variable process_song_verdicts :
  list Review.t -> string -> M (world Ext) verdict_result.
Variable process_song_verdicts_final_attempt :
  list Review.t -> string -> M (world Ext) verdict_result.
Variable handle_failsafe_songs :
  list Song.t -> string -> M (world Ext) failsafe_result.
Variables (book_name : string) (chapter : Z) (verse_range style title : string).
Variable song_structure_id : option Z.

Local Abbreviation generate :=
  (generate_songs book_name chapter verse_range style title).
Local Abbreviation iteration :=
  (attempt_iteration generate_songs asyncio_sleep download_both_songs review_all_songs
     process_song_verdicts process_song_verdicts_final_attempt
     book_name chapter verse_range style title song_structure_id).
Local Abbreviation loop :=
  (attempt_loop generate_songs asyncio_sleep download_both_songs review_all_songs
     process_song_verdicts process_song_verdicts_final_attempt
     book_name chapter verse_range style title song_structure_id).
Local Abbreviation run :=
  (execute_song_workflow generate_songs asyncio_sleep download_both_songs
     review_all_songs process_song_verdicts process_song_verdicts_final_attempt
     handle_failsafe_songs
     book_name chapter verse_range style title song_structure_id).
Local Abbreviation failsafe := (failsafe_stage handle_failsafe_songs).

(** What one iteration does to the locals.  When it returns, it has appended
    exactly one record, the one it leaves in [attempt_details], and the
    counters have moved with it.  When an exception that is no [Exception]
    leaves it, no record was appended, and the counters of generated and
    reviewed songs may be ahead of the history. *)
Lemma iteration_effect attempt (f : frame Ext) o f' :
  iteration attempt f = (o, f') ->
  let d := workflow_details f in
  let d' := workflow_details f' in
  let a := attempt_details f' in
  total_songs_generated d <= total_songs_generated d'
  /\ total_songs_reviewed d <= total_songs_reviewed d'
  /\ songs_deleted d <= songs_deleted d'
  /\ match o with
     | Returned returned =>
         attempts d' = attempts d ++ [a]
         /\ attempt_number a = attempt
         /\ final_action a <> None
         /\ total_songs_generated d'
            = total_songs_generated d + (if generation_success a then 2 else 0)
         /\ total_songs_reviewed d' = total_songs_reviewed d + length (reviews a)
         /\ (attempt <> max_attempts -> final_attempt_songs f' = final_attempt_songs f)
         /\ (attempt = max_attempts -> final_attempt_songs f = [] ->
             final_attempt_songs f' = downloads a)
         /\ match returned with
            | None =>
                songs_kept d' = songs_kept d
                /\ (attempt = max_attempts -> downloads a <> [] ->
                    final_action a
                    = Some ("all_songs_rejected: retrying_attempt_"
                            +:+ pretty (attempt + 1)))
            | Some r =>
                (exists v,
                    r = success_result attempt v d' /\ 0 < kept_count v
                    /\ songs_kept d' = songs_kept d + kept_count v
                    /\ songs_deleted d' = songs_deleted d + deleted_count v)
                \/ (attempt = max_attempts
                    /\ songs_kept d' = songs_kept d
                    /\ exists error_msg, r = fatal_result attempt error_msg d')
            end
     | Raised (Exception _) => False
     | Raised (BaseException _) =>
         attempts d' = attempts d /\ songs_kept d' = songs_kept d
     end.
Proof.
  unfold attempt_iteration, attempt_body, attempt_handler. unfold_workflow. cbn.
  destruct (Nat.eqb_spec attempt max_attempts) as [Hlast|Hlast].
  all: destruct (generate (world_of f)) as [[[g|error]|[e1|e1]] w1]; cbn.
  all: try (intros [= <- <-]; cbn; rewrite ?Nat.add_0_r;
            repeat (split; [try done; try lia|]); try done;
            try (right; repeat (split; [try done|]); eexists; reflexivity)).
  all: destruct (asyncio_sleep (3 * 60)%Z w1) as [[[]|[e2|e2]] w2]; cbn.
  all: try (intros [= <- <-]; cbn; rewrite ?Nat.add_0_r;
            repeat (split; [try done; try lia|]); try done;
            try (right; repeat (split; [try done|]); eexists; reflexivity)).
  all: destruct (download_both_songs title temp_dir w2)
         as [[[error|songs msg]|[e3|e3]] w3]; cbn.
  all: try (intros [= <- <-]; cbn; rewrite ?Nat.add_0_r;
            repeat (split; [try done; try lia|]); try done;
            try (right; repeat (split; [try done|]); eexists; reflexivity)).
  all: destruct (review_all_songs songs song_structure_id w3)
         as [[review_results|[e4|e4]] w4]; cbn.
  all: try (intros [= <- <-]; cbn; rewrite ?Nat.add_0_r;
            repeat (split; [try done; try lia|]); try done;
            try (right; repeat (split; [try done|]); eexists; reflexivity)).
  all: lazymatch goal with
       | |- context [process_song_verdicts_final_attempt ?a ?b ?c] =>
           destruct (process_song_verdicts_final_attempt a b c) as [[v|[e5|e5]] w5]
       | |- context [process_song_verdicts ?a ?b ?c] =>
           destruct (process_song_verdicts a b c) as [[v|[e5|e5]] w5]
       end; cbn.
  all: try (intros [= <- <-]; cbn; rewrite ?Nat.add_0_r;
            repeat (split; [try done; try lia|]); try done;
            try (right; repeat (split; [try done|]); eexists; reflexivity)).
  all: destruct (Nat.ltb_spec 0 (kept_count v)) as [Hkept|Hkept]; cbn.
  all: intros [= <- <-]; cbn.
  all: try (assert (Hzero : kept_count v = 0) by lia; rewrite Hzero, ?Nat.add_0_r).
  all: repeat (split; [try done; try lia|]); try done.
  all: try (left; exists v; repeat (split; [try done; try lia|]); done).
Qed.

(** The history after [n] attempts: they are numbered [1..n] and each has
    its final action. *)
Local Abbreviation numbered n d :=
  (map attempt_number (attempts d) = seq 1 n
   /\ Forall (fun a => final_action a <> None) (attempts d)).

(** The two running totals are those of the records. *)
Local Abbreviation totals_ok d :=
  (total_songs_generated d = 2 * length (List.filter generation_success (attempts d))
   /\ total_songs_reviewed d
      = list_sum (map (fun a => length (reviews a)) (attempts d))).

(** The two running totals are not behind the records. *)
Local Abbreviation totals_ahead d :=
  (2 * length (List.filter generation_success (attempts d)) <= total_songs_generated d
   /\ list_sum (map (fun a => length (reviews a)) (attempts d))
      <= total_songs_reviewed d).

Local Abbreviation history_ok n d := (numbered n d /\ totals_ok d).

Lemma history_ok_step k (f f' : frame Ext) :
  history_ok k (workflow_details f) ->
  attempts (workflow_details f') = attempts (workflow_details f) ++ [attempt_details f'] ->
  attempt_number (attempt_details f') = S k ->
  final_action (attempt_details f') <> None ->
  total_songs_generated (workflow_details f')
  = total_songs_generated (workflow_details f)
    + (if generation_success (attempt_details f') then 2 else 0) ->
  total_songs_reviewed (workflow_details f')
  = total_songs_reviewed (workflow_details f) + length (reviews (attempt_details f')) ->
  history_ok (S k) (workflow_details f').
Proof.
  intros ((Hn & Ha) & Hg & Hr) Happ Hnum Hact Hgen Hrev.
  rewrite Happ. split; split.
  - rewrite map_app, Hn, seq_S. cbn. now rewrite Hnum.
  - apply Forall_app. split; [exact Ha|]. now constructor.
  - rewrite Hgen, Hg, List.filter_app, length_app. cbn.
    destruct (generation_success (attempt_details f')); cbn; lia.
  - rewrite Hrev, Hr, map_app, list_sum_app. cbn. lia.
Qed.

Lemma loop_effect m : forall k (f : frame Ext) o f',
  history_ok k (workflow_details f) ->
  songs_kept (workflow_details f) = 0 ->
  final_attempt_songs f = [] ->
  k + m <= max_attempts ->
  loop (seq (S k) m) f = (o, f') ->
  let d' := workflow_details f' in
  songs_deleted (workflow_details f) <= songs_deleted d'
  /\ match o with
     | Returned None =>
         history_ok (k + m) d'
         /\ songs_kept d' = 0
         /\ (k + m < max_attempts -> final_attempt_songs f' = [])
         /\ (0 < m -> k + m = max_attempts ->
             exists a,
               last (attempts d') = Some a
               /\ attempt_number a = max_attempts
               /\ final_attempt_songs f' = downloads a
               /\ (downloads a <> [] ->
                   final_action a = Some "all_songs_rejected: retrying_attempt_4"))
     | Returned (Some r) =>
         exists n,
           k < n <= k + m
           /\ history_ok n d'
           /\ ((exists v,
                   r = success_result n v d' /\ 0 < kept_count v
                   /\ songs_kept d' = kept_count v
                   /\ deleted_count v <= songs_deleted d')
               \/ (n = max_attempts /\ songs_kept d' = 0
                   /\ exists error_msg, r = fatal_result n error_msg d'))
     | Raised (Exception _) => False
     | Raised (BaseException _) =>
         exists n, k <= n < k + m /\ numbered n d' /\ totals_ahead d'
     end.
Proof.
  induction m as [|m IH]; intros k f o f' Hhist Hkept Hcand Hle; cbn [seq].
  - cbn. unfold mret, M_ret. intros [= <- <-]. cbv zeta. rewrite Nat.add_0_r.
    split; [lia|]. split; [exact Hhist|]. split; [exact Hkept|].
    split; [auto|]. intros H. lia.
  - rewrite loop_cons.
    destruct (iteration (S k) f) as [o1 f1] eqn:Hiter.
    apply iteration_effect in Hiter. cbv zeta in Hiter.
    destruct Hiter as (Hgen0 & Hrev0 & Hdel & Hout).
    destruct o1 as [returned|[e|e]]; [| contradiction |].
    + destruct Hout as (Happ & Hnum & Hact & Hgen & Hrev & Hkeep & Hlast & Hout).
      pose proof (history_ok_step k f f1 Hhist Happ Hnum Hact Hgen Hrev) as Hhist1.
      destruct returned as [r|].
      * intros [= <- <-]. cbv zeta. split; [exact Hdel|].
        exists (S k). split; [lia|]. split; [exact Hhist1|].
        destruct Hout as [(v & -> & Hv & Hk & Hd)|(Hmax & Hk & msg & ->)].
        -- left. exists v. repeat split; try done; lia.
        -- right. split; [exact Hmax|]. split; [lia|]. now exists msg.
      * destruct Hout as [Hk Hrej]. intros Hrest.
        destruct (Nat.eq_dec (S k) max_attempts) as [Hmax|Hmax].
        -- assert (m = 0) as -> by lia. cbn in Hrest. unfold mret, M_ret in Hrest.
           injection Hrest as <- <-. cbv zeta. split; [exact Hdel|].
           replace (k + 1) with (S k) by lia.
           split; [exact Hhist1|]. split; [lia|]. split; [lia|].
           intros _ _. exists (attempt_details f1).
           split; [rewrite Happ; apply last_snoc|].
           split; [congruence|].
           split; [now apply Hlast|].
           intros Hne. rewrite (Hrej Hmax Hne), Hmax. reflexivity.
        -- apply IH in Hrest; [| exact Hhist1 | lia | rewrite (Hkeep Hmax); exact Hcand | lia].
           cbv zeta in Hrest |- *. destruct Hrest as [Hdel' Hrest].
           split; [lia|].
           replace (k + S m) with (S k + m) by lia.
           destruct o as [[r|]|[e|e]]; [| |exact Hrest|].
           ++ destruct Hrest as (n & Hn & Hrest). exists n. split; [lia|]. exact Hrest.
           ++ destruct Hrest as (H1 & H2 & H3 & H4). split; [exact H1|]. split; [exact H2|].
              split; [exact H3|]. intros _ Heq. apply H4; [|exact Heq].
              destruct m; [lia|lia].
           ++ destruct Hrest as (n & Hn & Hrest). exists n. split; [lia|]. exact Hrest.
    + destruct Hout as [Happ Hk]. intros [= <- <-]. cbv zeta. split; [exact Hdel|].
      exists k. split; [lia|]. destruct Hhist as ((Hn & Ha) & Hg & Hr).
      rewrite Happ. split; [now split|]. split; lia.
Qed.

(** The fail-safe stage leaves the history alone; it only adds what was
    promoted to [songs_kept], and prints its line exactly when there are
    candidates. *)
Lemma failsafe_stage_effect (f : frame Ext) o f' :
  failsafe f = (o, f') ->
  let d := workflow_details f in
  let d' := workflow_details f' in
  attempts d' = attempts d
  /\ total_songs_generated d' = total_songs_generated d
  /\ total_songs_reviewed d' = total_songs_reviewed d
  /\ songs_deleted d' = songs_deleted d
  /\ final_attempt_songs f' = final_attempt_songs f
  /\ (final_attempt_songs f = [] -> console f' = console f)
  /\ (final_attempt_songs f <> [] -> console f' = console f ++ [EvFailsafe])
  /\ match o with
     | Returned r =>
         (r = exhausted_result d' /\ songs_kept d' = songs_kept d)
         \/ (exists moved,
               r = failsafe_success_result moved d' /\ 0 < moved
               /\ songs_kept d' = songs_kept d + moved)
     | Raised e => songs_kept d' = songs_kept d
     end.
Proof.
  unfold failsafe_stage. unfold_workflow. cbn.
  destruct (final_attempt_songs f) as [|song songs] eqn:Hsongs.
  - intros [= <- <-]. cbn. repeat (split; [done|]). now left.
  - cbn. destruct (handle_failsafe_songs _ final_dir (world_of f)) as [[fr|e1] w'].
    + cbn. destruct (Nat.ltb_spec 0 (moved_count fr)) as [Hmoved|Hmoved];
        intros [= <- <-]; cbn; repeat (split; [done|]).
      * right. exists (moved_count fr). repeat split; done.
      * left. split; [reflexivity|]. lia.
    + intros [= <- <-]. cbn. repeat (split; [done|]). reflexivity.
Qed.

Lemma entry_history (w : world Ext) : history_ok 0 (workflow_details (entry_frame w)).
Proof. cbn. repeat split; constructor. Qed.

(** Every way out of [execute_song_workflow], with the history and the
    counters it leaves behind. *)
Lemma run_effect (w : world Ext) o f' :
  run w = (o, f') ->
  let d' := workflow_details f' in
  exists n,
    n <= max_attempts
    /\ numbered n d'
    /\ totals_ahead d'
    /\ match o with
       | Returned r =>
           1 <= n
           /\ totals_ok d'
           /\ r !! "total_attempts" = Some (VInt n)
           /\ r !! "workflow_details" = Some (VDetails d')
           /\ r !! "final_songs_count" = Some (VInt (songs_kept d'))
           /\ (forall k, r !! "re_rolled_songs" = Some (VInt k) -> k <= songs_deleted d')
       | Raised e =>
           (~ directories_ready w /\ n = 0 /\ totals_ok d')
           \/ (directories_ready w /\ n = max_attempts /\ totals_ok d')
           \/ (directories_ready w /\ exists message, e = BaseException message)
       end.
Proof.
  destruct (directories_ready_dec w) as [Hready|Hnot].
  2: { destruct (run_not_ready generate_songs asyncio_sleep download_both_songs
                   review_all_songs process_song_verdicts
                   process_song_verdicts_final_attempt handle_failsafe_songs
                   book_name chapter verse_range style title song_structure_id w Hnot)
         as [message ->].
       intros [= <- <-]. cbv zeta. exists 0. cbn.
       split; [lia|]. split; [split; [reflexivity | constructor]|].
       split; [lia|]. left. auto. }
  rewrite (run_unfold _ _ _ _ _ _ _ _ _ _ _ _ _ w Hready).
  destruct (loop (seq 1 max_attempts) (entry_frame w)) as [o1 f1] eqn:Hloop.
  apply (loop_effect max_attempts 0) in Hloop;
    [| apply entry_history | reflexivity | reflexivity | cbn; lia].
  cbv zeta in Hloop. destruct Hloop as [_ Hloop].
  destruct o1 as [[r|]|[e|e]]; [| |contradiction|].
  - intros [= <- <-]. cbv zeta. destruct Hloop as (n & Hn & Hhist & Hres).
    exists n. split; [lia|]. split; [exact (proj1 Hhist)|].
    split; [destruct Hhist as (_ & Hg & Hr); lia|].
    split; [lia|]. split; [exact (proj2 Hhist)|].
    destruct Hres as [(v & -> & Hv & Hk & Hd)|(Hmax & Hk & msg & ->)].
    + destruct (success_result_keys n v (workflow_details f1))
        as (_ & Ht & Hf & _ & Hr & Hw & _).
      split; [exact Ht|]. split; [exact Hw|]. split; [now rewrite Hk|].
      intros k Hk'. rewrite Hr in Hk'. injection Hk' as <-. exact Hd.
    + destruct (fatal_result_keys n msg (workflow_details f1))
        as (_ & Ht & Hf & _ & Hw & _ & _ & Hr).
      split; [exact Ht|]. split; [exact Hw|]. split; [now rewrite Hk|].
      intros k Hk'. rewrite Hr in Hk'. discriminate.
  - intros Hfs. apply failsafe_stage_effect in Hfs. cbv zeta in Hfs |- *.
    destruct Hfs as (Ha & Hg & Hr & Hd & _ & _ & _ & Hout).
    destruct Hloop as (Hhist & Hk & _).
    assert (Hhist' : history_ok max_attempts (workflow_details f'))
      by (rewrite Ha, Hg, Hr; exact Hhist).
    exists max_attempts. split; [lia|]. split; [exact (proj1 Hhist')|].
    split; [destruct Hhist' as (_ & Hg' & Hr'); lia|].
    destruct o as [r|e]; [|right; left; split; [exact Hready|]; split;
                           [reflexivity | exact (proj2 Hhist')]].
    split; [unfold max_attempts; lia|]. split; [exact (proj2 Hhist')|].
    destruct Hout as [[-> Hk']|(moved & -> & Hm & Hk')].
    + destruct (exhausted_result_keys (workflow_details f'))
        as (_ & Ht & Hf & _ & Hrr & Hw & _).
      split; [exact Ht|]. split; [exact Hw|]. split; [now rewrite Hk', Hk|].
      intros k Hkk. rewrite Hrr in Hkk. injection Hkk as <-. lia.
    + destruct (failsafe_success_result_keys moved (workflow_details f'))
        as (_ & Ht & Hf & _ & Hrr & Hw & _).
      split; [exact Ht|]. split; [exact Hw|]. split; [now rewrite Hk', Hk|].
      intros k Hkk. rewrite Hrr in Hkk. injection Hkk as <-. lia.
  - intros [= <- <-]. cbv zeta. destruct Hloop as (n & Hn & Hnum & Hahead).
    exists n. split; [lia|]. split; [exact Hnum|]. split; [exact Hahead|].
    right. right. split; [exact Hready|]. now exists e.
Qed.

(** X8.  The attempt history.  However [execute_song_workflow] ends, the
    history it leaves holds one record per attempt that was completed,
    numbered [1, 2, ...] without gaps, at most three of them, and every
    record carries its final action.  A returned dictionary reports that
    number of records, which is at least one, as [total_attempts] and
    carries this very history.  If the function raises, then either
    [os.makedirs] failed and no attempt is on record, or all three attempts
    are on record, or the exception is no [Exception] and an attempt was
    left unfinished and unrecorded. *)
Theorem attempt_history_is_complete (w : world Ext) :
  let '(o, f') := run w in
  let d' := workflow_details f' in
  exists n,
    n <= 3
    /\ map attempt_number (attempts d') = seq 1 n
    /\ Forall (fun a => final_action a <> None) (attempts d')
    /\ match o with
       | Returned r =>
           1 <= n
           /\ r !! "total_attempts" = Some (VInt n)
           /\ r !! "workflow_details" = Some (VDetails d')
       | Raised e =>
           (~ directories_ready w /\ n = 0)
           \/ (directories_ready w /\ n = 3)
           \/ (directories_ready w /\ exists message, e = BaseException message)
       end.
Proof.
  destruct (run w) as [o f'] eqn:Hrun. apply run_effect in Hrun.
  cbv zeta in Hrun |- *. destruct Hrun as (n & Hn & (Hnum & Hact) & _ & Hout).
  exists n. split; [exact Hn|]. split; [exact Hnum|]. split; [exact Hact|].
  destruct o as [r|e].
  - destruct Hout as (H1 & _ & Ht & Hw & _). auto.
  - destruct Hout as [(H1 & H2 & _)|[(H1 & H2 & _)|H]]; auto.
Qed.

(** X9.  The counters agree with the history.  When the function returns,
    [total_songs_generated] is twice the number of recorded attempts whose
    generation succeeded, and [total_songs_reviewed] is the number of review
    records over all recorded attempts; in the returned dictionary
    [final_songs_count] equals the [songs_kept] total of the details, and
    [re_rolled_songs], when present, is at most their [songs_deleted] total.
    The two counters agree with the history also when the function raises an
    [Exception].  When another exception ends the function, possibly in the
    middle of an attempt, the two counters may be ahead of the history and
    are never behind it. *)
Theorem workflow_counters_agree_with_history (w : world Ext) :
  let '(o, f') := run w in
  let d' := workflow_details f' in
  let generated := 2 * length (List.filter generation_success (attempts d')) in
  let reviewed := list_sum (map (fun a => length (reviews a)) (attempts d')) in
  generated <= total_songs_generated d'
  /\ reviewed <= total_songs_reviewed d'
  /\ match o with
     | Returned r =>
         total_songs_generated d' = generated
         /\ total_songs_reviewed d' = reviewed
         /\ r !! "final_songs_count" = Some (VInt (songs_kept d'))
         /\ (forall k, r !! "re_rolled_songs" = Some (VInt k) -> k <= songs_deleted d')
     | Raised (Exception _) =>
         total_songs_generated d' = generated /\ total_songs_reviewed d' = reviewed
     | Raised (BaseException _) => True
     end.
Proof.
  destruct (run w) as [o f'] eqn:Hrun. apply run_effect in Hrun.
  cbv zeta in Hrun |- *. destruct Hrun as (n & Hn & (Hnum & _) & (Hg & Hr) & Hout).
  split; [exact Hg|]. split; [exact Hr|].
  destruct o as [r|[e|e]]; [| |exact I].
  - destruct Hout as (_ & (Hg' & Hr') & _ & _ & Hf & Hd). auto.
  - destruct Hout as [(_ & _ & H)|[(_ & _ & H)|(_ & message & Heq)]];
      [exact H | exact H | discriminate Heq].
Qed.

(** X10.  What the fail-safe works on.  If the fail-safe line was printed,
    the last record of the history is that of attempt 3, its downloads are
    not empty and are exactly the fail-safe candidates, and its final action
    reads [all_songs_rejected: retrying_attempt_4]; a dictionary returned
    after that has [success] true, [good_songs] 0 and [total_attempts] 3. *)
Theorem failsafe_candidates_are_final_downloads (w : world Ext) :
  let '(o, f') := run w in
  In EvFailsafe (console f') ->
  exists a,
    last (attempts (workflow_details f')) = Some a
    /\ attempt_number a = 3
    /\ downloads a = final_attempt_songs f'
    /\ downloads a <> []
    /\ final_action a = Some "all_songs_rejected: retrying_attempt_4"
    /\ match o with
       | Returned r =>
           r !! "success" = Some (VBool true)
           /\ r !! "good_songs" = Some (VInt 0)
           /\ r !! "total_attempts" = Some (VInt 3)
       | Raised _ => True
       end.
Proof.
  destruct (directories_ready_dec w) as [Hready|Hnot].
  2: { destruct (run_not_ready generate_songs asyncio_sleep download_both_songs
                   review_all_songs process_song_verdicts
                   process_song_verdicts_final_attempt handle_failsafe_songs
                   book_name chapter verse_range style title song_structure_id w Hnot)
         as [message ->].
       cbn. contradiction. }
  rewrite (run_unfold _ _ _ _ _ _ _ _ _ _ _ _ _ w Hready).
  destruct (loop (seq 1 max_attempts) (entry_frame w)) as [o1 f1] eqn:Hloop.
  pose proof Hloop as Hconsole. apply loop_console in Hconsole as (evs & Hc & Hevs).
  assert (Hquiet : ~ In EvFailsafe (console f1)).
  { rewrite Hc. cbn. intros Hin.
    destruct (Hevs _ Hin) as [(a & _ & Heq)|Hstep]; [discriminate|].
    cbn in Hstep. repeat destruct Hstep as [Hstep|Hstep]; try discriminate.
    contradiction. }
  apply (loop_effect max_attempts 0) in Hloop;
    [| apply entry_history | reflexivity | reflexivity | cbn; lia].
  cbv zeta in Hloop. destruct Hloop as [_ Hloop].
  destruct o1 as [[r|]|e]; [contradiction| |contradiction].
  destruct (failsafe f1) as [o f'] eqn:Hfs.
  apply failsafe_stage_effect in Hfs. cbv zeta in Hfs.
  destruct Hfs as (Ha & _ & _ & _ & Hsongs & Hnil & Hcons & Hout).
  intros Hin.
  destruct (final_attempt_songs f1) as [|song songs] eqn:Hcand.
  { rewrite (Hnil eq_refl) in Hin. contradiction. }
  destruct Hloop as (_ & Hk & _ & Hlast).
  destruct Hlast as (a & Hl & Hnum & Hdl & Hact); [unfold max_attempts; lia|reflexivity|].
  assert (Hne : downloads a <> []) by (rewrite <- Hdl; discriminate).
  exists a. rewrite Ha, Hsongs.
  split; [exact Hl|]. split; [exact Hnum|]. split; [now rewrite Hdl|].
  split; [exact Hne|]. split; [now apply Hact|].
  destruct o as [r|e]; [|exact I].
  destruct Hout as [[-> _]|(moved & -> & _ & _)].
  - destruct (exhausted_result_keys (workflow_details f')) as (Hs & Ht & _ & Hg & _).
    auto.
  - destruct (failsafe_success_result_keys moved (workflow_details f'))
      as (Hs & Ht & _ & Hg & _).
    auto.
Qed.

End WorkflowHistory.

(** The same run: the fail-safe line is printed, and the candidates are the
    downloads of the third record. *)
Lemma failsafe_candidates_are_final_downloads_witness :
  let f' :=
    (Sample.run_workflow Sample.generate_handler_ok "re-roll" Sample.empty_world).2 in
  In EvFailsafe (console f')
  /\ exists a,
       last (attempts (workflow_details f')) = Some a
       /\ downloads a = final_attempt_songs f'.
Proof.
  intros f'.
  assert (Hin : In EvFailsafe (console f')).
  { vm_compute. repeat (try (left; reflexivity); right). }
  split; [exact Hin|].
  revert Hin. subst f'. unfold Sample.run_workflow, workflow.
  pose proof (failsafe_candidates_are_final_downloads
                (generate_songs Sample.generate_handler_ok) Sample.sleep_ok
                (download_both_songs Sample.download_handler)
                (review_all_songs (call_review_api (Sample.review_endpoint "re-roll")))
                (fun review_results final_dir =>
                   on_fs (process_song_verdicts review_results final_dir))
                (fun review_results final_dir =>
                   on_fs (process_song_verdicts_final_attempt review_results final_dir))
                (fun songs final_dir => on_fs (handle_failsafe_songs songs final_dir))
                "Psalms" 23%Z "1-6" "hymn" "Psalm 23" None Sample.empty_world) as H.
  match type of H with
  | (let '(_, _) := ?run in _) => destruct run as [o f']
  end.
  cbn [snd]. intros Hin.
  destruct (H Hin) as (a & Hlast & _ & Hdl & _).
  exists a. split; [exact Hlast | exact Hdl].
Defined.

(** A wait that is cancelled in the first attempt: two songs are counted as
    generated, and no attempt is on record. *)
Example cancelled_wait_leaves_the_counter_ahead :
  let '(o, f') :=
    Sample.run_program Sample.sleep_cancelled (Sample.review_endpoint "continue")
      Sample.empty_world in
  o = Raised (BaseException "CancelledError")
  /\ attempts (workflow_details f') = []
  /\ total_songs_generated (workflow_details f') = 2.
Proof. vm_compute. auto. Qed.

(** ** The workflow over the routines of the module *)

Section ProgramFacts.

Context {Ext : Type}.

Variable generate_song_handler :
  string -> Z -> string -> string -> string -> M (world Ext) generation_reply.
Variable asyncio_sleep : Z -> M (world Ext) unit.
Variable download_song_handler : string -> Z -> string -> M (world Ext) fetch_reply.
Variable review_song_endpoint : SongReviewRequest -> M (world Ext) SongReviewResponse.

(** [generate_songs] raises only what is not an [Exception], and only what
    the handler raised. *)
Lemma generate_songs_raised_inv book_name chapter verse_range style title
    (w : world Ext) e w' :
  generate_songs generate_song_handler book_name chapter verse_range style title w
  = (Raised e, w') ->
  exists message,
    e = BaseException message
    /\ generate_song_handler book_name chapter verse_range style title w
       = (Raised (BaseException message), w').
Proof.
  unfold generate_songs, try_except, mbind, M_bind, mret, M_ret.
  destruct (generate_song_handler book_name chapter verse_range style title w)
    as [[[[|]|]|[e1|e1]] w1]; try discriminate.
  intros [= <- <-]. eauto.
Qed.

(** So does [download_both_songs]. *)
Lemma download_both_songs_raised_inv title download_path (w : world Ext) e w' :
  download_both_songs download_song_handler title download_path w = (Raised e, w') ->
  exists message index w0,
    e = BaseException message
    /\ download_song_handler title index download_path w0
       = (Raised (BaseException message), w').
Proof.
  intros Hrun.
  destruct (download_both_total download_song_handler title download_path w)
    as [(r & w1 & H & _)|(m & w1 & H & Hwhere)]; rewrite H in Hrun; [discriminate|].
  injection Hrun as <- <-.
  destruct Hwhere as [Hfirst|(reply1 & w0 & _ & Hsecond)]; eauto 10.
Qed.

Section Run.

Variables (book_name : string) (chapter : Z) (verse_range style title : string).
Variable song_structure_id : option Z.

Local Abbreviation generate :=
  (generate_songs generate_song_handler book_name chapter verse_range style title).
Local Abbreviation loop :=
  (attempt_loop (generate_songs generate_song_handler) asyncio_sleep
     (download_both_songs download_song_handler)
     (review_all_songs (call_review_api review_song_endpoint))
     (fun review_results final_dir =>
        on_fs (process_song_verdicts review_results final_dir))
     (fun review_results final_dir =>
        on_fs (process_song_verdicts_final_attempt review_results final_dir))
     book_name chapter verse_range style title song_structure_id).
Local Abbreviation program :=
  (workflow generate_song_handler asyncio_sleep download_song_handler review_song_endpoint
     book_name chapter verse_range style title song_structure_id).

(** One of the four external callees raises [e] in world [w0] and leaves
    world [w']. *)
Local Abbreviation external_raises e w' :=
  (exists w0 : world Ext,
      generate_song_handler book_name chapter verse_range style title w0 = (Raised e, w')
      \/ asyncio_sleep (3 * 60)%Z w0 = (Raised e, w')
      \/ (exists index, download_song_handler title index temp_dir w0 = (Raised e, w'))
      \/ (exists request, review_song_endpoint request w0 = (Raised e, w'))).

(** A step of the workflow's [try] block that raises, over the module's
    own routines: the exception is one of an external callee, and it is
    caught before the attempt boundary unless it comes from the wait or is
    no [Exception]. *)
Lemma module_step_raised attempt (w : world Ext) e w' :
  step_raised (generate_songs generate_song_handler) asyncio_sleep
    (download_both_songs download_song_handler)
    (review_all_songs (call_review_api review_song_endpoint))
    (fun review_results final_dir =>
       on_fs (process_song_verdicts review_results final_dir))
    (fun review_results final_dir =>
       on_fs (process_song_verdicts_final_attempt review_results final_dir))
    book_name chapter verse_range style title song_structure_id attempt w e w' ->
  (exists g w1,
      generate w = (Returned (GenerationSucceeded g), w1)
      /\ asyncio_sleep (3 * 60)%Z w1 = (Raised e, w'))
  \/ ((exists message, e = BaseException message) /\ external_raises e w').
Proof.
  intros [H|[H|[H|[H|H]]]].
  - apply generate_songs_raised_inv in H as (m & -> & H). right. eauto 10.
  - destruct H as (g & w1 & Hg & Hsleep). left. eauto.
  - destruct H as (g & w1 & w2 & _ & _ & H).
    apply download_both_songs_raised_inv in H as (m & index & w0 & -> & H).
    right. split; [eauto|]. exists w0. right. right. left. eauto.
  - destruct H as (g & w1 & w2 & songs & msg & w3 & _ & _ & _ & H).
    apply review_step_raised_inv in H as (m & song & w0 & -> & _ & H).
    right. split; [eauto|]. exists w0. right. right. right. eauto.
  - destruct H as (g & w1 & w2 & songs & msg & w3 & rr & w4 & _ & _ & _ & _ & H).
    unfold router_of in H. destruct (Nat.eqb attempt max_attempts);
      now apply on_fs_returns in H.
Qed.

(** X11.  The workflow over the module's own routines.  It returns a
    dictionary, with two exceptions: when [os.makedirs] fails it raises that
    error with nothing done, and when one of the four external callees (the
    generation handler, the wait, the download handler, the review endpoint)
    raises an exception that is no [Exception], it raises that exception, in
    the world that callee left.  A returned dictionary has [success] true,
    unless attempts 1 and 2 ended without a result, the third generation
    succeeded and [asyncio.sleep] then raised an [Exception]: in that case
    it is the fatal result that quotes this exception.  No other step can
    make the workflow fail: the module's routines absorb every [Exception]
    of their callees, and the routers and the fail-safe handler do not
    raise. *)
Theorem workflow_fails_only_when_the_wait_raises (w : world Ext) :
  let '(o, f') := program w in
  match o with
  | Returned r =>
      directories_ready w
      /\ (r !! "success" = Some (VBool true)
          \/ exists f g w1 e w2,
               loop [1; 2] (entry_frame w) = (Returned None, f)
               /\ generate (world_of f) = (Returned (GenerationSucceeded g), w1)
               /\ asyncio_sleep (3 * 60)%Z w1 = (Raised (Exception e), w2)
               /\ r = fatal_result 3 (critical_error 3 e) (workflow_details f')
               /\ r !! "success" = Some (VBool false))
  | Raised e =>
      (~ directories_ready w /\ f' = entry_frame w /\ exists message, e = Exception message)
      \/ (directories_ready w
          /\ (exists message, e = BaseException message)
          /\ external_raises e (world_of f'))
  end.
Proof.
  unfold workflow.
  destruct (directories_ready_dec w) as [Hready|Hnot].
  2: { match goal with
       | |- context [execute_song_workflow ?a ?b ?c ?d ?e ?f ?g ?h ?i ?j ?k ?l ?m w] =>
           destruct (run_not_ready a b c d e f g h i j k l m w Hnot) as [message ->]
       end.
       left. eauto. }
  match goal with
  | |- context [execute_song_workflow ?a ?b ?c ?d ?e ?f ?g ?h ?i ?j ?k ?l ?m w] =>
      destruct (execute_song_workflow a b c d e f g h i j k l m w)
        as [[r|raised] f'] eqn:Hrun
  end.
  - split; [exact Hready|].
    match goal with
    | |- ?P \/ _ => assert (Hcases : P \/ r !! "success" = Some (VBool false))
    end.
    { pose proof Hrun as Hfields. apply returned_result_fields in Hfields.
      destruct Hfields as [_ [(H & _)|(H & _)]]; auto. }
    destruct Hcases as [Htrue|Hfalse]; [now left|right].
    destruct (fatal_only_from_last_attempt _ _ _ _ _ _ _ _ _ _ _ _ _ _ _ _ Hrun Hfalse)
      as (f & e & w' & Hpre & Hstep & ->).
    apply module_step_raised in Hstep
      as [(g & w1 & Hg & Hsleep)|[(m & Hm) _]]; [|discriminate Hm].
    exists f, g, w1, e, w'. auto.
  - right. split; [exact Hready|].
    match type of Hrun with
    | execute_song_workflow ?a ?b ?c ?d ?e ?f ?g ?h ?i ?j ?k ?l ?m w = _ =>
        destruct (run_outcomes a b c d e f g h i j k l m w)
          as [(r & f0 & H)|[(Hnot & _)|[H|H]]]
    end.
    + rewrite H in Hrun. discriminate.
    + contradiction.
    + destruct H as (attempt & pre & post & f0 & m & f1 & _ & _ & Hstep & H).
      rewrite H in Hrun. injection Hrun as <- <-.
      split; [eauto|].
      apply module_step_raised in Hstep as [(g & w1 & _ & Hsleep)|[_ Hext]];
        [|exact Hext].
      exists w1. right. left. exact Hsleep.
    + destruct H as (e0 & f0 & f1 & _ & (w' & Hfs) & _).
      now apply on_fs_returns in Hfs.
Qed.

End Run.

End ProgramFacts.

(** ** The review step over [call_review_api] *)

Section ReviewProgram.

Context {Ext : Type}.

Variable review_song_endpoint : SongReviewRequest -> M (world Ext) SongReviewResponse.
Variable song_structure_id : option Z.

Local Abbreviation review_call := (call_review_api review_song_endpoint).

(** The accumulator of the loop only ever grows at its end. *)
Lemma review_loop_acc (call : string -> option Z -> M (world Ext) review_details)
    songs acc (w : world Ext) :
  review_loop call song_structure_id songs acc w
  = match review_loop call song_structure_id songs [] w with
    | (Returned new, w') => (Returned (acc ++ new), w')
    | (Raised e, w') => (Raised e, w')
    end.
Proof.
  revert acc w. induction songs as [|song rest IH]; intros acc w; cbn [review_loop].
  - unfold mret, M_ret. now rewrite app_nil_r.
  - unfold mbind, M_bind.
    destruct (call (Song.file_path song) song_structure_id w) as [[d|e] w1]; [|reflexivity].
    rewrite (IH (acc ++ [reviewed song d])), (IH ([] ++ [reviewed song d])).
    destruct (review_loop call song_structure_id rest [] w1) as [[new|e] w2];
      [|reflexivity].
    now rewrite <- app_assoc.
Qed.

(** [call_review_api] by what the endpoint does: it returns the endpoint's
    response as a dictionary, turns an [Exception] into an error dictionary,
    and lets any other exception through. *)
Lemma call_review_api_cases file_path (w : world Ext) :
  let request := {| audio_file_path := file_path;
                    request_structure_id := or_zero song_structure_id |} in
  let '(reply, w1) := review_song_endpoint request w in
  match reply with
  | Raised (BaseException e) =>
      review_call file_path song_structure_id w = (Raised (BaseException e), w1)
  | _ =>
      exists d,
        review_call file_path song_structure_id w = (Returned d, w1)
        /\ (forall e, d <> ReviewProcessFailure e)
        /\ get_verdict d "error"
           = match reply with
             | Returned response => response_verdict response
             | Raised _ => "error"
             end
  end.
Proof.
  cbv zeta. unfold call_review_api, try_except, mbind, M_bind, mret, M_ret.
  destruct (review_song_endpoint _ w) as [[response|[e|e]] w1]; cbn;
    try reflexivity;
    eexists; (split; [reflexivity|]); split; try reflexivity; discriminate.
Qed.

(** The loop over [call_review_api] raises no [Exception], and none of its
    records has the shape of the [except] branch of [review_all_songs]. *)
Lemma review_loop_shape songs (w : world Ext) :
  match review_loop review_call song_structure_id songs [] w with
  | (Returned review_results, _) =>
      Forall (fun r => forall e, Review.details r <> ReviewProcessFailure e) review_results
  | (Raised (Exception _), _) => False
  | (Raised (BaseException _), _) => True
  end.
Proof.
  revert w. induction songs as [|song songs IH]; intros w; cbn [review_loop].
  - unfold mret, M_ret. constructor.
  - unfold mbind, M_bind.
    pose proof (call_review_api_cases (Song.file_path song) w) as Hcall.
    cbv zeta in Hcall.
    destruct (review_song_endpoint _ w) as [reply w1].
    assert (Hreturned :
      (exists d, review_call (Song.file_path song) song_structure_id w = (Returned d, w1)
                 /\ forall e, d <> ReviewProcessFailure e)
      \/ exists e, review_call (Song.file_path song) song_structure_id w
                   = (Raised (BaseException e), w1)).
    { destruct reply as [response|[e|e]]; [| |right; eauto];
        destruct Hcall as (d & H1 & H2 & _); left; eauto. }
    destruct Hreturned as [(d & -> & Hd)|(e & ->)]; [|exact I].
    rewrite review_loop_acc. specialize (IH w1).
    destruct (review_loop review_call song_structure_id songs [] w1)
      as [[review_results|[e|e]] w2]; [|contradiction|exact I].
    cbn. constructor; [exact Hd | exact IH].
Qed.

Lemma review_all_songs_is_loop songs (w : world Ext) :
  review_all_songs review_call songs song_structure_id w
  = review_loop review_call song_structure_id songs [] w.
Proof.
  unfold review_all_songs, try_except.
  pose proof (review_loop_shape songs w) as H.
  destruct (review_loop review_call song_structure_id songs [] w) as [[rr|[e|e]] w'];
    [reflexivity | contradiction | reflexivity].
Qed.

(** The loop on a list whose first song was reviewed. *)
Lemma review_loop_cons song rest (w : world Ext) d w1 :
  review_call (Song.file_path song) song_structure_id w = (Returned d, w1) ->
  review_loop review_call song_structure_id (song :: rest) [] w
  = match review_loop review_call song_structure_id rest [] w1 with
    | (Returned new, w') => (Returned (reviewed song d :: new), w')
    | (Raised e, w') => (Raised e, w')
    end.
Proof.
  intros Hc. cbn [review_loop]. unfold mbind, M_bind. rewrite Hc.
  exact (review_loop_acc review_call rest ([] ++ [reviewed song d]) w1).
Qed.

(** X12.  Review failures stay with their song.  With [call_review_api] as
    the review call, the review of a list is the review of its first song
    followed by the review of the rest in the world the first review left:
    the first record carries the endpoint's verdict, or "error" when the
    endpoint raised an [Exception], and the other records are what they
    would be without the first song.  The [except] branch of
    [review_all_songs] is never taken, so no record has the process-failure
    shape.  Only an exception of the endpoint that is no [Exception] ends
    the review: it is raised by [review_all_songs], at the first song or at
    the song of the rest where the endpoint raised it. *)
Theorem review_failures_stay_with_their_song
    (song : Song.t) (rest : list Song.t) (w : world Ext) :
  let request := {| audio_file_path := Song.file_path song;
                    request_structure_id := or_zero song_structure_id |} in
  let '(reply, w1) := review_song_endpoint request w in
  match reply with
  | Raised (BaseException e) =>
      review_all_songs review_call (song :: rest) song_structure_id w
      = (Raised (BaseException e), w1)
  | _ =>
      exists d,
        Review.verdict (reviewed song d)
        = match reply with
          | Returned response => response_verdict response
          | Raised _ => "error"
          end
        /\ match review_all_songs review_call rest song_structure_id w1 with
           | (Returned review_results, w2) =>
               review_all_songs review_call (song :: rest) song_structure_id w
               = (Returned (reviewed song d :: review_results), w2)
               /\ Forall (fun r => forall e, Review.details r <> ReviewProcessFailure e)
                    (reviewed song d :: review_results)
           | (Raised e, w2) =>
               review_all_songs review_call (song :: rest) song_structure_id w
               = (Raised e, w2)
               /\ exists message, e = BaseException message
           end
  end.
Proof.
  cbv zeta. rewrite !review_all_songs_is_loop.
  pose proof (call_review_api_cases (Song.file_path song) w) as Hcall.
  cbv zeta in Hcall.
  destruct (review_song_endpoint _ w) as [reply w1].
  assert (Hrest : forall d,
            (forall e, d <> ReviewProcessFailure e) ->
            review_call (Song.file_path song) song_structure_id w = (Returned d, w1) ->
            match review_all_songs review_call rest song_structure_id w1 with
            | (Returned review_results, w2) =>
                review_loop review_call song_structure_id (song :: rest) [] w
                = (Returned (reviewed song d :: review_results), w2)
                /\ Forall (fun r => forall e, Review.details r <> ReviewProcessFailure e)
                     (reviewed song d :: review_results)
            | (Raised e, w2) =>
                review_loop review_call song_structure_id (song :: rest) [] w
                = (Raised e, w2)
                /\ exists message, e = BaseException message
            end).
  { intros d Hd Hc. rewrite review_all_songs_is_loop, (review_loop_cons song rest w d w1 Hc).
    pose proof (review_loop_shape rest w1) as Hshape.
    destruct (review_loop review_call song_structure_id rest [] w1)
      as [[review_results|[e|e]] w2]; [|contradiction|].
    - split; [reflexivity|]. constructor; [exact Hd | exact Hshape].
    - split; [reflexivity | eauto]. }
  destruct reply as [response|[e|e]].
  - destruct Hcall as (d & Hc & Hd & Hv). exists d. split; [exact Hv|]. now apply Hrest.
  - destruct Hcall as (d & Hc & Hd & Hv). exists d. split; [exact Hv|]. now apply Hrest.
  - cbn [review_loop]. unfold mbind, M_bind. now rewrite Hcall.
Qed.

End ReviewProgram.

(** A reviewer that cannot be reached, asked about two songs. *)
Lemma review_failures_stay_with_their_song_witness :
  exists review_results w',
    review_all_songs (call_review_api Sample.review_endpoint_down)
      [Sample.song_a; Sample.song_b] None Sample.empty_world
    = (Returned review_results, w')
    /\ Forall (fun r => forall e, Review.details r <> ReviewProcessFailure e) review_results.
Proof.
  pose proof (review_failures_stay_with_their_song Sample.review_endpoint_down None
                Sample.song_a [Sample.song_b] Sample.empty_world) as H.
  cbv zeta in H.
  destruct (Sample.review_endpoint_down _ Sample.empty_world) as [[response|[e|e]] w1] eqn:Hend;
    [| |vm_compute in Hend; discriminate Hend];
    destruct H as (d & _ & H);
    (destruct (review_all_songs (call_review_api Sample.review_endpoint_down)
                 [Sample.song_b] None w1) as [[review_results|e'] w2] eqn:Hrest;
     [destruct H as [Hrun Hshape];
      exists (reviewed Sample.song_a d :: review_results), w2; split; assumption|]).
  - vm_compute in Hend. discriminate Hend.
  - vm_compute in Hend. injection Hend as <- <-. vm_compute in Hrest. discriminate Hrest.
Defined.

(** ** The fail-safe on what the workflow stages *)

Lemma in_dir_same_name d p p' :
  OsPath.in_dir d p -> OsPath.in_dir d p' ->
  OsPath.basename p = OsPath.basename p' -> p = p'.
Proof. unfold OsPath.in_dir. intros Hp Hp' Heq. rewrite <- Hp, <- Hp', Heq. reflexivity. Qed.

Lemma staged_names_distinct d (songs : list Song.t) :
  Forall (fun song => OsPath.in_dir d (Song.file_path song)) songs ->
  NoDup (map Song.file_path songs) ->
  NoDup (map (fun song => OsPath.basename (Song.file_path song)) songs).
Proof.
  induction songs as [|song songs IH]; intros Hdir Hnodup; cbn [map].
  - apply NoDup_nil_2.
  - inversion Hdir as [|? ? Hhead Hrest]; subst.
    cbn [map] in Hnodup. apply NoDup_cons in Hnodup as [Hfresh Hnodup].
    apply NoDup_cons. split; [|now apply IH].
    intros Hin. apply Hfresh.
    apply list_elem_of_In, in_map_iff in Hin as (other & Heq & Hother).
    apply list_elem_of_In, in_map_iff. exists other. split; [|exact Hother].
    apply (in_dir_same_name d); [|exact Hhead|exact Heq].
    rewrite List.Forall_forall in Hrest. now apply Hrest.
Qed.

(** X13.  The fail-safe on the workflow's own directories.  The candidates
    have pairwise distinct paths that lie directly in the staging directory
    [backend/songs/temp].  A candidate that is staged, and whose move the
    operating system does not refuse, ends with its content at its fail-safe
    name, which is an entry of [backend/songs/final_review], and is gone
    from staging; the moved-count is the number of these candidates.  A
    staged candidate whose move is refused is still in staging, with its
    content, when the handler returns. *)
Theorem failsafe_promotes_staged_downloads (songs : list Song.t) (fs : filesystem) :
  NoDup (map Song.file_path songs) ->
  Forall (fun song => OsPath.in_dir temp_dir (Song.file_path song)) songs ->
  let '(r, fs') := handle_failsafe_songs songs final_dir fs in
  moved_count r
  = length (List.filter
              (fun song =>
                 os_path_exists (Song.file_path song) fs
                 && negb (os_refuses (Song.file_path song) fs)
                 && negb (os_refuses (failsafe_path_of final_dir (Song.file_path song)) fs))
              songs)
  /\ (forall song content,
        In song songs ->
        files fs !! Song.file_path song = Some content ->
        os_refuses (Song.file_path song) fs = false ->
        os_refuses (failsafe_path_of final_dir (Song.file_path song)) fs = false ->
        files fs' !! failsafe_path_of final_dir (Song.file_path song) = Some content
        /\ OsPath.in_dir final_dir (failsafe_path_of final_dir (Song.file_path song))
        /\ files fs' !! Song.file_path song = None)
  /\ (forall song content,
        In song songs ->
        files fs !! Song.file_path song = Some content ->
        os_refuses (Song.file_path song) fs
        || os_refuses (failsafe_path_of final_dir (Song.file_path song)) fs = true ->
        files fs' !! Song.file_path song = Some content).
Proof.
  intros Hnodup Hdir.
  assert (Hstaged : Forall (fun song => ~ OsPath.in_dir final_dir (Song.file_path song))
                      songs).
  { apply List.Forall_forall. intros song Hin. apply staging_path_not_final.
    rewrite List.Forall_forall in Hdir. now apply Hdir. }
  pose proof (failsafe_loop_promotes final_dir songs {| moved_count := 0; error_count := 0 |}
                fs (staged_names_distinct temp_dir songs Hdir Hnodup) Hstaged) as H.
  unfold handle_failsafe_songs.
  destruct (fold_left (failsafe_song final_dir) songs
              ({| moved_count := 0; error_count := 0 |}, fs)) as [r fs'].
  cbn in H. destruct H as (Hm & _ & Hdest & Hkept).
  split; [exact Hm|]. split.
  - intros song content Hin Hex Hs Hd.
    destruct (Hdest song content Hin) as [H1 H2];
      [now rewrite (os_path_exists_Some _ _ _ Hex), Hs, Hd | exact Hex |].
    split; [exact H1|]. split; [apply failsafe_path_in_final_dir | exact H2].
  - intros song content Hin Hex Hr. rewrite (Hkept song Hin); [exact Hex|].
    rewrite (os_path_exists_Some _ _ _ Hex). cbn.
    destruct (os_refuses (Song.file_path song) fs); [reflexivity|].
    cbn in Hr |- *. now rewrite Hr.
Qed.

(** Both songs are staged; the fail-safe name of the second cannot be
    written. *)
Lemma failsafe_promotes_staged_downloads_witness :
  let songs := [Sample.song_a; Sample.song_b] in
  let fs := Sample.staged_refusing ["backend/songs/final_review/psalm_b_FAILSAFE.mp3"] in
  NoDup (map Song.file_path songs)
  /\ Forall (fun song => OsPath.in_dir temp_dir (Song.file_path song)) songs
  /\ let '(r, fs') := handle_failsafe_songs songs final_dir fs in
     moved_count r = 1
     /\ files fs' !! "backend/songs/final_review/psalm_a_FAILSAFE.mp3" = Some "audio a"
     /\ files fs' !! Song.file_path Sample.song_b = Some "audio b".
Proof.
  intros songs fs.
  assert (Hnodup : NoDup (map Song.file_path songs)).
  { vm_compute. apply NoDup_cons. split; [|apply NoDup_singleton].
    intros Hin. apply list_elem_of_In in Hin. destruct Hin as [Heq|[]]. discriminate Heq. }
  assert (Hdir : Forall (fun song => OsPath.in_dir temp_dir (Song.file_path song)) songs).
  { repeat constructor; vm_compute; reflexivity. }
  split; [exact Hnodup|]. split; [exact Hdir|].
  pose proof (failsafe_promotes_staged_downloads songs fs Hnodup Hdir) as H.
  destruct (handle_failsafe_songs songs final_dir fs) as [r fs'].
  destruct H as (Hm & Hmoved & Hleft).
  split; [rewrite Hm; vm_compute; reflexivity|]. split.
  - destruct (Hmoved Sample.song_a "audio a") as [H _];
      [left; reflexivity | reflexivity | reflexivity | reflexivity | exact H].
  - apply (Hleft Sample.song_b "audio b");
      [right; left; reflexivity | reflexivity | vm_compute; reflexivity].
Defined.

(** X14.  Why the file names must differ.  Two staged candidates with
    different paths but the same file name are promoted to one and the same
    fail-safe path.  When the operating system refuses none of the three
    paths, both are counted as moved, both are gone from staging, and the
    fail-safe path holds the content of the second, so the first is
    overwritten. *)
Theorem failsafe_same_name_overwrites
    (final_dir : string) (first second : Song.t) (fs : filesystem) (c1 c2 : string) :
  Song.file_path first <> Song.file_path second ->
  OsPath.basename (Song.file_path first) = OsPath.basename (Song.file_path second) ->
  ~ OsPath.in_dir final_dir (Song.file_path first) ->
  ~ OsPath.in_dir final_dir (Song.file_path second) ->
  files fs !! Song.file_path first = Some c1 ->
  files fs !! Song.file_path second = Some c2 ->
  os_refuses (Song.file_path first) fs = false ->
  os_refuses (Song.file_path second) fs = false ->
  os_refuses (failsafe_path_of final_dir (Song.file_path first)) fs = false ->
  let '(r, fs') := handle_failsafe_songs [first; second] final_dir fs in
  r = {| moved_count := 2; error_count := 0 |}
  /\ failsafe_path_of final_dir (Song.file_path first)
     = failsafe_path_of final_dir (Song.file_path second)
  /\ files fs' !! failsafe_path_of final_dir (Song.file_path first) = Some c2
  /\ files fs' !! Song.file_path first = None
  /\ files fs' !! Song.file_path second = None.
Proof.
  intros Hne Hname Hout1 Hout2 Hex1 Hex2 Hr1 Hr2 Hrd.
  assert (Hsame : failsafe_path_of final_dir (Song.file_path first)
                  = failsafe_path_of final_dir (Song.file_path second))
    by (unfold failsafe_path_of; now rewrite Hname).
  assert (Hd1 : failsafe_path_of final_dir (Song.file_path first) <> Song.file_path first).
  { intros Heq. apply Hout1. rewrite <- Heq. apply failsafe_path_in_final_dir. }
  assert (Hd2 : failsafe_path_of final_dir (Song.file_path second) <> Song.file_path second).
  { intros Heq. apply Hout2. rewrite <- Heq. apply failsafe_path_in_final_dir. }
  unfold handle_failsafe_songs. cbn [fold_left].
  rewrite (failsafe_song_present final_dir _ _ _ _ Hex1 Hr1 Hrd).
  set (fs1 := renamed (Song.file_path first)
                (failsafe_path_of final_dir (Song.file_path first)) c1 fs).
  assert (Hex2' : files fs1 !! Song.file_path second = Some c2).
  { subst fs1. cbn. rewrite lookup_insert_ne by congruence.
    now rewrite lookup_delete_ne by congruence. }
  assert (Hrd' : os_refuses (failsafe_path_of final_dir (Song.file_path second)) fs1 = false)
    by (rewrite <- Hsame; exact Hrd).
  rewrite (failsafe_song_present final_dir _ fs1 _ _ Hex2' Hr2 Hrd').
  subst fs1. cbn.
  split; [reflexivity|]. split; [exact Hsame|]. split; [|split].
  - rewrite Hsame. apply lookup_insert_eq.
  - rewrite lookup_insert_ne by congruence. rewrite lookup_delete_ne by congruence.
    rewrite lookup_insert_ne by congruence. apply lookup_delete_eq.
  - rewrite lookup_insert_ne by congruence. apply lookup_delete_eq.
Qed.

Lemma failsafe_same_name_overwrites_witness :
  let '(r, fs') :=
    handle_failsafe_songs [Sample.song_a1; Sample.song_b1] verify_final_destination_folder
      Sample.staged_twice in
  r = {| moved_count := 2; error_count := 0 |}
  /\ files fs' !! "backend/songs/final_review/psalm_FAILSAFE.mp3" = Some "audio b".
Proof.
  pose proof (failsafe_same_name_overwrites verify_final_destination_folder
                Sample.song_a1 Sample.song_b1 Sample.staged_twice "audio a" "audio b") as H.
  destruct (handle_failsafe_songs [Sample.song_a1; Sample.song_b1]
              verify_final_destination_folder Sample.staged_twice) as [r fs'].
  destruct H as (Hr & _ & Hdest & _).
  - discriminate.
  - reflexivity.
  - intros Hin. vm_compute in Hin. discriminate Hin.
  - intros Hin. vm_compute in Hin. discriminate Hin.
  - reflexivity.
  - reflexivity.
  - reflexivity.
  - reflexivity.
  - reflexivity.
  - split; [exact Hr | exact Hdest].
Defined.
